(** * goyacc: the table generator of [main1] and the parser it emits

    A shallow embedding of [src/main.go].  The generator half ([main1]) is
    modelled as functions over the grammar processor's output; the emitted
    parser ([yylex1], [yyParse]) is modelled as a step function over an
    explicit configuration.  Go's [int] is modelled by [Z]: the numbers it
    holds here are counts and indexes of data held in memory, and its
    arithmetic is taken without overflow.  The explicit conversions of the
    source ([uint64], [uint32], the [uintN] cell type) are written out as
    reductions modulo, or bounds by, a power of two.  A panic of the
    generator, a program the Go compiler rejects and a run-time fault of
    the parser are the [None] and [Panic] results. *)

From Stdlib Require Import ZArith List String Ascii Lia Bool.
From Stdlib Require Import DecimalString.
From stdpp Require Import base gmap strings list fin_maps sorting.

Local Open Scope Z_scope.

(** ** Go primitives used by the source *)

Module Go.

(** [fmt]'s [%d] verb. *)
Definition fmt_d (n : Z) : string := NilZero.string_of_int (Z.to_int n).

(** Indexing a slice or array with an [int]: out of range panics. *)
Definition index {A} (l : list A) (i : Z) : option A :=
  if i <? 0 then None else l !! Z.to_nat i.

(** [len] of a slice as an [int]. *)
Definition len {A} (l : list A) : Z := Z.of_nat (length l).

(** Reading a map: a missing key yields the zero value. *)
Definition map_get `{Countable K} {V} (zero : V) (m : gmap K V) (k : K) : V :=
  default zero (m !! k).

Definition nl : string := String (ascii_of_nat 10) EmptyString.

Definition uint32 (n : Z) : Z := n mod 2 ^ 32.
Definition uint64 (n : Z) : Z := n mod 2 ^ 64.

(** [mathutil.BitLen]: the width of the non zero part of [uint64(n)]. *)
Definition BitLen (n : Z) : Z :=
  let u := uint64 n in if u =? 0 then 0 else Z.log2 u + 1.

(** [strings.ToLower] on the ASCII range (other bytes are left alone). *)
Definition lower_ascii (c : ascii) : ascii :=
  let n := N_of_ascii c in
  if ((65 <=? n) && (n <=? 90))%N then ascii_of_N (n + 32) else c.

Fixpoint ToLowerASCII (s : string) : string :=
  match s with
  | EmptyString => EmptyString
  | String c s' => String (lower_ascii c) (ToLowerASCII s')
  end.

(** [sort.insertionSort], the algorithm [sort.Sort] runs on short slices:
    every element is swapped leftwards while it is [less] than its left
    neighbour.  [bubble x rp] works on the prefix stored last-first. *)
Fixpoint bubble {A} (less : A → A → bool) (x : A) (rp : list A) : list A :=
  match rp with
  | [] => [x]
  | y :: rp' => if less x y then y :: bubble less x rp' else x :: rp
  end.

Definition insertionSort {A} (less : A → A → bool) (data : list A) : list A :=
  rev (fold_left (λ rp x, bubble less x rp) data []).

End Go.

(** ** The grammar processor's output, as [main1] reads it *)

(** [*y.Symbol]: symbols are compared and used as map keys by address. *)
Definition SymPtr := positive.

Record Symbol := mkSymbol {
  Name : string;
  Value : Z;
  IsTerminal : bool;
  Type_ : string
}.

(** What [act.Kind()] returns: a rune and its argument. *)
Definition rune_a : Z := 97.
Definition rune_r : Z := 114.
Definition rune_s : Z := 115.
Definition rune_g : Z := 103.

Record Action := mkAction {
  Sym : SymPtr;
  Kind : Z * Z
}.

Inductive Tok := DLR_DLR | DLR_NUM | DLR_TAG_DLR | DLR_TAG_NUM | OtherTok.

Record ActionPart := mkPart {
  Src : string;
  PTok : Tok;
  Tag : string;
  Num : Z
}.

#[warnings="-register-all"]
Inductive Rule := mkRule {
  RSym : SymPtr;
  Components : list string;
  Parent : option Rule;
  MaxParentDlr : Z;
  RAction : list ActionPart
}.

Record XError := mkXError {
  Stack : list Z;
  Lookahead : option SymPtr;
  Msg : string
}.

Record symUsed := mkSymUsed {
  sym : SymPtr;
  used : Z
}.

Global Instance symUsed_eq_dec : EqDecision symUsed.
Proof. solve_decision. Defined.

(** ** Symbol translator and table encoder *)

Section Generator.

(** The symbol store behind the pointers, [strings.ToLower] and
    [sort.Sort]; the latter only ever swaps elements. *)
Variable heap : SymPtr → Symbol.
Variable ToLower : string → string.
Variable Sort : (symUsed → symUsed → bool) → list symUsed → list symUsed.

Definition reserved (nm : string) : bool :=
  (nm =? "")%string || (nm =? "ε")%string
  || (nm =? "$accept")%string || (nm =? "#")%string.

(** Lines 208-215: every symbol registered under a non reserved name
    starts with usage 0. *)
Definition msu_init (Syms : gmap string SymPtr) : gmap SymPtr Z :=
  map_fold (λ nm s msu, if reserved nm then msu else <[s := 0]> msu) ∅ Syms.

(** The symbols the loop above registers, as a set of addresses. *)
Definition nonreserved_syms (Syms : gmap string SymPtr) : gset SymPtr :=
  map_to_set (λ _ s, s) (filter (λ p, reserved p.1 = false) Syms).

(** Lines 219-228: one action of one state. *)
Definition scan_action (acc : gmap SymPtr Z * Z * Z) (act : Action)
  : gmap SymPtr Z * Z * Z :=
  let '(msu, minArg, maxArg) := acc in
  let msu := <[Sym act := Go.map_get 0 msu (Sym act) + 1]> msu in
  let '(k, arg) := Kind act in
  if k =? rune_a then (msu, minArg, maxArg)
  else
    let arg := if k =? rune_r then - arg else arg in
    (msu, Z.min minArg arg, Z.max maxArg arg).

(** Lines 216-230. *)
Definition scan_table (Syms : gmap string SymPtr) (Table : list (list Action))
  : gmap SymPtr Z * Z * Z :=
  fold_left (λ acc state, fold_left scan_action state acc)
            Table (msu_init Syms, 0, 0).

Definition msu_of Syms Table : gmap SymPtr Z := (scan_table Syms Table).1.1.
Definition minArg_of Syms Table : Z := (scan_table Syms Table).1.2.
Definition maxArg_of Syms Table : Z := (scan_table Syms Table).2.

(** Lines 145-155. *)
Definition Less (a b : symUsed) : bool :=
  if used b <? used a then true
  else if used a <? used b then false
  else String.ltb (ToLower (Name (heap (sym a)))) (ToLower (Name (heap (sym b)))).

(** Lines 231-235.  [order] is the order in which [range msu] happened to
    visit the map. *)
Definition su_of (order : list (SymPtr * Z)) : list symUsed :=
  Sort Less ((λ p, mkSymUsed p.1 p.2) <$> order).

(** Line 272: [minArg--], then emitted as [TabOfs]. *)
Definition TabOfs_of Syms Table : Z := minArg_of Syms Table - 1.

(** Lines 281-292. *)
Definition xlat_step (acc : gmap Z Z * Z * Z) (iv : nat * symUsed)
  : gmap Z Z * Z * Z :=
  let '(xlat, endSym, errSym) := acc in
  let '(i, v) := iv in
  let endSym := if (Name (heap (sym v)) =? "$end")%string then Z.of_nat i else endSym in
  let errSym := if (Name (heap (sym v)) =? "error")%string then Z.of_nat i else errSym in
  (<[Value (heap (sym v)) := Z.of_nat i]> xlat, endSym, errSym).

Definition xlat_loop (su : list symUsed) : gmap Z Z * Z * Z :=
  fold_left xlat_step (imap (λ i v, (i, v)) su) (∅, 0, 0).

Definition xlat_of su : gmap Z Z := (xlat_loop su).1.1.
Definition endSym_of su : Z := (xlat_loop su).1.2.
Definition errSym_of su : Z := (xlat_loop su).2.

(** Lines 303-307: the reduction table, a map literal keyed by the rule
    index. *)
Definition Reductions_of (xlat : gmap Z Z) (Rules : list Rule) : gmap Z (Z * Z) :=
  list_to_map
    (imap (λ r rule, (Z.of_nat r,
                      (Go.map_get 0 xlat (Value (heap (RSym rule))),
                       Go.len (Components rule)))) Rules).

(** Lines 310-319: one entry of the XError map literal; indexing an empty
    [Stack] panics. *)
Definition xerror_entry (xlat : gmap Z Z) (xerr : XError) : option (Z * Z * string) :=
  state ← Go.index (Stack xerr) (Go.len (Stack xerr) - 1);
  let xsym := match Lookahead xerr with
              | Some la => Go.map_get 0 xlat (Value (heap la))
              | None => -1
              end in
  Some (state, xsym, Msg xerr).

(** A map literal whose keys are not constants.  The keys written on
    line 318 are struct values, [yyXError{state, xsym}]: the Go compiler
    compares constant keys only, so a repeated key compiles, and the map is
    filled in the order of the entries, the later entry replacing the
    earlier one. *)
Definition map_literal `{Countable K} {V} (entries : list (K * V)) : gmap K V :=
  fold_left (λ acc kv, <[kv.1 := kv.2]> acc) entries ∅.

Definition XErrors_of (xlat : gmap Z Z) (xerrs : list XError)
  : option (gmap (Z * Z) string) :=
  entries ← mapM (xerror_entry xlat) xerrs;
  Some (map_literal entries).

(** Lines 322-328; [minArg] is the decremented one. *)
Definition tbits_of (minArg maxArg : Z) : Z :=
  let n := Go.BitLen (maxArg - minArg + 1) in
  if n <? 8 then 8 else if n <? 16 then 16 else 32.

(** Line 350: [uint64(xsym)<<32|uint64(arg-minArg)]. *)
Definition pack (xsym enc : Z) : Z :=
  Z.lor (Go.uint64 (Z.shiftl (Go.uint64 xsym) 32)) (Go.uint64 enc).

(** Lines 343-349: the number stored for an action, before the offset. *)
Definition cell_arg (act : Action) : Z :=
  let '(kind, arg) := Kind act in
  if kind =? rune_a then 0
  else if kind =? rune_r then arg * -1 else arg.

(** Lines 336-350: one action of a row; a symbol missing from [xlat] is
    "internal error 001". *)
Definition encode_action (xlat : gmap Z Z) (minArg : Z) (act : Action) : option Z :=
  xsym ← xlat !! Value (heap (Sym act));
  Some (pack xsym (cell_arg act - minArg)).

(** The numbers line 350 stores, over the whole table. *)
Definition encoded_values (minArg : Z) (Table : list (list Action)) : list Z :=
  (λ act, cell_arg act - minArg) <$> concat Table.

(** The cells a row literal is written from: column and stored number. *)
Definition cells_of (tabRow : list Z) : list (Z * Z) :=
  (λ v, (Go.uint32 (Z.shiftr v 32), Go.uint32 v)) <$> tabRow.

(** Lines 354-372: the elements of the row literal; the index is written
    only where the column does not follow the previous one. *)
Fixpoint emit_row (tabRow : list Z) (col : Z) : list (option Z * Z) :=
  match tabRow with
  | [] => []
  | v :: rest =>
      let xsym := Go.uint32 (Z.shiftr v 32) in
      let arg := Go.uint32 v in
      ((if col + 1 =? xsym then None else Some xsym), arg) :: emit_row rest xsym
  end.

(** How Go reads a keyed [[]uintN] literal: an element without index
    follows the previous one; a repeated index or a constant that
    overflows the element type does not compile.  The result is the
    index-to-value map and the length of the slice. *)
Fixpoint place (tbits : Z) (elems : list (option Z * Z)) (next : Z)
               (acc : gmap Z Z) (hi : Z) : option (gmap Z Z * Z) :=
  match elems with
  | [] => Some (acc, hi)
  | (k, v) :: rest =>
      let i := default next k in
      if (i <? 0) || negb ((0 <=? v) && (v <? 2 ^ tbits)) then None
      else match acc !! i with
           | Some _ => None
           | None => place tbits rest (i + 1) (<[i := v]> acc) (Z.max hi (i + 1))
           end
  end.

Definition slice_literal (tbits : Z) (elems : list (option Z * Z)) : option (list Z) :=
  '(m, hi) ← place tbits elems 0 ∅ 0;
  Some ((λ i, Go.map_get 0 m (Z.of_nat i)) <$> seq 0 (Z.to_nat hi)).

(** Lines 332-374: one row of [ParseTab].  [tabRow.Sort()] sorts numbers,
    which every sorting algorithm does to the same result. *)
Definition row_of (xlat : gmap Z Z) (minArg tbits : Z) (state : list Action)
  : option (list Z) :=
  tabRow ← mapM (encode_action xlat minArg) state;
  slice_literal tbits (emit_row (Go.insertionSort Z.ltb tabRow) (-1)).

Definition ParseTab_of (xlat : gmap Z Z) (minArg tbits : Z) (Table : list (list Action))
  : option (list (list Z)) :=
  mapM (row_of xlat minArg tbits) Table.

(** Lines 569-582: one part of an action.  The indentation layer of the
    formatter is not modelled; the result is the text handed to it. *)
Definition stitch_part (Syms : gmap string SymPtr) (typ : string) (max : Z)
           (components : list string) (part : ActionPart) : option string :=
  let num := Num part in
  match PTok part with
  | DLR_DLR => Some (Src part +:+ "rval." +:+ typ)
  | DLR_NUM =>
      nm ← Go.index components (num - 1);
      s ← Syms !! nm;
      Some (Src part +:+ "stack[sp-" +:+ Go.fmt_d (max - num) +:+ "]." +:+ Type_ (heap s))
  | DLR_TAG_DLR => Some (Src part +:+ "rval." +:+ Tag part)
  | DLR_TAG_NUM =>
      Some (Src part +:+ "stack[sp-" +:+ Go.fmt_d num +:+ "]." +:+ Tag part)
  | OtherTok => Some (Src part)
  end.

(** Lines 549-557: the bound and the components positional references are
    resolved against. *)
Definition stitch_max (rule : Rule) : Z :=
  match Parent rule with
  | Some _ => MaxParentDlr rule
  | None => Go.len (Components rule)
  end.

Definition stitch_components (rule : Rule) : list string :=
  match Parent rule with
  | Some p => Components p
  | None => Components rule
  end.

(** Lines 548-584: the [case] emitted for rule [r] (empty when skipped). *)
Definition stitch_rule (Syms : gmap string SymPtr) (r : Z) (rule : Rule) : option string :=
  let components := stitch_components rule in
  let typ := Type_ (heap (RSym rule)) in
  let max := stitch_max rule in
  let synth := bool_decide (is_Some (Parent rule)) in
  let action := RAction rule in
  if (Go.len action =? 0) && (typ =? "")%string then Some ""%string
  else if (Go.len action =? 0) && negb synth then
    nm ← Go.index components 0;
    s ← Syms !! nm;
    Some ("case " +:+ Go.fmt_d r +:+ ": " +:+ "{" +:+ Go.nl +:+ "rval." +:+ typ
          +:+ " = stack[sp]." +:+ Type_ (heap s) +:+ Go.nl +:+ "}" +:+ Go.nl)
  else
    parts ← mapM (stitch_part Syms typ max components) action;
    Some ("case " +:+ Go.fmt_d r +:+ ": " +:+ String.concat "" parts +:+ Go.nl).

End Generator.

(** ** The emitted parser *)

(** The tables the generator writes into the parser. *)
Record Tables := mkTables {
  ParseTab : list (list Z);
  TabOfs : Z;
  XLAT : gmap Z Z;
  Reductions : gmap Z (Z * Z);
  XErrors : gmap (Z * Z) string;
  yyError : Z;
  yyEOF : Z
}.

Inductive step_kind := KShift | KReduce | KErrShift | KDiscard.

Section Runtime.

(** The payload part of [yySymType] and its zero value. *)
Context {V : Type}.
Variable V0 : V.

(** The semantic actions are Go code of the grammar, placed in the cases
    of the [switch r] (lines 546-586).  The parser provides them with the
    stack ([$N]), with [rval] ([$$]), with the closure [yyerrok] (lines
    419-425), which sets [errState] to 0, and with the lexer [yylex], whose
    method [Error] they may call.  An action is modelled by what it does
    with these: the payload it leaves in [rval], whether it calls
    [yyerrok], and the messages it passes to [yylex.Error].  An action that
    assigns other variables of [yyParse], leaves the function, or reads
    tokens itself is outside the model. *)
Record effect := mkEffect {
  e_rval : V;
  e_errok : bool;
  e_msgs : list string
}.

(** An action that only computes a payload. *)
Definition plain (v : V) : effect := mkEffect v false [].

(** The actions, as a function of the rule, the stack and the payload of
    [rval]. *)
Variable act : Z → list (Z * V) → V → effect.
Variable t : Tables.

(** A stack frame: [yys] and the payload. *)
Local Abbreviation frame := (Z * V)%type.
Definition yys (f : frame) : Z := f.1.

(** The caller's lexer: the tokens it will return, each with what it
    does to [lval]; afterwards it returns 0 and leaves [lval] alone. *)
Record config := mkConfig {
  stack : list frame;
  lookahead : Z;
  errState : Z;
  lval : V;
  rval : V;
  input : list (Z * (V → V));
  errors : list string
}.

(** How a pass ends: at [goto next], at a [return], or with a run-time
    fault, of which the messages [yylex.Error] has received by then are
    kept. *)
Inductive outcome :=
| Next (k : step_kind) (c : config)
| Return (code : Z) (c : config)
| Panic (errs : list string).

(** The messages [yylex.Error] has received when a pass ends. *)
Definition sink (o : outcome) : list string :=
  match o with
  | Next _ c => errors c
  | Return _ c => errors c
  | Panic errs => errs
  end.

(** Lines 404-408 without the call of the lexer. *)
Definition xlat_token (n : Z) : Z :=
  let n := if n <=? 0 then -1 else n in
  Go.map_get 0 (XLAT t) n.

(** Lines 403-413. *)
Definition yylex1 (c : config) : config :=
  match input c with
  | [] => mkConfig (stack c) (xlat_token 0) (errState c) (lval c) (rval c) [] (errors c)
  | (n, f) :: rest =>
      mkConfig (stack c) (xlat_token n) (errState c) (f (lval c)) (rval c) rest (errors c)
  end.

(** Lines 448-455. *)
Definition action_cell (state la : Z) : option Z :=
  row ← Go.index (ParseTab t) state;
  if la <? Go.len row then
    cell ← Go.index row la;
    Some (if cell =? 0 then 0 else cell + TabOfs t)
  else Some 0.

(** Lines 478-492. *)
Definition xerror_msg (state la : Z) : string :=
  match XErrors t !! (state, la) with
  | Some msg => msg
  | None =>
      match XErrors t !! (state, -1) with
      | Some msg => msg
      | None => "syntax error"%string
      end
  end.

(** Line 493: [yylex.Error(msg)]. *)
Definition report (c : config) (state : Z) : config :=
  mkConfig (stack c) (lookahead c) (errState c) (lval c) (rval c) (input c)
           (errors c ++ [xerror_msg state (lookahead c)]).

(** Lines 497-518: the loop running while [sp != 0].  [Some (Some s)] is
    the stack after the push at the hit, [Some None] the exit of the loop. *)
Fixpoint unwind (sp : nat) (stk : list frame) (state : Z) (lv : V)
  : option (option (list frame)) :=
  match sp with
  | O => Some None
  | S sp' =>
      row ← Go.index (ParseTab t) state;
      arg ← (if yyError t <? Go.len row
             then cell ← Go.index row (yyError t); Some (cell + TabOfs t)
             else Some 0);
      if negb (arg =? 0) then Some (Some (stk ++ [(arg, lv)]))
      else
        let stk' := take sp stk in
        fr ← stk' !! sp';
        unwind sp' stk' (yys fr) lv
  end.

(** Lines 495-523 ([case 1, 2], also reached from [case 0]). *)
Definition unwind_phase (c : config) (state : Z) : outcome :=
  match unwind (length (stack c) - 1) (stack c) state (lval c) with
  | None => Panic (errors c)
  | Some None =>
      Return 1 (mkConfig (stack c) (lookahead c) 3 (lval c) (rval c) (input c) (errors c))
  | Some (Some stk) =>
      Next KErrShift (mkConfig stk (lookahead c) 3 V0 (rval c) (input c) (errors c))
  end.

(** Lines 472-535: the [default] branch. *)
Definition error_step (c : config) (state : Z) : outcome :=
  if errState c =? 0 then unwind_phase (report c state) state
  else if (errState c =? 1) || (errState c =? 2) then unwind_phase c state
  else if errState c =? 3 then
    if lookahead c =? yyEOF t then Return 1 c
    else Next KDiscard (mkConfig (stack c) (-1) (errState c) (lval c) (rval c)
                                 (input c) (errors c))
  else Return 1 c.

(** Line 541: the state entered after reducing to symbol [x] with [n]
    frames popped. *)
Definition goto_state (stk : list frame) (sp n x : Z) : option Z :=
  base ← Go.index stk (sp - n);
  row ← Go.index (ParseTab t) (yys base);
  cell ← Go.index row x;
  Some (cell + TabOfs t).

(** Lines 538-589.  The state to go to is computed on line 541, before
    the action runs; the action may call [yyerrok] and [yylex.Error]. *)
Definition reduce_step (c : config) (arg : Z) : outcome :=
  let sp := Go.len (stack c) - 1 in
  let r := - arg in
  let '(x, n) := Go.map_get (0, 0) (Reductions t) r in
  match goto_state (stack c) sp n x with
  | None => Panic (errors c)
  | Some s =>
      let e := act r (stack c) (rval c) in
      Next KReduce (mkConfig (take (Z.to_nat (sp - n + 1)) (stack c) ++ [(s, e_rval e)])
                             (lookahead c) (if e_errok e then 0 else errState c)
                             (lval c) (e_rval e) (input c) (errors c ++ e_msgs e))
  end.

(** Lines 457-468. *)
Definition shift_step (c : config) (arg : Z) : outcome :=
  Next KShift (mkConfig (stack c ++ [(arg, lval c)]) (-1)
                        (if errState c >? 0 then errState c - 1 else errState c)
                        V0 (rval c) (input c) (errors c)).

(** One pass from the label [next] to the following [goto next] or
    [return]. *)
Definition step (c : config) : outcome :=
  match Go.index (stack c) (Go.len (stack c) - 1) with
  | None => Panic (errors c)
  | Some top =>
      let state := yys top in
      let c := if lookahead c <? 0 then yylex1 c else c in
      match action_cell state (lookahead c) with
      | None => Panic (errors c)
      | Some arg =>
          if arg >? 0 then shift_step c arg
          else if arg <? 0 then reduce_step c arg
          else if state =? 1 then Return 0 c
          else error_step c state
      end
  end.

Inductive result :=
| Returned (code : Z) (c : config)
| Panicked (errs : list string)
| Running.

(** [yyParse], cut off after [fuel] passes. *)
Fixpoint run (fuel : nat) (c : config) : result :=
  match fuel with
  | O => Running
  | S fuel' =>
      match step c with
      | Next _ c' => run fuel' c'
      | Return code c' => Returned code c'
      | Panic errs => Panicked errs
      end
  end.

(** Lines 415-427. *)
Definition init (inp : list (Z * (V → V))) : config :=
  mkConfig [(0, V0)] (-1) 0 V0 V0 inp [].

Definition yyParse (fuel : nat) (inp : list (Z * (V → V))) : result :=
  run fuel (init inp).

(** No row holds a shift in the column of the end marker. *)
Definition eof_never_shifted : bool :=
  forallb (λ row, match Go.index row (yyEOF t) with
                  | Some cell => (cell =? 0) || (cell + TabOfs t <=? 0)
                  | None => true
                  end) (ParseTab t).

(** What a configuration can still spend on passes other than reductions:
    two for every token not yet consumed, and one for the stack to be
    unwound unless it has been. *)
Definition pending (c : config) : nat :=
  if (0 <=? lookahead c) && negb (lookahead c =? yyEOF t) then 1%nat else 0%nat.

Definition budget (c : config) : nat :=
  (2 * (length (input c) + pending c) + (if (errState c =? 3)%Z then 0 else 1))%nat.

(** The state of the top frame. *)
Definition top_state (c : config) : Z := default 0 (yys <$> last (stack c)).

(** What a configuration can still spend on passes of any kind, the states
    being ranked up to [R]: a reduction lowers the rank of the top state. *)
Definition potential (rank : Z → nat) (R : nat) (c : config) : nat :=
  (budget c * (R + 1) + rank (top_state c))%nat.

End Runtime.

(** ** More of the generator: names, constants and statistics *)

Module Go2.

(** [strings.Repeat]: a negative count panics. *)
Fixpoint repeat_nat (s : string) (n : nat) : string :=
  match n with
  | O => EmptyString
  | S n' => s +:+ repeat_nat s n'
  end.

Definition Repeat (s : string) (count : Z) : option string :=
  if count <? 0 then None else Some (repeat_nat s (Z.to_nat count)).

(** [len] of a string: its number of bytes. *)
Definition slen (s : string) : Z := Z.of_nat (String.length s).

(** What [sort.Sort] asks of [Less]: a strict weak ordering. *)
Definition strict_weak {A} (less : A → A → bool) : Prop :=
  (∀ a, less a a = false)
  ∧ (∀ a b c, less a b = true → less b c = true → less a c = true)
  ∧ (∀ a b c, less a b = false → less b c = false → less a c = false).

(** What [sort.Sort] gives for such a [Less]: the same elements, none
    less than one before it. *)
Definition sorts {A} (Sort : (A → A → bool) → list A → list A) : Prop :=
  ∀ less, strict_weak less →
    ∀ l, Sort less l ≡ₚ l ∧ StronglySorted (λ a b, less b a = false) (Sort less l).

End Go2.

Section Emitter.

Variable heap : SymPtr → Symbol.

(** How often the table names a symbol. *)
Definition occurrences (s : SymPtr) (Table : list (list Action)) : nat :=
  length (filter (λ act, Sym act = s) (concat Table)).

(** Lines 296-300: the names are written with [%q] in the order of [su];
    the slice the parser holds has the names themselves. *)
Definition SymNames_of (su : list symUsed) : list string :=
  (λ v, Name (heap (sym v))) <$> su.

(** Lines 395-401; [quote] is [Sprintf("%q", c)]. *)
Definition yySymName (quote : Z → string) (SymNames : list string) (c : Z)
  : option string :=
  if (0 <=? c) && (c <? Go.len SymNames) then Go.index SymNames c
  else Some (quote c).

(** Line 254: whether a symbol gets a constant; [nm[0]] panics on the
    empty name of a terminal. *)
Definition is_token (s : Symbol) : option bool :=
  if (Name s =? "$default")%string then Some true
  else if IsTerminal s then
    match Name s with
    | EmptyString => None
    | String c _ => Some (negb (Ascii.eqb c "'"%char) && (Value s >? 0))
    end
  else Some false.

(** Lines 252-259: one symbol of [range msu]. *)
Definition const_step (acc : option (gmap string SymPtr * list string * Z)) (p : SymPtr)
  : option (gmap string SymPtr * list string * Z) :=
  '(nsyms, a, maxTokName) ← acc;
  tok ← is_token (heap p);
  let nm := Name (heap p) in
  let '(a, maxTokName) :=
    if tok : bool then (a ++ [nm], Z.max maxTokName (Go2.slen nm)) else (a, maxTokName) in
  Some (<[nm := p]> nsyms, a, maxTokName).

(** Lines 249-259; [order] is the order in which [range msu] visits the
    symbols. *)
Definition const_scan (order : list SymPtr)
  : option (gmap string SymPtr * list string * Z) :=
  fold_left const_step order (Some (∅, [], 0)).

(** Lines 262-271: the line of one name, [Some None] when it is skipped. *)
Definition const_line (pref : string) (maxTokName : Z) (nsyms : gmap string SymPtr)
           (v : string) : option (option string) :=
  if (v =? "error")%string then Some None
  else
    let nm := if (v =? "$default")%string then pref +:+ "Default" else v in
    pad ← Go2.Repeat " " (maxTokName - Go2.slen nm + 1);
    s ← nsyms !! v;
    Some (Some (nm +:+ pad +:+ "= " +:+ Go.fmt_d (Value (heap s)) +:+ Go.nl)).

(** Lines 249-271.  [sort.Strings] sorts by bytes, which every sorting
    algorithm does to the same result. *)
Definition const_block (pref : string) (order : list SymPtr)
  : option (list (option string)) :=
  '(nsyms, a, maxTokName) ← const_scan order;
  mapM (const_line pref maxTokName nsyms) (Go.insertionSort String.ltb a).

(** Lines 334-342: the largest column of a row, from 0. *)
Definition row_max (xlat : gmap Z Z) (state : list Action) : option Z :=
  fold_left (λ acc act,
               max ← acc;
               xsym ← xlat !! Value (heap (Sym act));
               Some (Z.max max xsym)) state (Some 0).

(** Lines 330-352: [nCells], as reported on line 376. *)
Definition nCells_of (xlat : gmap Z Z) (Table : list (list Action)) : option Z :=
  fold_left (λ acc state,
               nCells ← acc;
               max ← row_max xlat state;
               Some (nCells + max)) Table (Some 0).

End Emitter.

(** A ranking of the states under which every reduction descends: the
    state entered after a reduction made in state [s], whatever state the
    popped frames uncover, has a lower rank than [s]. *)
Definition reductions_descend (t : Tables) (rank : Z → nat) : Prop :=
  ∀ s la arg base row cell,
    action_cell t s la = Some arg → arg < 0 →
    Go.index (ParseTab t) base = Some row →
    Go.index row (Go.map_get (0, 0) (Reductions t) (- arg)).1 = Some cell →
    (rank (cell + TabOfs t)%Z < rank s)%nat.

(** The same, decided by going through the table. *)
Definition descend_check (t : Tables) (rank : Z → nat) : bool :=
  forallb
    (λ '(s, row),
       forallb
         (λ cell,
            let arg := if cell =? 0 then 0 else cell + TabOfs t in
            if arg <? 0 then
              forallb
                (λ brow,
                   match Go.index brow (Go.map_get (0, 0) (Reductions t) (- arg)).1 with
                   | Some c => (rank (c + TabOfs t)%Z <? rank s)%nat
                   | None => true
                   end) (ParseTab t)
            else true) row)
    (imap (λ i row, (Z.of_nat i, row)) (ParseTab t)).

Section RuntimeTrace.

Context {V : Type}.
Variable V0 : V.
Variable act : Z → list (Z * V) → V → @effect V.
Variable t : Tables.

(** The configuration [n] passes later, while the parser keeps going. *)
Fixpoint after (n : nat) (c : @config V) : option (@config V) :=
  match n with
  | O => Some c
  | S n' =>
      match step V0 act t c with
      | Next _ c' => after n' c'
      | _ => None
      end
  end.

(** The number of shifts among the first [n] passes. *)
Fixpoint shifts (n : nat) (c : @config V) : nat :=
  match n with
  | O => O
  | S n' =>
      match step V0 act t c with
      | Next KShift c' => S (shifts n' c')
      | Next _ c' => shifts n' c'
      | _ => O
      end
  end.

End RuntimeTrace.

(** ** Concrete grammars used by the examples *)

Module Ex.

(** The grammar [expr: expr '+' NUM | NUM], with the symbols, the rules
    and the five states the grammar processor derives for it. *)
Definition p_end : SymPtr := 1%positive.
Definition p_plus : SymPtr := 2%positive.
Definition p_NUM : SymPtr := 3%positive.
Definition p_expr : SymPtr := 4%positive.
Definition p_error : SymPtr := 5%positive.
Definition p_accept : SymPtr := 6%positive.
Definition p_a : SymPtr := 7%positive.
Definition p_A : SymPtr := 8%positive.
Definition p_mid : SymPtr := 9%positive.
Definition p_semi : SymPtr := 10%positive.
Definition p_eq : SymPtr := 11%positive.
Definition p_ID : SymPtr := 12%positive.
Definition p_stmt : SymPtr := 13%positive.

Definition heap (p : SymPtr) : Symbol :=
  match p with
  | 1%positive => mkSymbol "$end" (-1) true ""
  | 2%positive => mkSymbol "'+'" 43 true ""
  | 3%positive => mkSymbol "NUM" 57346 true "num"
  | 4%positive => mkSymbol "expr" 57347 false "num"
  | 5%positive => mkSymbol "error" 57345 true ""
  | 6%positive => mkSymbol "$accept" 57348 false ""
  | 7%positive => mkSymbol "'a'" 97 true ""
  | 8%positive => mkSymbol "'A'" 65 true ""
  | 9%positive => mkSymbol "$$1" 57349 false ""
  | 10%positive => mkSymbol "';'" 59 true ""
  | 11%positive => mkSymbol "'='" 61 true ""
  | 12%positive => mkSymbol "ID" 57350 true ""
  | 13%positive => mkSymbol "stmt" 57351 false ""
  | _ => mkSymbol "" 0 false ""
  end.

Definition Syms : gmap string SymPtr :=
  list_to_map [("$end"%string, p_end); ("'+'"%string, p_plus); ("NUM"%string, p_NUM);
               ("expr"%string, p_expr); ("error"%string, p_error);
               ("$accept"%string, p_accept)].

Definition Table : list (list Action) :=
  [ [mkAction p_NUM (rune_s, 2); mkAction p_expr (rune_g, 1)];
    [mkAction p_end (rune_a, -1); mkAction p_plus (rune_s, 3)];
    [mkAction p_end (rune_r, 2); mkAction p_plus (rune_r, 2)];
    [mkAction p_NUM (rune_s, 4)];
    [mkAction p_end (rune_r, 1); mkAction p_plus (rune_r, 1)] ].

Definition rule0 : Rule := mkRule p_accept ["expr"; "$end"]%string None 0 [].
Definition rule1 : Rule :=
  mkRule p_expr ["expr"; "'+'"; "NUM"]%string None 0
         [mkPart "" DLR_DLR "" 0; mkPart " = " DLR_NUM "" 1;
          mkPart " + " DLR_NUM "" 3].
Definition rule2 : Rule := mkRule p_expr ["NUM"]%string None 0 [].
Definition Rules : list Rule := [rule0; rule1; rule2].

Definition XErrs : list XError :=
  [mkXError [0; 1; 3] (Some p_plus) "unexpected '+'"; mkXError [0] None "expected NUM"].

Definition su : list symUsed :=
  su_of heap Go.ToLowerASCII (@Go.insertionSort symUsed)
        (map_to_list (msu_of Syms Table)).

Definition xlat : gmap Z Z := xlat_of heap su.
Definition minArg : Z := TabOfs_of Syms Table.
Definition tbits : Z := tbits_of minArg (maxArg_of Syms Table).

Definition tables : Tables :=
  mkTables (default [] (ParseTab_of heap xlat minArg tbits Table))
           minArg xlat (Reductions_of heap xlat Rules)
           (default ∅ (XErrors_of heap xlat XErrs))
           (errSym_of heap su) (endSym_of heap su).

(** Payloads are numbers; rule 1 adds, rule 2 copies. *)
Definition act (r : Z) (stk : list (Z * Z)) (rv : Z) : @effect Z :=
  let sp := Go.len stk - 1 in
  let at_ d := default 0 (snd <$> Go.index stk (sp - d)) in
  plain (if r =? 1 then at_ 2 + at_ 0
         else if r =? 2 then at_ 0
         else rv).

(** States 2 and 4 reduce, into state 1, which does not. *)
Definition rank (s : Z) : nat :=
  if (s =? 2) || (s =? 4) then 1%nat else 0%nat.

Definition tok_NUM (n : Z) : Z * (Z → Z) := (57346, λ _, n).
Definition tok_plus : Z * (Z → Z) := (43, λ v, v).

(** Two literals that differ by case only, used equally often. *)
Definition Syms_aA : gmap string SymPtr :=
  list_to_map [("'a'"%string, p_a); ("'A'"%string, p_A)].
Definition Table_aA : list (list Action) :=
  [ [mkAction p_a (rune_s, 1); mkAction p_A (rune_s, 1)] ].

(** A table whose largest encoded value is 200. *)
Definition Table_200 : list (list Action) := [ [mkAction p_NUM (rune_s, 199)] ].

(** A rule with a mid-rule action, [expr: NUM { ... } '+' NUM], and the
    rule synthesized for that action. *)
Definition parent_rule : Rule :=
  mkRule p_expr ["NUM"; "$$1"; "'+'"; "NUM"]%string None 0 [].
Definition synth_rule : Rule :=
  mkRule p_mid [] (Some parent_rule) 1 [mkPart "use(" DLR_NUM "" 1; mkPart ")" OtherTok "" 0].

(** A rule of three components whose action reads [$<num>1]. *)
Definition tagged_rule : Rule :=
  mkRule p_expr ["expr"; "'+'"; "NUM"]%string None 0
         [mkPart "" DLR_DLR "" 0; mkPart " = " DLR_TAG_NUM "num" 1].

(** A translation table in which ['+'] is used more often than [$end]. *)
Definition su_plus_first : list symUsed := [mkSymUsed p_plus 5; mkSymUsed p_end 3].
Definition tables_plus_first : Tables :=
  mkTables [] (-1) (xlat_of heap su_plus_first) ∅ ∅
           (errSym_of heap su_plus_first) (endSym_of heap su_plus_first).

(** The grammar [stmt: ID '=' NUM ';' | error ';'] and its eight states. *)
Definition Syms_err : gmap string SymPtr :=
  list_to_map [("$end"%string, p_end); ("';'"%string, p_semi); ("'='"%string, p_eq);
               ("ID"%string, p_ID); ("NUM"%string, p_NUM); ("stmt"%string, p_stmt);
               ("error"%string, p_error); ("$accept"%string, p_accept)].

Definition Table_err : list (list Action) :=
  [ [mkAction p_ID (rune_s, 2); mkAction p_error (rune_s, 3); mkAction p_stmt (rune_g, 1)];
    [mkAction p_end (rune_a, -1)];
    [mkAction p_eq (rune_s, 4)];
    [mkAction p_semi (rune_s, 5)];
    [mkAction p_NUM (rune_s, 6)];
    [mkAction p_end (rune_r, 2)];
    [mkAction p_semi (rune_s, 7)];
    [mkAction p_end (rune_r, 1)] ].

Definition Rules_err : list Rule :=
  [mkRule p_accept ["stmt"; "$end"]%string None 0 [];
   mkRule p_stmt ["ID"; "'='"; "NUM"; "';'"]%string None 0 [];
   mkRule p_stmt ["error"; "';'"]%string None 0 []].

Definition su_err : list symUsed :=
  su_of heap Go.ToLowerASCII (@Go.insertionSort symUsed)
        (map_to_list (msu_of Syms_err Table_err)).

Definition tables_err : Tables :=
  mkTables (default [] (ParseTab_of heap (xlat_of heap su_err)
                          (TabOfs_of Syms_err Table_err)
                          (tbits_of (TabOfs_of Syms_err Table_err)
                                    (maxArg_of Syms_err Table_err))
                          Table_err))
           (TabOfs_of Syms_err Table_err) (xlat_of heap su_err)
           (Reductions_of heap (xlat_of heap su_err) Rules_err) ∅
           (errSym_of heap su_err) (endSym_of heap su_err).

End Ex.

(** A translation with the symbol [$default] of the grammar processor. *)
Module Ex2.

Definition p_default : SymPtr := 14%positive.

Definition heap (p : SymPtr) : Symbol :=
  match p with
  | 14%positive => mkSymbol "$default" 57352 true ""
  | _ => Ex.heap p
  end.

Definition order : list SymPtr :=
  [Ex.p_NUM; Ex.p_error; p_default; Ex.p_plus; Ex.p_end; Ex.p_expr].

End Ex2.

(** The grammar [stmt: ';' error '='], whose error shift is in a state
    above the start state, and a parse that recovers. *)
Module Ex3.

Definition Syms_rec : gmap string SymPtr :=
  list_to_map [("$end"%string, Ex.p_end); ("';'"%string, Ex.p_semi);
               ("'='"%string, Ex.p_eq); ("stmt"%string, Ex.p_stmt);
               ("error"%string, Ex.p_error); ("$accept"%string, Ex.p_accept)].

Definition Table_rec : list (list Action) :=
  [ [mkAction Ex.p_semi (rune_s, 2); mkAction Ex.p_stmt (rune_g, 1)];
    [mkAction Ex.p_end (rune_a, -1)];
    [mkAction Ex.p_error (rune_s, 3)];
    [mkAction Ex.p_eq (rune_s, 4)];
    [mkAction Ex.p_end (rune_r, 1)] ].

Definition Rules_rec : list Rule :=
  [mkRule Ex.p_accept ["stmt"; "$end"]%string None 0 [];
   mkRule Ex.p_stmt ["';'"; "error"; "'='"]%string None 0 []].

Definition su_rec : list symUsed :=
  su_of Ex.heap Go.ToLowerASCII (@Go.insertionSort symUsed)
        (map_to_list (msu_of Syms_rec Table_rec)).

Definition tables_rec : Tables :=
  mkTables (default [] (ParseTab_of Ex.heap (xlat_of Ex.heap su_rec)
                          (TabOfs_of Syms_rec Table_rec)
                          (tbits_of (TabOfs_of Syms_rec Table_rec)
                                    (maxArg_of Syms_rec Table_rec))
                          Table_rec))
           (TabOfs_of Syms_rec Table_rec) (xlat_of Ex.heap su_rec)
           (Reductions_of Ex.heap (xlat_of Ex.heap su_rec) Rules_rec) ∅
           (errSym_of Ex.heap su_rec) (endSym_of Ex.heap su_rec).

Definition act (r : Z) (stk : list (Z * unit)) (rv : unit) : @effect unit := plain tt.

(** [; ; ; =]: the second and third token are in error. *)
Definition inp : list (Z * (unit → unit)) := [(59, id); (59, id); (59, id); (61, id)].

(** The parse of [inp] after the shift of the first token, and after the
    error shift that the second token leads to. *)
Definition c_err : @config unit :=
  mkConfig [(0, tt); (2, tt)] (-1) 0 tt tt [(59, id); (59, id); (61, id)] [].
Definition c_rec : @config unit :=
  mkConfig [(0, tt); (2, tt); (3, tt)] 1 3 tt tt [(59, id); (61, id)] ["syntax error"%string].

End Ex3.

(** The grammar [stmt: 'a' e 'x' | 'b' e 'y'], [e: error { yyerrok() }]
    and its nine LALR(1) states; the state after [error] is shared by the
    two rules of [stmt], so it reduces on ['x'] and on ['y']. *)
Module Ex4.

Definition p_end : SymPtr := 1%positive.
Definition p_error : SymPtr := 2%positive.
Definition p_a : SymPtr := 3%positive.
Definition p_b : SymPtr := 4%positive.
Definition p_x : SymPtr := 5%positive.
Definition p_y : SymPtr := 6%positive.
Definition p_stmt : SymPtr := 7%positive.
Definition p_e : SymPtr := 8%positive.
Definition p_accept : SymPtr := 9%positive.

Definition heap (p : SymPtr) : Symbol :=
  match p with
  | 1%positive => mkSymbol "$end" (-1) true ""
  | 2%positive => mkSymbol "error" 57345 true ""
  | 3%positive => mkSymbol "'a'" 97 true ""
  | 4%positive => mkSymbol "'b'" 98 true ""
  | 5%positive => mkSymbol "'x'" 120 true ""
  | 6%positive => mkSymbol "'y'" 121 true ""
  | 7%positive => mkSymbol "stmt" 57346 false ""
  | 8%positive => mkSymbol "e" 57347 false ""
  | 9%positive => mkSymbol "$accept" 57348 false ""
  | _ => mkSymbol "" 0 false ""
  end.

Definition Syms : gmap string SymPtr :=
  list_to_map [("$end"%string, p_end); ("error"%string, p_error);
               ("'a'"%string, p_a); ("'b'"%string, p_b);
               ("'x'"%string, p_x); ("'y'"%string, p_y);
               ("stmt"%string, p_stmt); ("e"%string, p_e);
               ("$accept"%string, p_accept)].

Definition Table : list (list Action) :=
  [ [mkAction p_a (rune_s, 2); mkAction p_b (rune_s, 3); mkAction p_stmt (rune_g, 1)];
    [mkAction p_end (rune_a, -1)];
    [mkAction p_error (rune_s, 5); mkAction p_e (rune_g, 4)];
    [mkAction p_error (rune_s, 5); mkAction p_e (rune_g, 6)];
    [mkAction p_x (rune_s, 7)];
    [mkAction p_x (rune_r, 3); mkAction p_y (rune_r, 3)];
    [mkAction p_y (rune_s, 8)];
    [mkAction p_end (rune_r, 1)];
    [mkAction p_end (rune_r, 2)] ].

Definition Rules : list Rule :=
  [mkRule p_accept ["stmt"; "$end"]%string None 0 [];
   mkRule p_stmt ["'a'"; "e"; "'x'"]%string None 0 [];
   mkRule p_stmt ["'b'"; "e"; "'y'"]%string None 0 [];
   mkRule p_e ["error"]%string None 0 [mkPart "yyerrok()" OtherTok "" 0]].

Definition su : list symUsed :=
  su_of heap Go.ToLowerASCII (@Go.insertionSort symUsed)
        (map_to_list (msu_of Syms Table)).

Definition tables : Tables :=
  mkTables (default [] (ParseTab_of heap (xlat_of heap su)
                          (TabOfs_of Syms Table)
                          (tbits_of (TabOfs_of Syms Table) (maxArg_of Syms Table))
                          Table))
           (TabOfs_of Syms Table) (xlat_of heap su)
           (Reductions_of heap (xlat_of heap su) Rules) ∅
           (errSym_of heap su) (endSym_of heap su).

(** The action of rule 3 calls [yyerrok]; the other rules have none. *)
Definition act (r : Z) (stk : list (Z * unit)) (rv : unit) : @effect unit :=
  if r =? 3 then mkEffect rv true [] else plain rv.

(** The same grammar with an action that leaves the error state alone. *)
Definition act_quiet (r : Z) (stk : list (Z * unit)) (rv : unit) : @effect unit :=
  plain rv.

(** ['a' 'y']: the second token fits neither rule. *)
Definition inp : list (Z * (unit → unit)) := [(97, id); (121, id)].

(** The two configurations the parse of [inp] alternates between, with the
    messages reported so far: after the error shift, and after the
    reduction of [e: error]. *)
Definition c_shifted (errs : list string) : @config unit :=
  mkConfig [(0, tt); (2, tt); (5, tt)] 2 3 tt tt [] errs.
Definition c_reduced (errs : list string) : @config unit :=
  mkConfig [(0, tt); (2, tt); (4, tt)] 2 0 tt tt [] errs.

(** States 5, 7 and 8 reduce, into states that do not. *)
Definition rank (s : Z) : nat :=
  if (s =? 5) || (s =? 7) || (s =? 8) then 1%nat else 0%nat.

End Ex4.

(** ** Properties of the generator *)

Section ScanFacts.

Implicit Types (acc : gmap SymPtr Z * Z * Z) (act : Action).

Lemma scan_action_mono acc act :
  (scan_action acc act).1.2 ≤ acc.1.2 ∧ acc.2 ≤ (scan_action acc act).2.
Proof.
  destruct acc as [[m lo] hi]. unfold scan_action.
  destruct (Kind act) as [k a]. destruct (k =? rune_a); simpl; lia.
Qed.

Lemma scan_action_covers acc act :
  acc.1.2 ≤ 0 ≤ acc.2 →
  (scan_action acc act).1.2 ≤ cell_arg act ≤ (scan_action acc act).2.
Proof.
  destruct acc as [[m lo] hi]. unfold scan_action, cell_arg. simpl.
  destruct (Kind act) as [k a].
  destruct (k =? rune_a); simpl; [lia|].
  destruct (k =? rune_r); simpl; lia.
Qed.

Lemma scan_state_mono state : ∀ acc,
  (fold_left scan_action state acc).1.2 ≤ acc.1.2
  ∧ acc.2 ≤ (fold_left scan_action state acc).2.
Proof.
  induction state as [|a state IH]; intros acc; simpl; [lia|].
  specialize (IH (scan_action acc a)).
  pose proof (scan_action_mono acc a). lia.
Qed.

Lemma scan_state_covers state : ∀ acc act,
  acc.1.2 ≤ 0 ≤ acc.2 → act ∈ state →
  (fold_left scan_action state acc).1.2 ≤ cell_arg act
    ≤ (fold_left scan_action state acc).2.
Proof.
  induction state as [|a state IH]; intros acc act Hacc Hin; simpl.
  - by apply elem_of_nil in Hin.
  - pose proof (scan_action_mono acc a) as Hm.
    apply elem_of_cons in Hin as [->|Hin].
    + pose proof (scan_action_covers acc a Hacc).
      pose proof (scan_state_mono state (scan_action acc a)). lia.
    + apply IH; [lia|done].
Qed.

Lemma scan_states_mono Table : ∀ acc,
  let r := fold_left (λ acc state, fold_left scan_action state acc) Table acc in
  r.1.2 ≤ acc.1.2 ∧ acc.2 ≤ r.2.
Proof.
  induction Table as [|st Table IH]; intros acc; simpl; [lia|].
  specialize (IH (fold_left scan_action st acc)). simpl in IH.
  pose proof (scan_state_mono st acc). lia.
Qed.

Lemma scan_states_covers Table : ∀ acc state act,
  acc.1.2 ≤ 0 ≤ acc.2 → state ∈ Table → act ∈ state →
  let r := fold_left (λ acc state, fold_left scan_action state acc) Table acc in
  r.1.2 ≤ cell_arg act ≤ r.2.
Proof.
  induction Table as [|st Table IH]; intros acc state act Hacc Hst Hin; simpl.
  - by apply elem_of_nil in Hst.
  - pose proof (scan_state_mono st acc) as Hm.
    apply elem_of_cons in Hst as [->|Hst].
    + pose proof (scan_state_covers st acc act Hacc Hin).
      pose proof (scan_states_mono Table (fold_left scan_action st acc)) as Hr.
      simpl in Hr. lia.
    + apply (IH _ state); [lia|done..].
Qed.

(** The extremes start at 0 and only move outwards. *)
Lemma minArg_maxArg_sign Syms Table :
  minArg_of Syms Table ≤ 0 ≤ maxArg_of Syms Table.
Proof.
  unfold minArg_of, maxArg_of, scan_table.
  pose proof (scan_states_mono Table (msu_init Syms, 0, 0)) as H.
  simpl in H. lia.
Qed.

Lemma cell_arg_bounds Syms Table state act :
  state ∈ Table → act ∈ state →
  minArg_of Syms Table ≤ cell_arg act ≤ maxArg_of Syms Table.
Proof.
  intros Hst Hin. unfold minArg_of, maxArg_of, scan_table.
  apply (scan_states_covers Table (msu_init Syms, 0, 0) state act);
    [simpl; lia|done..].
Qed.

Lemma TabOfs_of_neg Syms Table : TabOfs_of Syms Table ≤ -1.
Proof. unfold TabOfs_of. pose proof (minArg_maxArg_sign Syms Table). lia. Qed.

(** Every cell of the table is stored as a number between 1 and the span. *)
Lemma encoded_range Syms Table state act :
  state ∈ Table → act ∈ state →
  1 ≤ cell_arg act - TabOfs_of Syms Table
    ≤ maxArg_of Syms Table - TabOfs_of Syms Table.
Proof.
  intros Hst Hin. pose proof (cell_arg_bounds Syms Table state act Hst Hin).
  unfold TabOfs_of. lia.
Qed.

End ScanFacts.

Section Width.

Lemma BitLen_lt (m k : Z) :
  0 < m < 2 ^ 64 → 0 ≤ k → (Go.BitLen m <? k + 1) = (m <? 2 ^ k).
Proof.
  intros Hm Hk. unfold Go.BitLen, Go.uint64.
  rewrite Z.mod_small by lia.
  destruct (Z.eqb_spec m 0) as [->|_]; [lia|].
  destruct (Z.ltb_spec m (2 ^ k)) as [Hlt|Hge].
  - apply Z.ltb_lt. apply Z.log2_lt_pow2 in Hlt; lia.
  - apply Z.ltb_ge. apply Z.log2_le_pow2 in Hge; lia.
Qed.

Lemma tbits_of_cases (lo hi : Z) :
  0 < hi - lo + 1 < 2 ^ 64 →
  tbits_of lo hi =
    if hi - lo <=? 126 then 8 else if hi - lo <=? 32766 then 16 else 32.
Proof.
  intros H. unfold tbits_of.
  rewrite (BitLen_lt _ 7), (BitLen_lt _ 15) by lia.
  change (2 ^ 7) with 128. change (2 ^ 15) with 32768.
  repeat match goal with
         | |- context [?a <? ?b] => destruct (Z.ltb_spec a b)
         | |- context [?a <=? ?b] => destruct (Z.leb_spec a b)
         end; lia.
Qed.

Lemma elem_of_encoded_values lo Table v :
  v ∈ encoded_values lo Table ↔
  ∃ state act, state ∈ Table ∧ act ∈ state ∧ v = cell_arg act - lo.
Proof.
  unfold encoded_values. rewrite list_elem_of_fmap. split.
  - intros (act & -> & Hin).
    apply list_elem_of_In, in_concat in Hin as (state & Hst & Hin).
    exists state, act. by rewrite !list_elem_of_In.
  - intros (state & act & Hst & Hin & ->). exists act. split; [done|].
    apply list_elem_of_In, in_concat. exists state.
    by rewrite <- !list_elem_of_In.
Qed.

End Width.

(** C2 (as amended).  The width is chosen from the bit length of the span
    plus one: 8 bits when the largest encoded value is at most 126, 16 bits
    when it is at most 32766, 32 bits otherwise.  Every encoded value is at
    least 1 and at most the span, so a width of 8 or 16 bits holds every
    encoded value with one bit to spare. *)
Theorem tbits_of_conservative (Syms : gmap string SymPtr) (Table : list (list Action)) :
  let lo := TabOfs_of Syms Table in
  let span := maxArg_of Syms Table - lo in
  span + 1 < 2 ^ 64 →
  (tbits_of lo (maxArg_of Syms Table) = 8 ↔ span ≤ 126)
  ∧ (tbits_of lo (maxArg_of Syms Table) = 16 ↔ 127 ≤ span ≤ 32766)
  ∧ (tbits_of lo (maxArg_of Syms Table) = 32 ↔ 32767 ≤ span)
  ∧ (∀ v, v ∈ encoded_values lo Table →
       1 ≤ v ≤ span
       ∧ (tbits_of lo (maxArg_of Syms Table) ≠ 32 →
          v < 2 ^ (tbits_of lo (maxArg_of Syms Table) - 1))).
Proof.
  intros lo span Hspan.
  pose proof (minArg_maxArg_sign Syms Table) as Hsign.
  assert (Hpos : 0 < maxArg_of Syms Table - lo + 1 < 2 ^ 64).
  { subst span lo. unfold TabOfs_of in *. lia. }
  rewrite (tbits_of_cases _ _ Hpos). fold span.
  destruct (Z.leb_spec span 126) as [H8|H8];
    [|destruct (Z.leb_spec span 32766) as [H16|H16]].
  - repeat split; try lia.
    + apply elem_of_encoded_values in H as (st & a & Hst & Ha & ->).
      pose proof (encoded_range Syms Table st a Hst Ha). fold lo in H. lia.
    + apply elem_of_encoded_values in H as (st & a & Hst & Ha & ->).
      pose proof (encoded_range Syms Table st a Hst Ha). fold lo span in H. lia.
    + intros _. apply elem_of_encoded_values in H as (st & a & Hst & Ha & ->).
      pose proof (encoded_range Syms Table st a Hst Ha). fold lo span in H.
      change (2 ^ (8 - 1)) with 128. lia.
  - repeat split; try lia.
    + apply elem_of_encoded_values in H as (st & a & Hst & Ha & ->).
      pose proof (encoded_range Syms Table st a Hst Ha). fold lo in H. lia.
    + apply elem_of_encoded_values in H as (st & a & Hst & Ha & ->).
      pose proof (encoded_range Syms Table st a Hst Ha). fold lo span in H. lia.
    + intros _. apply elem_of_encoded_values in H as (st & a & Hst & Ha & ->).
      pose proof (encoded_range Syms Table st a Hst Ha). fold lo span in H.
      change (2 ^ (16 - 1)) with 32768. lia.
  - repeat split; try lia.
    + apply elem_of_encoded_values in H as (st & a & Hst & Ha & ->).
      pose proof (encoded_range Syms Table st a Hst Ha). fold lo in H. lia.
    + apply elem_of_encoded_values in H as (st & a & Hst & Ha & ->).
      pose proof (encoded_range Syms Table st a Hst Ha). fold lo span in H. lia.
Qed.

Lemma tbits_of_conservative_witness :
  maxArg_of Ex.Syms Ex.Table - TabOfs_of Ex.Syms Ex.Table + 1 < 2 ^ 64
  ∧ (tbits_of (TabOfs_of Ex.Syms Ex.Table) (maxArg_of Ex.Syms Ex.Table) = 8
     ↔ maxArg_of Ex.Syms Ex.Table - TabOfs_of Ex.Syms Ex.Table ≤ 126).
Proof.
  assert (H : maxArg_of Ex.Syms Ex.Table - TabOfs_of Ex.Syms Ex.Table + 1 < 2 ^ 64)
    by (vm_compute; reflexivity).
  split; [exact H|].
  exact (proj1 (tbits_of_conservative Ex.Syms Ex.Table H)).
Defined.

(** C2 fails as stated: with a single shift to state 199 the only encoded
    value is 200, which fits in 8 bits, and the width chosen is 16. *)
Lemma tbits_of_not_minimal :
  (∀ v, v ∈ encoded_values (TabOfs_of ∅ Ex.Table_200) Ex.Table_200 → 0 ≤ v < 2 ^ 8)
  ∧ tbits_of (TabOfs_of ∅ Ex.Table_200) (maxArg_of ∅ Ex.Table_200) = 16.
Proof.
  split; [|vm_compute; reflexivity].
  intros v Hv.
  assert (E : encoded_values (TabOfs_of ∅ Ex.Table_200) Ex.Table_200 = [200])
    by (vm_compute; reflexivity).
  rewrite E in Hv. apply list_elem_of_singleton in Hv as ->. lia.
Qed.

Section Catalog.

Variable heap : SymPtr → Symbol.

Lemma Reductions_of_lookup (xlat : gmap Z Z) (Rules : list Rule) (r : nat) (rule : Rule) :
  Rules !! r = Some rule →
  Reductions_of heap xlat Rules !! Z.of_nat r
  = Some (Go.map_get 0 xlat (Value (heap (RSym rule))), Go.len (Components rule)).
Proof.
  intros Hr. unfold Reductions_of.
  apply elem_of_list_to_map_1.
  - rewrite fmap_imap.
    rewrite (imap_ext _ (λ j _, Z.of_nat j)) by done.
    rewrite imap_seq_0. apply NoDup_fmap_2; [apply _|apply NoDup_seq].
  - by apply (elem_of_lookup_imap_2
                (λ r rule, (Z.of_nat r, (Go.map_get 0 xlat (Value (heap (RSym rule))),
                                         Go.len (Components rule))))).
Qed.

Lemma reduce_step_pops {V} (act : Z → list (Z * V) → V → @effect V) (t : Tables)
      (c c' : @config V) (arg : Z) k :
  reduce_step act t c arg = Next k c' →
  Go.len (stack c') = Go.len (stack c) - (Go.map_get (0, 0) (Reductions t) (- arg)).2 + 1.
Proof.
  unfold reduce_step.
  destruct (Go.map_get (0, 0) (Reductions t) (- arg)) as [x n]. simpl.
  destruct (goto_state t (stack c) (Go.len (stack c) - 1) n x) as [s|] eqn:Hg; [|done].
  intros [= _ <-]. simpl.
  unfold goto_state, Go.index in Hg.
  destruct (Z.ltb_spec (Go.len (stack c) - 1 - n) 0); [done|].
  destruct (stack c !! Z.to_nat (Go.len (stack c) - 1 - n)) eqn:Hl; [|done].
  apply lookup_lt_Some in Hl. unfold Go.len in *.
  rewrite length_app, length_take_le; simpl; lia.
Qed.

End Catalog.

(** C5 (as amended).  For every rule, ordinary or synthesized, the catalog
    records the translated result symbol and the rule's own component
    count, and a reduction by that rule leaves the stack that many frames
    shorter before the result frame is pushed. *)
Theorem Reductions_of_pop_count
  (heap : SymPtr → Symbol) (xlat : gmap Z Z) (Rules : list Rule) (r : nat) (rule : Rule) :
  Rules !! r = Some rule →
  Reductions_of heap xlat Rules !! Z.of_nat r
  = Some (Go.map_get 0 xlat (Value (heap (RSym rule))), Go.len (Components rule))
  ∧ ∀ {V} (act : Z → list (Z * V) → V → @effect V) (t : Tables) (c c' : @config V) k,
      Reductions t = Reductions_of heap xlat Rules →
      reduce_step act t c (- Z.of_nat r) = Next k c' →
      Go.len (stack c') = Go.len (stack c) - Go.len (Components rule) + 1.
Proof.
  intros Hr. pose proof (Reductions_of_lookup heap xlat Rules r rule Hr) as Hl.
  split; [exact Hl|].
  intros V act t c c' k Ht Hstep.
  apply reduce_step_pops in Hstep.
  rewrite Hstep, Ht, Z.opp_involutive. unfold Go.map_get. by rewrite Hl.
Qed.

Lemma Reductions_of_pop_count_witness :
  [Ex.parent_rule; Ex.synth_rule] !! 1%nat = Some Ex.synth_rule
  ∧ Reductions_of Ex.heap Ex.xlat [Ex.parent_rule; Ex.synth_rule] !! 1
    = Some (Go.map_get 0 Ex.xlat (Value (Ex.heap (RSym Ex.synth_rule))),
            Go.len (Components Ex.synth_rule)).
Proof.
  split; [reflexivity|].
  exact (proj1 (Reductions_of_pop_count Ex.heap Ex.xlat
                  [Ex.parent_rule; Ex.synth_rule] 1 Ex.synth_rule eq_refl)).
Defined.

(** C5 fails as stated: the rule synthesized for a mid-rule action has a
    parent whose positional bound is 1, and the catalog records 0, the
    number of its own components. *)
Lemma Reductions_of_ignores_parent :
  is_Some (Parent Ex.synth_rule)
  ∧ snd <$> Reductions_of Ex.heap Ex.xlat [Ex.parent_rule; Ex.synth_rule] !! 1 = Some 0
  ∧ MaxParentDlr Ex.synth_rule = 1.
Proof. split; [by eexists|]. split; vm_compute; reflexivity. Qed.

(** C6: the code at the failing input.  The untagged positional form is
    stitched to the depth [max - num]; the tagged one to the depth [num],
    whatever [max] is.  In a rule of three components the untagged [$1] is
    stitched to depth 3 - 1 = 2 and the tagged [$<num>1] to depth 1. *)
Theorem stitch_part_tagged_depth :
  (∀ heap Syms typ max components part s,
     PTok part = DLR_NUM →
     stitch_part heap Syms typ max components part = Some s →
     ∃ ty, s = Src part +:+ "stack[sp-" +:+ Go.fmt_d (max - Num part) +:+ "]." +:+ ty)
  ∧ (∀ heap Syms typ max components part,
       PTok part = DLR_TAG_NUM →
       stitch_part heap Syms typ max components part
       = Some (Src part +:+ "stack[sp-" +:+ Go.fmt_d (Num part) +:+ "]." +:+ Tag part))
  ∧ stitch_max Ex.tagged_rule = 3
  ∧ stitch_part Ex.heap Ex.Syms "num" 3 (Components Ex.tagged_rule)
                (mkPart " = " DLR_NUM "" 1) = Some " = stack[sp-2].num"%string
  ∧ stitch_part Ex.heap Ex.Syms "num" 3 (Components Ex.tagged_rule)
                (mkPart " = " DLR_TAG_NUM "num" 1) = Some " = stack[sp-1].num"%string
  ∧ stitch_rule Ex.heap Ex.Syms 3 Ex.tagged_rule
    = Some ("case 3: rval.num = stack[sp-1].num" +:+ Go.nl).
Proof.
  split; [|split].
  - intros heap Syms typ max components part s Htok. unfold stitch_part.
    rewrite Htok. destruct (Go.index components (Num part - 1)) as [nm|]; [|done].
    simpl. destruct (Syms !! nm) as [p|]; [|done]. simpl.
    intros [= <-]. by eexists.
  - intros heap Syms typ max components part Htok. unfold stitch_part.
    by rewrite Htok.
  - repeat split; vm_compute; reflexivity.
Qed.

(** ** Properties of the emitted parser *)

Section ErrorMessages.

Context {V : Type}.
Variable V0 : V.
Variable t : Tables.

Lemma unwind_phase_sink (c : @config V) (state : Z) :
  sink (unwind_phase V0 t c state) = errors c.
Proof.
  unfold unwind_phase.
  destruct (unwind t (length (stack c) - 1) (stack c) state (lval c)) as [[stk|]|];
    done.
Qed.

(** The error branch passes one message to [Error] in error state 0 and
    none otherwise, however the branch ends. *)
Lemma error_step_sink (c : @config V) (state : Z) :
  sink (error_step V0 t c state)
  = if errState c =? 0
    then errors c ++ [xerror_msg t state (lookahead c)]
    else errors c.
Proof.
  unfold error_step. destruct (errState c =? 0).
  - by rewrite unwind_phase_sink.
  - destruct ((errState c =? 1) || (errState c =? 2)).
    + apply unwind_phase_sink.
    + destruct (errState c =? 3); [|done].
      destruct (lookahead c =? yyEOF t); done.
Qed.

Lemma lexed_same (c : @config V) :
  errState (if lookahead c <? 0 then yylex1 t c else c) = errState c
  ∧ errors (if lookahead c <? 0 then yylex1 t c else c) = errors c.
Proof.
  destruct (lookahead c <? 0); [|done].
  unfold yylex1. by destruct (input c) as [|[n f] rest].
Qed.

End ErrorMessages.

Section ErrorExamples.

Variable heap : SymPtr → Symbol.

Lemma map_literal_snoc `{Countable K} {A} (entries : list (K * A)) (k : K) (v : A) :
  map_literal (entries ++ [(k, v)]) = <[k := v]> (map_literal entries).
Proof. unfold map_literal. by rewrite fold_left_app. Qed.

(** An entry of the literal is in the map unless a later entry has its
    key. *)
Lemma map_literal_lookup `{Countable K} {A} (entries : list (K * A)) :
  ∀ (i : nat) k v,
    entries !! i = Some (k, v) →
    (∀ (j : nat) kv, (i < j)%nat → entries !! j = Some kv → kv.1 ≠ k) →
    map_literal entries !! k = Some v.
Proof.
  induction entries as [|[k' v'] entries IH] using rev_ind; intros i k v Hi Hlast.
  - done.
  - rewrite map_literal_snoc.
    destruct (decide (i = length entries)) as [->|Hne].
    + rewrite lookup_app_r, Nat.sub_diag in Hi by lia. injection Hi as -> ->.
      apply lookup_insert_eq.
    + assert (Hlt : (i < length entries)%nat).
      { apply lookup_lt_Some in Hi. rewrite length_app in Hi. simpl in Hi. lia. }
      rewrite lookup_app_l in Hi by done.
      rewrite lookup_insert_ne.
      * apply (IH i); [done|]. intros j kv Hj Hkv. apply (Hlast j); [done|].
        rewrite lookup_app_l; [done|]. by apply lookup_lt_Some in Hkv.
      * apply (Hlast (length entries) (k', v')); [done|].
        by rewrite lookup_app_r, Nat.sub_diag by lia.
Qed.

(** Of the examples of the grammar processor that have one state and one
    translated lookahead, the last is the entry of the generated table. *)
Lemma XErrors_of_lookup (xlat : gmap Z Z) (xerrs : list XError)
      (m : gmap (Z * Z) string) (i : nat) (xerr : XError) (key : Z * Z) (msg : string) :
  XErrors_of heap xlat xerrs = Some m →
  xerrs !! i = Some xerr →
  xerror_entry heap xlat xerr = Some (key, msg) →
  (∀ (j : nat) x' e', (i < j)%nat → xerrs !! j = Some x' →
                      xerror_entry heap xlat x' = Some e' → e'.1 ≠ key) →
  m !! key = Some msg.
Proof.
  unfold XErrors_of. intros Hm Hi Hx Hlast.
  destruct (mapM (xerror_entry heap xlat) xerrs) as [entries|] eqn:He; [|done].
  simpl in Hm. injection Hm as <-. apply mapM_Some_1 in He.
  destruct (Forall2_lookup_l _ _ _ _ _ He Hi) as (entry & Hentry & Hx').
  rewrite Hx in Hx'. injection Hx' as <-.
  apply (map_literal_lookup entries i); [done|].
  intros j kv Hj Hkv.
  destruct (Forall2_lookup_r _ _ _ _ _ He Hkv) as (x' & Hx' & He').
  by apply (Hlast j x' kv).
Qed.

End ErrorExamples.

(** C7.  Take a pass that finds the cell of its state and translated
    lookahead empty, in a state other than the accepting one: a syntax
    error.  On the first error of an episode, error state 0, the pass hands
    one message to the error sink, before the stack is unwound and
    therefore also when the unwinding faults: the exact entry [(state, la)]
    of the error-example table when there is one, else the wildcard entry
    [(state, -1)] when there is one, else ["syntax error"].  In any other
    error state the pass reports nothing.  The choice is made while
    parsing, in the table as generated: an example of the grammar
    processor is in it under the state on top of its stack and its
    translated lookahead, or -1 when it has none, unless a later example
    has the same state and lookahead. *)
Theorem xerror_msg_priority
  {V : Type} (V0 : V) (act : Z → list (Z * V) → V → @effect V) (t : Tables)
  (c : @config V) (top : Z * V) (la : Z) :
  Go.index (stack c) (Go.len (stack c) - 1) = Some top →
  lookahead (if lookahead c <? 0 then yylex1 t c else c) = la →
  action_cell t (yys top) la = Some 0 →
  yys top ≠ 1 →
  (errState c = 0 →
   (∀ msg, XErrors t !! (yys top, la) = Some msg →
           sink (step V0 act t c) = errors c ++ [msg])
   ∧ (∀ msg, XErrors t !! (yys top, la) = None →
             XErrors t !! (yys top, -1) = Some msg →
             sink (step V0 act t c) = errors c ++ [msg])
   ∧ (XErrors t !! (yys top, la) = None →
      XErrors t !! (yys top, -1) = None →
      sink (step V0 act t c) = errors c ++ ["syntax error"%string]))
  ∧ (errState c ≠ 0 → sink (step V0 act t c) = errors c)
  ∧ (∀ heap xlat xerrs (i : nat) xerr state xsym msg,
       XErrors_of heap xlat xerrs = Some (XErrors t) →
       xerrs !! i = Some xerr →
       xerror_entry heap xlat xerr = Some (state, xsym, msg) →
       (∀ (j : nat) x' e', (i < j)%nat → xerrs !! j = Some x' →
                           xerror_entry heap xlat x' = Some e' →
                           e'.1 ≠ (state, xsym)) →
       XErrors t !! (state, xsym) = Some (Msg xerr)
       ∧ last (Stack xerr) = Some state
       ∧ xsym = match Lookahead xerr with
                | Some s => Go.map_get 0 xlat (Value (heap s))
                | None => -1
                end).
Proof.
  intros Htop Hla Hcell Hacc.
  assert (Hstep : sink (step V0 act t c)
                  = if errState c =? 0
                    then errors c ++ [xerror_msg t (yys top) la]
                    else errors c).
  { unfold step. rewrite Htop. cbv zeta. rewrite Hla, Hcell.
    change (0 >? 0) with false. change (0 <? 0) with false. cbv iota.
    destruct (Z.eqb_spec (yys top) 1) as [|_]; [done|].
    rewrite error_step_sink, Hla.
    by destruct (lexed_same t c) as [-> ->]. }
  split; [|split].
  - intros H0. rewrite Hstep, H0. simpl. unfold xerror_msg. split; [|split].
    + by intros msg ->.
    + by intros msg -> ->.
    + by intros -> ->.
  - intros Hne. rewrite Hstep. by destruct (Z.eqb_spec (errState c) 0).
  - intros heap xlat xerrs i xerr state xsym msg Hgen Hi Hentry Hlast.
    pose proof (XErrors_of_lookup heap xlat xerrs _ i xerr (state, xsym) msg
                  Hgen Hi Hentry Hlast) as Hm.
    unfold xerror_entry in Hentry.
    destruct (Go.index (Stack xerr) (Go.len (Stack xerr) - 1)) as [s|] eqn:Hs; [|done].
    simpl in Hentry. injection Hentry as -> <- <-. split; [done|]. split; [|done].
    rewrite last_lookup. unfold Go.index, Go.len in Hs.
    destruct (Z.of_nat (length (Stack xerr)) - 1 <? 0) eqn:Hneg; [done|].
    apply Z.ltb_ge in Hneg. rewrite <- Hs. f_equal. lia.
Qed.

Lemma xerror_msg_priority_witness :
  sink (step 0 Ex.act Ex.tables (init 0 [Ex.tok_plus]))
  = errors (init 0 [Ex.tok_plus]) ++ ["expected NUM"%string].
Proof.
  apply (xerror_msg_priority 0 Ex.act Ex.tables (init 0 [Ex.tok_plus]) (0, 0) 1).
  - vm_compute. reflexivity.
  - vm_compute. reflexivity.
  - vm_compute. reflexivity.
  - simpl. lia.
  - vm_compute. reflexivity.
  - vm_compute. reflexivity.
  - vm_compute. reflexivity.
Defined.

Section Lexer.

Variable heap : SymPtr → Symbol.

Lemma xlat_loop_snoc (su : list symUsed) (v : symUsed) :
  xlat_loop heap (su ++ [v]) = xlat_step heap (xlat_loop heap su) (length su, v).
Proof.
  unfold xlat_loop. rewrite imap_app, fold_left_app. simpl.
  by rewrite Nat.add_0_r.
Qed.

(** When [$end] is the symbol of value -1, the entry of -1 in the
    translation table is the index recorded as [endSym]. *)
Lemma xlat_of_end (su : list symUsed) :
  Forall (λ v, Name (heap (sym v)) = "$end"%string ↔ Value (heap (sym v)) = -1) su →
  Exists (λ v, Name (heap (sym v)) = "$end"%string) su →
  xlat_of heap su !! (-1) = Some (endSym_of heap su).
Proof.
  intros Hall Hex.
  assert (Hinv : (Forall (λ v, Name (heap (sym v)) ≠ "$end"%string) su
                  ∧ xlat_of heap su !! (-1) = None)
                 ∨ xlat_of heap su !! (-1) = Some (endSym_of heap su)).
  { clear Hex. induction su as [|v su IH] using rev_ind.
    - left. split; [constructor|done].
    - apply Forall_app in Hall as [Hall Hv]. apply Forall_inv in Hv.
      specialize (IH Hall).
      unfold xlat_of, endSym_of in *. rewrite xlat_loop_snoc.
      destruct (xlat_loop heap su) as [[xl es] er]. simpl in *.
      destruct (String.eqb_spec (Name (heap (sym v))) "$end") as [Hn|Hn].
      + right. apply Hv in Hn. rewrite Hn. apply lookup_insert_eq.
      + assert (Value (heap (sym v)) ≠ -1) as Hval by (intros ?; apply Hn, Hv; done).
        rewrite lookup_insert_ne by done.
        destruct IH as [[Hno Hnone]|Hsome]; [left|right; done].
        split; [|done]. apply Forall_app. split; [done|]. by apply Forall_singleton. }
  destruct Hinv as [[Hno _]|H]; [|done].
  apply Exists_exists in Hex as (v & Hin & Hv).
  rewrite Forall_forall in Hno. by destruct (Hno v Hin).
Qed.

End Lexer.

(** C8 (as amended).  A token id that is not positive is replaced by -1
    before it is translated, so every such id is translated to the entry of
    -1, which is the id of the end marker when [$end] is the symbol of
    original value -1.  A positive id is looked up as it is: one without an
    entry in the table is translated to 0, the zero value of the map. *)
Theorem xlat_token_normalizes
  (heap : SymPtr → Symbol) (t : Tables) (su : list symUsed) (n : Z) :
  XLAT t = xlat_of heap su →
  yyEOF t = endSym_of heap su →
  Forall (λ v, Name (heap (sym v)) = "$end"%string ↔ Value (heap (sym v)) = -1) su →
  Exists (λ v, Name (heap (sym v)) = "$end"%string) su →
  (n ≤ 0 → xlat_token t n = yyEOF t)
  ∧ (0 < n → xlat_token t n = Go.map_get 0 (XLAT t) n)
  ∧ (0 < n → XLAT t !! n = None → xlat_token t n = 0).
Proof.
  intros Hx He Hall Hex. unfold xlat_token, Go.map_get. repeat split.
  - intros Hn. destruct (Z.leb_spec n 0); [|lia].
    by rewrite Hx, (xlat_of_end heap su Hall Hex), He.
  - intros Hn. by destruct (Z.leb_spec n 0); [lia|].
  - intros Hn Hnone. destruct (Z.leb_spec n 0); [lia|]. by rewrite Hnone.
Qed.

Lemma xlat_token_normalizes_witness :
  xlat_token Ex.tables_plus_first 0 = yyEOF Ex.tables_plus_first
  ∧ xlat_token Ex.tables_plus_first (-7) = yyEOF Ex.tables_plus_first.
Proof.
  assert (Hall : Forall (λ v, Name (Ex.heap (sym v)) = "$end"%string
                              ↔ Value (Ex.heap (sym v)) = -1) Ex.su_plus_first).
  { repeat constructor; simpl; intros; discriminate. }
  assert (Hex : Exists (λ v, Name (Ex.heap (sym v)) = "$end"%string) Ex.su_plus_first).
  { right. left. reflexivity. }
  split.
  - apply (xlat_token_normalizes Ex.heap Ex.tables_plus_first Ex.su_plus_first 0
             eq_refl eq_refl Hall Hex). lia.
  - apply (xlat_token_normalizes Ex.heap Ex.tables_plus_first Ex.su_plus_first (-7)
             eq_refl eq_refl Hall Hex). lia.
Defined.

(** C8 fails as stated: 999 has no entry in the translation table, and it
    is translated to 0, the id of ['+'], while the end marker has id 1. *)
Lemma xlat_token_unknown_not_eof :
  XLAT Ex.tables_plus_first !! 999 = None
  ∧ xlat_token Ex.tables_plus_first 999 = 0
  ∧ yyEOF Ex.tables_plus_first = 1.
Proof. repeat split; vm_compute; reflexivity. Qed.



(** ** Properties of the symbol translator *)

Section SortFacts.

Context {A : Type}.
Variable less : A → A → bool.

Lemma bubble_perm (x : A) (rp : list A) : Go.bubble less x rp ≡ₚ x :: rp.
Proof.
  induction rp as [|y rp IH]; simpl; [done|].
  destruct (less x y); [|done].
  rewrite IH. apply perm_swap.
Qed.

Lemma insertion_loop_perm (data : list A) : ∀ acc,
  fold_left (λ rp x, Go.bubble less x rp) data acc ≡ₚ data ++ acc.
Proof.
  induction data as [|x data IH]; intros acc; simpl; [done|].
  rewrite IH, bubble_perm. by rewrite Permutation_middle.
Qed.

Lemma insertionSort_perm (data : list A) : Go.insertionSort less data ≡ₚ data.
Proof.
  unfold Go.insertionSort.
  rewrite <- Permutation_rev, insertion_loop_perm. by rewrite app_nil_r.
Qed.

End SortFacts.

Lemma String_ltb_irrefl (s : string) : String.ltb s s = false.
Proof.
  assert (H : String.compare s s = Eq).
  { induction s as [|a s IH]; [done|].
    cbn [String.compare]. unfold Ascii.compare. rewrite N.compare_refl. exact IH. }
  unfold String.ltb. by rewrite H.
Qed.

(** C4: the code at the failing input.  Two symbols used equally often
    whose names agree once lowered are not ordered by [Less], either way.
    The literals ['a'] and ['A'] are each used once; both visiting orders
    are orders of the usage map, and the id of ['a'] is 0 after one and 1
    after the other. *)
Theorem Less_ties_on_case :
  (∀ heap ToLower a b,
     used a = used b →
     ToLower (Name (heap (sym a))) = ToLower (Name (heap (sym b))) →
     Less heap ToLower a b = false ∧ Less heap ToLower b a = false)
  ∧ Less Ex.heap Go.ToLowerASCII (mkSymUsed Ex.p_a 1) (mkSymUsed Ex.p_A 1) = false
  ∧ Less Ex.heap Go.ToLowerASCII (mkSymUsed Ex.p_A 1) (mkSymUsed Ex.p_a 1) = false
  ∧ [(Ex.p_a, 1); (Ex.p_A, 1)] ≡ₚ map_to_list (msu_of Ex.Syms_aA Ex.Table_aA)
  ∧ [(Ex.p_A, 1); (Ex.p_a, 1)] ≡ₚ map_to_list (msu_of Ex.Syms_aA Ex.Table_aA)
  ∧ xlat_of Ex.heap (su_of Ex.heap Go.ToLowerASCII (@Go.insertionSort symUsed)
                           [(Ex.p_a, 1); (Ex.p_A, 1)]) !! 97 = Some 0
  ∧ xlat_of Ex.heap (su_of Ex.heap Go.ToLowerASCII (@Go.insertionSort symUsed)
                           [(Ex.p_A, 1); (Ex.p_a, 1)]) !! 97 = Some 1.
Proof.
  assert (E : map_to_list (msu_of Ex.Syms_aA Ex.Table_aA) = [(Ex.p_a, 1); (Ex.p_A, 1)])
    by (vm_compute; reflexivity).
  rewrite E. split.
  { intros heap ToLower a b Hu Hn. unfold Less.
    rewrite Hu, Hn, Z.ltb_irrefl, String_ltb_irrefl. by split. }
  split; [vm_compute; reflexivity|].
  split; [vm_compute; reflexivity|].
  split; [reflexivity|].
  split; [apply perm_swap|].
  split; vm_compute; reflexivity.
Qed.

Section UsageMap.

Lemma elem_of_nonreserved_syms (Syms : gmap string SymPtr) (s : SymPtr) :
  s ∈ nonreserved_syms Syms ↔ ∃ nm, Syms !! nm = Some s ∧ reserved nm = false.
Proof.
  unfold nonreserved_syms. rewrite elem_of_map_to_set. split.
  - intros (nm & s' & Hl & <-). apply map_lookup_filter_Some in Hl as [Hl Hr].
    eauto.
  - intros (nm & Hl & Hr). exists nm, s. split; [|done].
    by apply map_lookup_filter_Some.
Qed.

Lemma msu_init_lookup (Syms : gmap string SymPtr) (s : SymPtr) :
  is_Some (msu_init Syms !! s) ↔ ∃ nm, Syms !! nm = Some s ∧ reserved nm = false.
Proof.
  unfold msu_init.
  apply (map_fold_weak_ind
           (λ (r : gmap SymPtr Z) (m : gmap string SymPtr),
              is_Some (r !! s) ↔ ∃ nm, m !! nm = Some s ∧ reserved nm = false)).
  - rewrite lookup_empty. split; [by intros [? ?]|].
    intros (nm & Hl & _). by rewrite lookup_empty in Hl.
  - intros nm s' m r Hnone IH.
    destruct (reserved nm) eqn:Hres.
    + rewrite IH. split; intros (nm' & Hl & Hr); exists nm'.
      * rewrite lookup_insert_ne; [done|]. intros ->. congruence.
      * destruct (decide (nm = nm')) as [->|Hne]; [congruence|].
        by rewrite lookup_insert_ne in Hl.
    + destruct (decide (s' = s)) as [->|Hne].
      * rewrite lookup_insert_eq. split; [|by eauto].
        intros _. exists nm. by rewrite lookup_insert_eq.
      * rewrite lookup_insert_ne by done. rewrite IH.
        split; intros (nm' & Hl & Hr); exists nm'.
        -- rewrite lookup_insert_ne; [done|]. intros ->. congruence.
        -- destruct (decide (nm = nm')) as [->|Hne'].
           ++ rewrite lookup_insert_eq in Hl. congruence.
           ++ by rewrite lookup_insert_ne in Hl.
Qed.

Lemma msu_init_dom (Syms : gmap string SymPtr) :
  dom (msu_init Syms) = nonreserved_syms Syms.
Proof.
  apply set_eq. intros s.
  by rewrite elem_of_dom, msu_init_lookup, elem_of_nonreserved_syms.
Qed.

Lemma scan_action_dom (acc : gmap SymPtr Z * Z * Z) (act : Action) :
  dom (scan_action acc act).1.1 = {[Sym act]} ∪ dom acc.1.1.
Proof.
  destruct acc as [[m lo] hi]. unfold scan_action.
  destruct (Kind act) as [k a]. destruct (k =? rune_a); simpl; apply dom_insert_L.
Qed.

Lemma scan_state_dom (state : list Action) : ∀ acc,
  Forall (λ act, Sym act ∈ dom acc.1.1) state →
  dom (fold_left scan_action state acc).1.1 = dom acc.1.1.
Proof.
  induction state as [|a state IH]; intros acc Hall; simpl; [done|].
  apply Forall_cons in Hall as [Ha Hall].
  assert (E : dom (scan_action acc a).1.1 = dom acc.1.1).
  { rewrite scan_action_dom. apply subseteq_union_1_L.
    by apply singleton_subseteq_l. }
  rewrite IH; [done|]. by rewrite E.
Qed.

Lemma scan_states_dom (Table : list (list Action)) : ∀ acc,
  Forall (Forall (λ act, Sym act ∈ dom acc.1.1)) Table →
  dom (fold_left (λ acc state, fold_left scan_action state acc) Table acc).1.1
  = dom acc.1.1.
Proof.
  induction Table as [|st Table IH]; intros acc Hall; simpl; [done|].
  apply Forall_cons in Hall as [Hst Hall].
  pose proof (scan_state_dom st acc Hst) as E.
  rewrite IH; [done|]. by rewrite E.
Qed.

(** When the table names registered symbols only, the usage map holds
    exactly the symbols registered under a non reserved name. *)
Lemma msu_of_dom (Syms : gmap string SymPtr) (Table : list (list Action)) :
  Forall (Forall (λ act, Sym act ∈ nonreserved_syms Syms)) Table →
  dom (msu_of Syms Table) = nonreserved_syms Syms.
Proof.
  intros Hall. unfold msu_of, scan_table.
  rewrite scan_states_dom; simpl; rewrite msu_init_dom; done.
Qed.

End UsageMap.

Section Translation.

Variable heap : SymPtr → Symbol.

(** When no two entries of [su] share a value, the translation table sends
    the value of the symbol at index [i] to [i]. *)
Lemma xlat_of_lookup (su : list symUsed) :
  NoDup ((λ v, Value (heap (sym v))) <$> su) →
  ∀ (i : nat) (v : symUsed),
    su !! i = Some v → xlat_of heap su !! Value (heap (sym v)) = Some (Z.of_nat i).
Proof.
  induction su as [|w su IH] using rev_ind; intros Hnd i v Hi.
  - by rewrite lookup_nil in Hi.
  - rewrite fmap_app in Hnd. apply NoDup_app in Hnd as (Hnd & Hdisj & _).
    unfold xlat_of in *. rewrite xlat_loop_snoc.
    destruct (xlat_loop heap su) as [[xl es] er] eqn:E. simpl in *.
    destruct (decide (i < length su)%nat) as [Hlt|Hge].
    + rewrite lookup_app_l in Hi by done.
      rewrite lookup_insert_ne; [by apply IH|].
      intros Heq. apply (Hdisj (Value (heap (sym v)))).
      * apply list_elem_of_fmap. exists v. split; [done|].
        by apply list_elem_of_lookup_2 in Hi.
      * rewrite <- Heq. apply list_elem_of_here.
    + apply lookup_lt_Some in Hi as Hlen. rewrite length_app in Hlen. simpl in Hlen.
      assert (i = length su) as -> by lia.
      rewrite list_lookup_middle in Hi by done. injection Hi as ->.
      apply lookup_insert_eq.
Qed.

Lemma map_to_list_keys (m : gmap SymPtr Z) :
  (map_to_list m).*1 ≡ₚ elements (dom m).
Proof.
  apply NoDup_Permutation.
  - apply NoDup_fst_map_to_list.
  - apply NoDup_elements.
  - intros s. rewrite elem_of_elements, elem_of_dom, list_elem_of_fmap. split.
    + intros ([s' u] & -> & Hin). apply elem_of_map_to_list in Hin. by eexists.
    + intros [u Hu]. exists (s, u). split; [done|]. by apply elem_of_map_to_list.
Qed.

End Translation.

(** C3.  Let the table name registered symbols only and let the registered
    symbols have pairwise different values.  Whatever order the usage map
    is visited in and whatever [sort.Sort] does with ties, the symbols
    registered under a name other than [""], ["ε"], ["$accept"] and ["#"]
    are numbered one to one by the indexes [0 .. N-1] of the sorted slice,
    [N] being their number: each has exactly one index, the translation
    table maps its value to that index, no two of them share an index, and
    every index below [N] is taken. *)
Theorem translation_bijective
  (heap : SymPtr → Symbol) (ToLower : string → string)
  (Sort : (symUsed → symUsed → bool) → list symUsed → list symUsed)
  (Syms : gmap string SymPtr) (Table : list (list Action))
  (order : list (SymPtr * Z)) :
  (∀ less l, Sort less l ≡ₚ l) →
  order ≡ₚ map_to_list (msu_of Syms Table) →
  Forall (Forall (λ act, Sym act ∈ nonreserved_syms Syms)) Table →
  NoDup ((λ s, Value (heap s)) <$> elements (nonreserved_syms Syms)) →
  length (su_of heap ToLower Sort order) = size (nonreserved_syms Syms)
  ∧ (∀ s, s ∈ nonreserved_syms Syms →
       ∃ i : nat,
         (i < size (nonreserved_syms Syms))%nat
         ∧ sym <$> su_of heap ToLower Sort order !! i = Some s
         ∧ xlat_of heap (su_of heap ToLower Sort order) !! Value (heap s)
           = Some (Z.of_nat i)
         ∧ ∀ j : nat, sym <$> su_of heap ToLower Sort order !! j = Some s → j = i)
  ∧ (∀ s1 s2, s1 ∈ nonreserved_syms Syms → s2 ∈ nonreserved_syms Syms →
       xlat_of heap (su_of heap ToLower Sort order) !! Value (heap s1)
       = xlat_of heap (su_of heap ToLower Sort order) !! Value (heap s2) →
       s1 = s2)
  ∧ (∀ i : nat, (i < size (nonreserved_syms Syms))%nat →
       ∃ s, s ∈ nonreserved_syms Syms
            ∧ sym <$> su_of heap ToLower Sort order !! i = Some s).
Proof.
  intros Hsort Horder Htab Hval.
  set (su := su_of heap ToLower Sort order).
  set (NR := nonreserved_syms Syms).
  assert (Hperm : sym <$> su ≡ₚ elements NR).
  { subst su. unfold su_of. rewrite Hsort.
    assert (E : sym <$> ((λ p : SymPtr * Z, mkSymUsed p.1 p.2) <$> order) = order.*1)
      by (rewrite <- list_fmap_compose; reflexivity).
    rewrite E, Horder, map_to_list_keys. by rewrite msu_of_dom. }
  assert (Hnd : NoDup (sym <$> su)).
  { rewrite Hperm. apply NoDup_elements. }
  assert (Hmem : ∀ s, s ∈ sym <$> su ↔ s ∈ NR).
  { intros s. by rewrite Hperm, elem_of_elements. }
  assert (Hlen : length su = size NR).
  { rewrite <- (length_fmap sym su). by rewrite Hperm. }
  assert (Hvals : NoDup ((λ v, Value (heap (sym v))) <$> su)).
  { rewrite (list_fmap_compose sym (λ s, Value (heap s))). by rewrite Hperm. }
  assert (Hone : ∀ s, s ∈ NR →
            ∃ i : nat, (i < size NR)%nat ∧ sym <$> su !! i = Some s
              ∧ xlat_of heap su !! Value (heap s) = Some (Z.of_nat i)
              ∧ ∀ j : nat, sym <$> su !! j = Some s → j = i).
  { intros s Hs. apply Hmem, list_elem_of_lookup in Hs as [i Hi].
    rewrite list_lookup_fmap in Hi. exists i.
    destruct (su !! i) as [v|] eqn:Hv; [|done]. simpl in Hi. injection Hi as <-.
    split; [apply lookup_lt_Some in Hv; lia|]. split; [done|].
    split; [by apply xlat_of_lookup|].
    intros j Hj. rewrite <- list_lookup_fmap in Hj.
    apply (NoDup_lookup _ j i (sym v) Hnd Hj).
    by rewrite list_lookup_fmap, Hv. }
  split; [exact Hlen|]. split; [exact Hone|]. split.
  - intros s1 s2 H1 H2 Heq.
    destruct (Hone s1 H1) as (i1 & _ & Hs1 & Hx1 & _).
    destruct (Hone s2 H2) as (i2 & _ & Hs2 & Hx2 & _).
    rewrite Hx1, Hx2 in Heq. injection Heq as Heq.
    apply Nat2Z.inj in Heq. subst i2. congruence.
  - intros i Hi. rewrite <- Hlen in Hi.
    destruct (lookup_lt_is_Some_2 su i Hi) as [v Hv].
    exists (sym v). rewrite Hv. split; [|done].
    apply Hmem, list_elem_of_fmap. exists v. split; [done|].
    by apply list_elem_of_lookup_2 in Hv.
Qed.

Lemma translation_bijective_witness :
  length Ex.su = size (nonreserved_syms Ex.Syms)
  ∧ xlat_of Ex.heap Ex.su !! 57346 = Some 2.
Proof.
  assert (Htab : Forall (Forall (λ act, Sym act ∈ nonreserved_syms Ex.Syms)) Ex.Table).
  { repeat constructor; apply (bool_decide_unpack _); vm_compute; exact I. }
  assert (Hval : NoDup ((λ s, Value (Ex.heap s)) <$> elements (nonreserved_syms Ex.Syms))).
  { apply (bool_decide_unpack _). vm_compute. exact I. }
  pose proof (translation_bijective Ex.heap Go.ToLowerASCII (@Go.insertionSort symUsed)
                Ex.Syms Ex.Table (map_to_list (msu_of Ex.Syms Ex.Table))
                insertionSort_perm (reflexivity _) Htab Hval) as [Hlen _].
  split; [exact Hlen|]. vm_compute. reflexivity.
Defined.

(** ** Properties of the table encoder *)

Section Packing.

Lemma pack_hi (xsym enc : Z) :
  0 ≤ xsym < 2 ^ 32 → 0 ≤ enc < 2 ^ 32 →
  Go.uint32 (Z.shiftr (pack xsym enc) 32) = xsym.
Proof.
  intros Hx He. unfold pack, Go.uint32, Go.uint64.
  rewrite (Z.mod_small xsym), (Z.mod_small enc) by lia.
  rewrite (Z.mod_small (Z.shiftl xsym 32)).
  2:{ rewrite Z.shiftl_mul_pow2 by lia. lia. }
  rewrite Z.shiftr_lor, Z.shiftr_shiftl_l by lia.
  rewrite Z.sub_diag, Z.shiftl_0_r.
  rewrite (Z.shiftr_div_pow2 enc) by lia. rewrite (Z.div_small enc) by lia.
  rewrite Z.lor_0_r. apply Z.mod_small. lia.
Qed.

Lemma pack_lo (xsym enc : Z) :
  0 ≤ xsym < 2 ^ 32 → 0 ≤ enc < 2 ^ 32 →
  Go.uint32 (pack xsym enc) = enc.
Proof.
  intros Hx He. unfold pack, Go.uint32, Go.uint64.
  rewrite (Z.mod_small xsym), (Z.mod_small enc) by lia.
  rewrite (Z.mod_small (Z.shiftl xsym 32)).
  2:{ rewrite Z.shiftl_mul_pow2 by lia. lia. }
  rewrite <- Z.land_ones by lia.
  rewrite Z.land_lor_distr_l, !Z.land_ones by lia.
  rewrite Z.shiftl_mul_pow2 by lia. rewrite Z.mod_mul by lia.
  rewrite Z.lor_0_l. apply Z.mod_small. lia.
Qed.

End Packing.

Section RowLiteral.

Variable tbits : Z.

Lemma place_emit_row (tabRow : list Z) : ∀ col acc hi m hi',
  place tbits (emit_row tabRow col) (col + 1) acc hi = Some (m, hi') →
  acc ⊆ m
  ∧ hi ≤ hi'
  ∧ (∀ x e, (x, e) ∈ cells_of tabRow → m !! x = Some e ∧ 0 ≤ x < hi')
  ∧ (∀ i, i ∉ (cells_of tabRow).*1 → m !! i = acc !! i).
Proof.
  induction tabRow as [|v rest IH]; intros col acc hi m hi' Hp; simpl in Hp.
  - injection Hp as <- <-. split; [done|]. split; [lia|]. split; [|done].
    intros x e Hin. by apply elem_of_nil in Hin.
  - set (xsym := Go.uint32 (Z.shiftr v 32)) in *.
    set (arg := Go.uint32 v) in *.
    assert (Hi : default (col + 1) (if col + 1 =? xsym then None else Some xsym) = xsym).
    { destruct (Z.eqb_spec (col + 1) xsym); simpl; lia. }
    rewrite Hi in Hp.
    destruct ((xsym <? 0) || negb ((0 <=? arg) && (arg <? 2 ^ tbits))) eqn:Hchk;
      [done|].
    apply orb_false_elim in Hchk as [Hneg _]. apply Z.ltb_ge in Hneg.
    destruct (acc !! xsym) eqn:Hfree; [done|].
    apply IH in Hp as (Hsub & Hhi & Hin & Hout).
    assert (Hx : m !! xsym = Some arg).
    { eapply lookup_weaken; [|exact Hsub]. apply lookup_insert_eq. }
    split; [|split; [lia|split]].
    + etrans; [|exact Hsub]. by apply insert_subseteq.
    + intros x e Hxe. unfold cells_of in Hxe. rewrite fmap_cons in Hxe.
      apply elem_of_cons in Hxe as [[= -> ->]|Hxe].
      * split; [done|]. fold xsym. lia.
      * by apply Hin.
    + intros i Hi'. unfold cells_of in Hi'. rewrite !fmap_cons in Hi'.
      apply not_elem_of_cons in Hi' as [Hne Hi']. simpl in Hne.
      rewrite (Hout i Hi'). by rewrite lookup_insert_ne.
Qed.

Lemma slice_literal_emit_row (tabRow : list Z) (row : list Z) :
  slice_literal tbits (emit_row tabRow (-1)) = Some row →
  (∀ x e, (x, e) ∈ cells_of tabRow → Go.index row x = Some e)
  ∧ (∀ i, 0 ≤ i → i ∉ (cells_of tabRow).*1 →
          Go.index row i = Some 0 ∨ Go.len row ≤ i).
Proof.
  unfold slice_literal. intros Hs.
  destruct (place tbits (emit_row tabRow (-1)) 0 ∅ 0) as [[m hi]|] eqn:Hp; [|done].
  simpl in Hs. injection Hs as <-.
  apply (place_emit_row tabRow (-1)) in Hp as (_ & Hhi & Hin & Hout).
  assert (Hidx : ∀ i, 0 ≤ i < hi →
            Go.index ((λ i : nat, Go.map_get 0 m (Z.of_nat i)) <$> seq 0 (Z.to_nat hi)) i
            = Some (Go.map_get 0 m i)).
  { intros i Hi. unfold Go.index. destruct (Z.ltb_spec i 0); [lia|].
    rewrite list_lookup_fmap, lookup_seq_lt by lia. simpl. by rewrite Z2Nat.id by lia. }
  split.
  - intros x e Hxe. destruct (Hin x e Hxe) as [Hm Hx].
    rewrite Hidx by done. unfold Go.map_get. by rewrite Hm.
  - intros i Hi Hni. destruct (Z.lt_ge_cases i hi) as [Hlt|Hge].
    + left. rewrite Hidx by lia. unfold Go.map_get.
      by rewrite (Hout i Hni), lookup_empty.
    + right. unfold Go.len. rewrite length_fmap, length_seq. lia.
Qed.

End RowLiteral.

Section Roundtrip.

Variable heap : SymPtr → Symbol.

Lemma xlat_of_range (su : list symUsed) (k i : Z) :
  xlat_of heap su !! k = Some i → 0 ≤ i < Z.of_nat (length su).
Proof.
  revert i. induction su as [|w su IH] using rev_ind; intros i.
  - unfold xlat_of, xlat_loop. simpl. by rewrite lookup_empty.
  - unfold xlat_of in *. rewrite xlat_loop_snoc.
    destruct (xlat_loop heap su) as [[xl es] er]. simpl in *.
    rewrite length_app. simpl.
    destruct (decide (Value (heap (sym w)) = k)) as [->|Hne].
    + rewrite lookup_insert_eq. intros [= <-]. lia.
    + rewrite lookup_insert_ne by done. intros Hl. apply IH in Hl. lia.
Qed.

Variable xlat : gmap Z Z.
Variable lo tbits : Z.
Hypothesis xlat_small : ∀ k i, xlat !! k = Some i → 0 ≤ i < 2 ^ 32.

Lemma encode_action_cell (act : Action) (v : Z) :
  0 ≤ cell_arg act - lo < 2 ^ 32 →
  encode_action heap xlat lo act = Some v →
  ∃ xsym, xlat !! Value (heap (Sym act)) = Some xsym
          ∧ Go.uint32 (Z.shiftr v 32) = xsym
          ∧ Go.uint32 v = cell_arg act - lo.
Proof.
  intros Henc. unfold encode_action.
  destruct (xlat !! Value (heap (Sym act))) as [xsym|] eqn:Hx; [|done].
  simpl. intros [= <-]. exists xsym.
  pose proof (xlat_small _ _ Hx).
  by rewrite pack_hi, pack_lo.
Qed.

(** What a generated row holds: the stored number of every action at the
    column of its symbol, and nothing at the other columns. *)
Lemma row_of_cells (state : list Action) (row : list Z) :
  Forall (λ act, 0 ≤ cell_arg act - lo < 2 ^ 32) state →
  row_of heap xlat lo tbits state = Some row →
  (∀ act, act ∈ state →
     ∃ xsym, xlat !! Value (heap (Sym act)) = Some xsym
             ∧ Go.index row xsym = Some (cell_arg act - lo))
  ∧ (∀ i, 0 ≤ i →
       (∀ act, act ∈ state → xlat !! Value (heap (Sym act)) ≠ Some i) →
       Go.index row i = Some 0 ∨ Go.len row ≤ i).
Proof.
  intros Hrange. unfold row_of.
  destruct (mapM (encode_action heap xlat lo) state) as [tabRow|] eqn:Hm; [|done].
  simpl. intros Hs. apply mapM_Some_1 in Hm.
  apply slice_literal_emit_row in Hs as [Hin Hout].
  assert (Hperm : cells_of (Go.insertionSort Z.ltb tabRow) ≡ₚ cells_of tabRow).
  { unfold cells_of. by rewrite insertionSort_perm. }
  split.
  - intros act Hact. apply list_elem_of_lookup_1 in Hact as [j Hj].
    destruct (Forall2_lookup_l _ _ _ _ _ Hm Hj) as (v & Hv & Henc).
    rewrite Forall_forall in Hrange.
    apply encode_action_cell in Henc as (xsym & Hx & Hhi & Hlo);
      [|by eapply Hrange, list_elem_of_lookup_2].
    exists xsym. split; [done|]. apply Hin. rewrite Hperm.
    unfold cells_of. apply list_elem_of_fmap. exists v.
    split; [by rewrite Hhi, Hlo|]. by apply list_elem_of_lookup_2 in Hv.
  - intros i Hi Hno. apply Hout; [done|]. rewrite Hperm.
    intros Hmem. apply list_elem_of_fmap in Hmem as ([x e] & -> & Hxe).
    unfold cells_of in Hxe. apply list_elem_of_fmap in Hxe as (v & [= -> ->] & Hv).
    apply list_elem_of_lookup_1 in Hv as [j Hj].
    destruct (Forall2_lookup_r _ _ _ _ _ Hm Hj) as (act & Hact & Henc).
    rewrite Forall_forall in Hrange.
    apply encode_action_cell in Henc as (xsym & Hx & Hhi & Hlo);
      [|by eapply Hrange, list_elem_of_lookup_2].
    apply (Hno act); [by apply list_elem_of_lookup_2 in Hact|].
    simpl. by rewrite Hhi.
Qed.

End Roundtrip.

Section Generation.

Variable heap : SymPtr → Symbol.
Variable xlat : gmap Z Z.
Variable lo tbits : Z.
Hypothesis xlat_small : ∀ k i, xlat !! k = Some i → 0 ≤ i < 2 ^ 32.

Lemma place_succeeds (tabRow : list Z) : ∀ col acc hi,
  NoDup (cells_of tabRow).*1 →
  (∀ x, x ∈ (cells_of tabRow).*1 → acc !! x = None) →
  (∀ x e, (x, e) ∈ cells_of tabRow → e < 2 ^ tbits) →
  is_Some (place tbits (emit_row tabRow col) (col + 1) acc hi).
Proof.
  induction tabRow as [|v rest IH]; intros col acc hi Hnd Hfree Hfit; simpl.
  - by eexists.
  - set (xsym := Go.uint32 (Z.shiftr v 32)) in *.
    set (arg := Go.uint32 v) in *.
    assert (Hi : default (col + 1) (if col + 1 =? xsym then None else Some xsym) = xsym).
    { destruct (Z.eqb_spec (col + 1) xsym); simpl; lia. }
    rewrite Hi.
    unfold cells_of in Hnd, Hfree, Hfit. rewrite !fmap_cons in Hnd, Hfree.
    rewrite fmap_cons in Hfit. simpl in Hnd, Hfree. fold xsym in Hnd, Hfree.
    fold xsym arg in Hfit. apply NoDup_cons in Hnd as [Hnew Hnd].
    assert (0 ≤ xsym) by (apply Z.mod_pos_bound; lia).
    assert (0 ≤ arg) by (apply Z.mod_pos_bound; lia).
    assert (arg < 2 ^ tbits) by (apply (Hfit xsym); apply list_elem_of_here).
    replace ((xsym <? 0) || negb ((0 <=? arg) && (arg <? 2 ^ tbits))) with false.
    2:{ symmetry. apply orb_false_intro; [by apply Z.ltb_ge|].
        apply negb_false_iff, andb_true_intro. split; [by apply Z.leb_le|by apply Z.ltb_lt]. }
    rewrite (Hfree xsym) by apply list_elem_of_here.
    apply IH; [done| |].
    + intros x Hx. rewrite lookup_insert_ne; [|by intros ->].
      apply Hfree. by apply list_elem_of_further.
    + intros x e Hxe. apply (Hfit x). by apply list_elem_of_further.
Qed.

Lemma encode_cells (state : list Action) (tabRow : list Z) :
  Forall (λ act, 0 ≤ cell_arg act - lo < 2 ^ 32) state →
  Forall2 (λ act v, encode_action heap xlat lo act = Some v) state tabRow →
  cells_of tabRow
  = (λ act, (Go.map_get 0 xlat (Value (heap (Sym act))), cell_arg act - lo)) <$> state.
Proof.
  intros Hrange Hm. induction Hm as [|act v state tabRow Henc Hm IH]; [done|].
  apply Forall_cons in Hrange as [Hr Hrange].
  unfold cells_of in *. rewrite !fmap_cons, IH by done. f_equal.
  apply (encode_action_cell heap xlat lo xlat_small) in Henc as (xsym & Hx & -> & ->);
    [|done].
  unfold Go.map_get. by rewrite Hx.
Qed.

(** A row is generated, and accepted by the Go compiler, when the symbols
    of its actions are translated to different columns and the stored
    numbers fit the cell type. *)
Lemma row_of_succeeds (state : list Action) :
  Forall (λ act, 0 ≤ cell_arg act - lo < 2 ^ 32 ∧ cell_arg act - lo < 2 ^ tbits) state →
  Forall (λ act, is_Some (xlat !! Value (heap (Sym act)))) state →
  NoDup ((λ act, Go.map_get 0 xlat (Value (heap (Sym act)))) <$> state) →
  is_Some (row_of heap xlat lo tbits state).
Proof.
  intros Hrange Hsyms Hcols. unfold row_of.
  assert (Hr32 : Forall (λ act, 0 ≤ cell_arg act - lo < 2 ^ 32) state).
  { eapply Forall_impl; [exact Hrange|]. by intros act [? _]. }
  destruct (mapM_is_Some_2 (encode_action heap xlat lo) state) as [tabRow Hm].
  { eapply Forall_impl; [exact Hsyms|]. intros act [x Hx]. unfold encode_action.
    simpl. rewrite Hx. by eexists. }
  rewrite Hm. simpl. apply mapM_Some_1 in Hm.
  pose proof (encode_cells state tabRow Hr32 Hm) as Hcells.
  assert (Hperm : cells_of (Go.insertionSort Z.ltb tabRow) ≡ₚ cells_of tabRow).
  { unfold cells_of. by rewrite insertionSort_perm. }
  unfold slice_literal.
  destruct (place_succeeds (Go.insertionSort Z.ltb tabRow) (-1) ∅ 0) as [[m hi] Hp].
  - rewrite Hperm, Hcells, <- list_fmap_compose. exact Hcols.
  - intros x _. apply lookup_empty.
  - intros x e Hxe. rewrite Hperm, Hcells in Hxe.
    apply list_elem_of_fmap in Hxe as (act & [= -> ->] & Hact).
    rewrite Forall_forall in Hrange. by apply Hrange.
  - change (-1 + 1) with 0 in Hp. rewrite Hp. by eexists.
Qed.

End Generation.

Lemma span_fits_tbits (lo hi : Z) :
  1 ≤ hi - lo < 2 ^ 32 → hi - lo < 2 ^ tbits_of lo hi.
Proof.
  intros H. rewrite tbits_of_cases by lia.
  destruct (Z.leb_spec (hi - lo) 126); [change (2 ^ 8) with 256; lia|].
  destruct (Z.leb_spec (hi - lo) 32766); [change (2 ^ 16) with 65536; lia|lia].
Qed.

Section Decoding.

Variable t : Tables.

Lemma index_of_nat {A} (l : list A) (i : nat) : Go.index l (Z.of_nat i) = l !! i.
Proof.
  unfold Go.index. destruct (Z.ltb_spec (Z.of_nat i) 0); [lia|].
  by rewrite Nat2Z.id.
Qed.

Lemma index_Some_lt {A} (l : list A) (i : Z) (x : A) :
  Go.index l i = Some x → 0 ≤ i < Go.len l.
Proof.
  unfold Go.index, Go.len. destruct (Z.ltb_spec i 0); [done|].
  intros Hl. apply lookup_lt_Some in Hl. lia.
Qed.

Lemma action_cell_at (s x e : Z) (row : list Z) :
  Go.index (ParseTab t) s = Some row → Go.index row x = Some e →
  action_cell t s x = Some (if e =? 0 then 0 else e + TabOfs t).
Proof.
  intros Hrow Hx. unfold action_cell. rewrite Hrow. simpl.
  apply index_Some_lt in Hx as Hlt.
  destruct (Z.ltb_spec x (Go.len row)); [|lia]. by rewrite Hx.
Qed.

Lemma action_cell_empty (s i : Z) (row : list Z) :
  Go.index (ParseTab t) s = Some row → 0 ≤ i →
  Go.index row i = Some 0 ∨ Go.len row ≤ i →
  action_cell t s i = Some 0.
Proof.
  intros Hrow Hi [H0|Hge].
  - by rewrite (action_cell_at s i 0 row).
  - unfold action_cell. rewrite Hrow. simpl.
    destruct (Z.ltb_spec i (Go.len row)); [lia|done].
Qed.

End Decoding.

(** C1.  Let the span of the stored numbers and the number of symbols stay
    below 2^32, let every symbol of the table have an entry in the
    translation table, and let the actions of a state be on different
    translated symbols.  Then the generator produces the parse table, and
    in the parser that carries it and the offset, the lookup of an action
    at a state and the translated symbol of one of its actions returns the
    target of a shift or goto to a state numbered from 1 as it is, and the
    negated index of the rule of a reduction of a rule numbered from 1;
    the lookup at a column no action of the state is translated to returns
    0, also beyond the end of the row. *)
Theorem action_cell_roundtrip
  (heap : SymPtr → Symbol) (Syms : gmap string SymPtr)
  (Table : list (list Action)) (su : list symUsed) :
  Z.of_nat (length su) ≤ 2 ^ 32 →
  maxArg_of Syms Table - TabOfs_of Syms Table < 2 ^ 32 →
  Forall (Forall (λ act, is_Some (xlat_of heap su !! Value (heap (Sym act))))) Table →
  Forall (λ state,
            NoDup ((λ act, Go.map_get 0 (xlat_of heap su) (Value (heap (Sym act))))
                     <$> state)) Table →
  ∃ tab,
    ParseTab_of heap (xlat_of heap su) (TabOfs_of Syms Table)
                (tbits_of (TabOfs_of Syms Table) (maxArg_of Syms Table)) Table
    = Some tab
    ∧ ∀ (t : Tables) (si : nat) (state : list Action),
        ParseTab t = tab → TabOfs t = TabOfs_of Syms Table →
        Table !! si = Some state →
        (∀ act k target,
           act ∈ state → Kind act = (k, target) → k ≠ rune_a → k ≠ rune_r →
           0 < target →
           ∃ xsym, xlat_of heap su !! Value (heap (Sym act)) = Some xsym
                   ∧ action_cell t (Z.of_nat si) xsym = Some target)
        ∧ (∀ act r,
             act ∈ state → Kind act = (rune_r, r) → 0 < r →
             ∃ xsym, xlat_of heap su !! Value (heap (Sym act)) = Some xsym
                     ∧ action_cell t (Z.of_nat si) xsym = Some (- r))
        ∧ (∀ id,
             0 ≤ id →
             (∀ act, act ∈ state →
                     xlat_of heap su !! Value (heap (Sym act)) ≠ Some id) →
             action_cell t (Z.of_nat si) id = Some 0).
Proof.
  intros Hsu Hspan Hsyms Hcols.
  set (xlat := xlat_of heap su). set (lo := TabOfs_of Syms Table).
  set (hi := maxArg_of Syms Table). set (tb := tbits_of lo hi).
  assert (Hsmall : ∀ k i, xlat !! k = Some i → 0 ≤ i < 2 ^ 32).
  { intros k i Hk. apply xlat_of_range in Hk. lia. }
  pose proof (minArg_maxArg_sign Syms Table) as Hsign.
  assert (Hfit : hi - lo < 2 ^ tb).
  { apply span_fits_tbits. subst hi lo. unfold TabOfs_of in *. lia. }
  assert (Hrange : ∀ state act, state ∈ Table → act ∈ state →
            1 ≤ cell_arg act - lo ≤ hi - lo).
  { intros state act Hst Hact. apply (encoded_range Syms Table state act Hst Hact). }
  destruct (mapM_is_Some_2 (row_of heap xlat lo tb) Table) as [tab Htab].
  { rewrite Forall_forall in Hsyms, Hcols. apply Forall_forall. intros state Hst.
    apply row_of_succeeds; [done| |by apply Hsyms|by apply Hcols].
    apply Forall_forall. intros act Hact.
    pose proof (Hrange state act Hst Hact). fold hi lo in Hspan. lia. }
  exists tab. split; [exact Htab|].
  intros t si state Ht Hofs Hst. apply mapM_Some_1 in Htab.
  destruct (Forall2_lookup_l _ _ _ _ _ Htab Hst) as (row & Hrow & Hgen).
  assert (Hidx : Go.index (ParseTab t) (Z.of_nat si) = Some row).
  { by rewrite index_of_nat, Ht. }
  assert (Hr32 : Forall (λ act, 0 ≤ cell_arg act - lo < 2 ^ 32) state).
  { apply Forall_forall. intros act Hact.
    pose proof (Hrange state act (list_elem_of_lookup_2 _ _ _ Hst) Hact).
    fold hi lo in Hspan. lia. }
  destruct (row_of_cells heap xlat lo tb Hsmall state row Hr32 Hgen) as [Hin Hout].
  assert (Hdec : ∀ act, act ∈ state →
            ∃ xsym, xlat !! Value (heap (Sym act)) = Some xsym
                    ∧ action_cell t (Z.of_nat si) xsym = Some (cell_arg act)).
  { intros act Hact. destruct (Hin act Hact) as (xsym & Hx & Hcell).
    exists xsym. split; [done|].
    rewrite (action_cell_at t _ _ _ row Hidx Hcell).
    pose proof (Hrange state act (list_elem_of_lookup_2 _ _ _ Hst) Hact).
    destruct (Z.eqb_spec (cell_arg act - lo) 0); [lia|].
    f_equal. rewrite Hofs. fold lo. lia. }
  split; [|split].
  - intros act k target Hact Hk Ha Hr Hpos.
    destruct (Hdec act Hact) as (xsym & Hx & Hcell). exists xsym. split; [done|].
    rewrite Hcell. unfold cell_arg. rewrite Hk.
    destruct (Z.eqb_spec k rune_a); [done|]. by destruct (Z.eqb_spec k rune_r).
  - intros act r Hact Hk Hpos.
    destruct (Hdec act Hact) as (xsym & Hx & Hcell). exists xsym. split; [done|].
    rewrite Hcell. unfold cell_arg. rewrite Hk. simpl. f_equal. lia.
  - intros id Hid Hno. apply (action_cell_empty t _ _ row Hidx Hid).
    by apply Hout.
Qed.

Lemma action_cell_roundtrip_witness :
  ∃ tab,
    ParseTab_of Ex.heap Ex.xlat Ex.minArg Ex.tbits Ex.Table = Some tab
    ∧ action_cell (mkTables tab Ex.minArg Ex.xlat ∅ ∅ 4 0) 2 1 = Some (-2).
Proof.
  assert (Hsyms : Forall (Forall (λ act, is_Some (xlat_of Ex.heap Ex.su
                                                   !! Value (Ex.heap (Sym act)))))
                         Ex.Table).
  { repeat constructor; vm_compute; by eexists. }
  assert (Hcols : Forall (λ state,
                            NoDup ((λ act, Go.map_get 0 (xlat_of Ex.heap Ex.su)
                                             (Value (Ex.heap (Sym act)))) <$> state))
                         Ex.Table).
  { repeat constructor; apply (bool_decide_unpack _); vm_compute; exact I. }
  destruct (action_cell_roundtrip Ex.heap Ex.Syms Ex.Table Ex.su) as (tab & Htab & Hrt);
    [vm_compute; discriminate|vm_compute; reflexivity|exact Hsyms|exact Hcols|].
  exists tab. split; [exact Htab|].
  destruct (Hrt (mkTables tab Ex.minArg Ex.xlat ∅ ∅ 4 0) 2%nat
              [mkAction Ex.p_end (rune_r, 2); mkAction Ex.p_plus (rune_r, 2)]
              eq_refl eq_refl eq_refl) as (_ & Hred & _).
  destruct (Hred (mkAction Ex.p_plus (rune_r, 2)) 2) as (xsym & Hx & Hcell);
    [apply list_elem_of_further, list_elem_of_here|reflexivity|lia|].
  assert (xsym = 1) as -> by (vm_compute in Hx; congruence).
  exact Hcell.
Defined.

(** ** Termination of the emitted parser *)

Section Termination.

Context {V : Type}.
Variable V0 : V.
Variable act : Z → list (Z * V) → V → @effect V.
Variable t : Tables.

Hypothesis eof_entry : xlat_token t 0 = yyEOF t.
Hypothesis no_eof_shift : eof_never_shifted t = true.
Hypothesis no_errok : ∀ r stk rv, e_errok (act r stk rv) = false.

Implicit Types c : @config V.

Lemma action_cell_nonneg (s la arg : Z) :
  action_cell t s la = Some arg → 0 ≤ la.
Proof.
  unfold action_cell. destruct (Go.index (ParseTab t) s) as [row|]; [|done].
  simpl. destruct (Z.ltb_spec la (Go.len row)) as [Hlt|Hge].
  - destruct (Go.index row la) as [cell|] eqn:Hc; [|done].
    intros _. by apply index_Some_lt in Hc as [? _].
  - intros _. unfold Go.len in Hge. lia.
Qed.

Lemma eof_not_shifted (s arg : Z) :
  action_cell t s (yyEOF t) = Some arg → arg ≤ 0.
Proof.
  unfold action_cell. destruct (Go.index (ParseTab t) s) as [row|] eqn:Hrow; [|done].
  simpl. assert (Hin : row ∈ ParseTab t).
  { unfold Go.index in Hrow. destruct (s <? 0); [done|].
    by apply list_elem_of_lookup_2 in Hrow. }
  pose proof no_eof_shift as Hall. unfold eof_never_shifted in Hall.
  rewrite forallb_forall in Hall. specialize (Hall row (proj1 (list_elem_of_In _ _) Hin)).
  destruct (yyEOF t <? Go.len row); [|intros [= <-]; lia].
  destruct (Go.index row (yyEOF t)) as [cell|]; [|done]. simpl.
  intros [= <-]. destruct (Z.eqb_spec cell 0); [lia|]. simpl in Hall.
  apply Z.leb_le in Hall. lia.
Qed.

Lemma yylex1_budget c :
  lookahead c < 0 → (budget t (yylex1 t c) ≤ budget t c)%nat.
Proof.
  intros Hneg. unfold yylex1, budget, pending.
  destruct (Z.leb_spec 0 (lookahead c)); [lia|]. simpl.
  destruct (input c) as [|[n f] rest]; simpl.
  - rewrite eof_entry, Z.eqb_refl, andb_false_r. lia.
  - destruct ((0 <=? xlat_token t n) && negb (xlat_token t n =? yyEOF t)); lia.
Qed.

Lemma pending_one c :
  0 ≤ lookahead c → lookahead c ≠ yyEOF t → pending t c = 1%nat.
Proof.
  intros Hge Hne. unfold pending.
  destruct (Z.leb_spec 0 (lookahead c)); [|lia].
  by destruct (Z.eqb_spec (lookahead c) (yyEOF t)).
Qed.

Lemma shift_step_budget c arg k c' :
  0 ≤ lookahead c → lookahead c ≠ yyEOF t →
  shift_step V0 c arg = Next k c' → (budget t c' < budget t c)%nat.
Proof.
  intros Hge Hne [= _ <-]. unfold budget at 2. rewrite pending_one by done.
  unfold budget, pending. simpl.
  destruct ((if errState c >? 0 then errState c - 1 else errState c) =? 3);
    destruct (errState c =? 3); lia.
Qed.

(** A reduction whose action leaves the error state alone spends
    nothing. *)
Lemma reduce_step_budget c arg k c' :
  reduce_step act t c arg = Next k c' → k = KReduce ∧ budget t c' = budget t c.
Proof.
  unfold reduce_step.
  destruct (Go.map_get (0, 0) (Reductions t) (- arg)) as [x n].
  destruct (goto_state t (stack c) (Go.len (stack c) - 1) n x); [|done].
  intros [= <- <-]. split; [done|]. unfold budget, pending. simpl.
  by rewrite no_errok.
Qed.

Lemma unwind_length (sp : nat) : ∀ (stk stk' : list (Z * V)) state lv,
  unwind t sp stk state lv = Some (Some stk') →
  (length stk' ≤ length stk + 1)%nat.
Proof.
  induction sp as [|sp IH]; intros stk stk' state lv; simpl; [done|].
  destruct (Go.index (ParseTab t) state) as [row|]; [|done]. simpl.
  destruct (if yyError t <? Go.len row
            then Go.index row (yyError t) ≫= λ cell, Some (cell + TabOfs t)
            else Some 0) as [arg|]; [|done].
  simpl. destruct (negb (arg =? 0)).
  - intros [= <-]. rewrite length_app. simpl. lia.
  - destruct (take (S sp) stk !! sp) as [fr|]; [|done]. simpl.
    intros Hu. apply IH in Hu. rewrite length_take in Hu. lia.
Qed.

(** Unwinding the stack ends: with a fault, with the return of 1, or with
    one frame pushed on what is left of the stack and error state 3. *)
Lemma unwind_phase_cases c state :
  unwind_phase V0 t c state = Panic (errors c)
  ∨ (∃ c', unwind_phase V0 t c state = Return 1 c')
  ∨ (∃ c', unwind_phase V0 t c state = Next KErrShift c'
           ∧ errState c' = 3 ∧ lookahead c' = lookahead c ∧ input c' = input c
           ∧ (length (stack c') ≤ length (stack c) + 1)%nat).
Proof.
  unfold unwind_phase.
  destruct (unwind t (length (stack c) - 1) (stack c) state (lval c))
    as [[stk|]|] eqn:Hu; [|by eauto|by eauto].
  right. right. eexists. split; [done|]. simpl.
  repeat split. by apply unwind_length in Hu.
Qed.

Lemma unwind_phase_budget c state k c' :
  errState c ≠ 3 →
  unwind_phase V0 t c state = Next k c' →
  k = KErrShift ∧ (budget t c' < budget t c)%nat.
Proof.
  intros Hne Hstep.
  destruct (unwind_phase_cases c state) as [H|[[c2 H]|(c2 & H & He & Hl & Hi & _)]];
    rewrite H in Hstep; try done.
  injection Hstep as <- <-. split; [done|]. unfold budget, pending.
  rewrite He, Hl, Hi. simpl.
  destruct (Z.eqb_spec (errState c) 3); [done|]. lia.
Qed.

Lemma error_step_budget c state k c' :
  0 ≤ lookahead c →
  error_step V0 t c state = Next k c' →
  k ≠ KReduce ∧ (budget t c' < budget t c)%nat.
Proof.
  intros Hge. unfold error_step.
  destruct (Z.eqb_spec (errState c) 0) as [H0|H0].
  - intros Hstep. apply unwind_phase_budget in Hstep as [-> Hb]; [|simpl; lia].
    split; [done|]. by unfold budget, pending, report in *.
  - assert (Hu : unwind_phase V0 t c state = Next k c' → errState c ≠ 3 →
                 k ≠ KReduce ∧ (budget t c' < budget t c)%nat).
    { intros Hstep Hne. by apply unwind_phase_budget in Hstep as [-> Hb]. }
    destruct (Z.eqb_spec (errState c) 1) as [H1|H1]; [simpl; intros; apply Hu; [done|lia]|].
    destruct (Z.eqb_spec (errState c) 2) as [H2|H2]; [simpl; intros; apply Hu; [done|lia]|].
    simpl. destruct (Z.eqb_spec (errState c) 3) as [H3|H3]; [|done].
    destruct (Z.eqb_spec (lookahead c) (yyEOF t)) as [He|He]; [done|].
    intros [= <- <-]. split; [done|]. unfold budget at 2. rewrite pending_one by done.
    unfold budget, pending. simpl. rewrite H3. simpl. lia.
Qed.

(** A pass that is not a reduction spends budget; a reduction spends none. *)
Lemma step_budget c k c' :
  step V0 act t c = Next k c' →
  (budget t c' ≤ budget t c)%nat ∧ (k ≠ KReduce → (budget t c' < budget t c)%nat).
Proof.
  unfold step.
  destruct (Go.index (stack c) (Go.len (stack c) - 1)) as [top|]; [|done].
  set (c1 := if lookahead c <? 0 then yylex1 t c else c).
  assert (Hc1 : (budget t c1 ≤ budget t c)%nat).
  { subst c1. destruct (Z.ltb_spec (lookahead c) 0); [by apply yylex1_budget|lia]. }
  destruct (action_cell t (yys top) (lookahead c1)) as [arg|] eqn:Hcell; [|done].
  apply action_cell_nonneg in Hcell as Hge.
  destruct (Z.gtb_spec arg 0) as [Hpos|Hnpos].
  - intros Hs. apply shift_step_budget in Hs; [lia|done|].
    intros He. rewrite He in Hcell. apply eof_not_shifted in Hcell. lia.
  - destruct (Z.ltb_spec arg 0) as [Hneg|Hzero].
    + intros Hs. apply reduce_step_budget in Hs as [-> Hb]. split; [lia|done].
    + destruct (yys top =? 1); [done|].
      intros Hs. apply error_step_budget in Hs as [_ Hs]; [lia|done].
Qed.

Lemma step_return_code c code c' :
  step V0 act t c = Return code c' → code = 0 ∨ code = 1.
Proof.
  unfold step.
  destruct (Go.index (stack c) (Go.len (stack c) - 1)) as [top|]; [|done].
  set (c1 := if lookahead c <? 0 then yylex1 t c else c). clearbody c1.
  destruct (action_cell t (yys top) (lookahead c1)) as [arg|]; [|done].
  destruct (arg >? 0); [done|].
  destruct (arg <? 0).
  { unfold reduce_step. destruct (Go.map_get (0, 0) (Reductions t) (- arg)) as [x n].
    by destruct (goto_state t (stack c1) (Go.len (stack c1) - 1) n x). }
  destruct (yys top =? 1); [intros [= <- _]; by left|].
  unfold error_step.
  assert (Hu : ∀ c2, unwind_phase V0 t c2 (yys top) = Return code c' → code = 0 ∨ code = 1).
  { intros c2 H.
    destruct (unwind_phase_cases c2 (yys top)) as [E|[[c3 E]|(c3 & E & _)]];
      rewrite E in H; try done. injection H as <- _. by right. }
  destruct (errState c1 =? 0); [apply Hu|].
  destruct ((errState c1 =? 1) || (errState c1 =? 2)); [apply Hu|].
  destruct (errState c1 =? 3); [|intros [= <- _]; by right].
  destruct (lookahead c1 =? yyEOF t); [intros [= <- _]; by right|done].
Qed.

Lemma run_return_code (fuel : nat) : ∀ c code c',
  run V0 act t fuel c = Returned code c' → code = 0 ∨ code = 1.
Proof.
  induction fuel as [|fuel IH]; intros c code c'; simpl; [done|].
  destruct (step V0 act t c) as [k c2|code2 c2|errs] eqn:Hs; [apply IH| |done].
  intros [= <- <-]. by apply step_return_code in Hs.
Qed.

(** The ranking. *)
Variable rank : Z → nat.
Variable R : nat.
Hypothesis descend : reductions_descend t rank.
Hypothesis rank_le : ∀ s, (rank s ≤ R)%nat.

Lemma top_state_index c top :
  Go.index (stack c) (Go.len (stack c) - 1) = Some top → top_state c = yys top.
Proof.
  unfold top_state, Go.index, Go.len. rewrite last_lookup.
  destruct (Z.of_nat (length (stack c)) - 1 <? 0) eqn:Hneg; [done|].
  apply Z.ltb_ge in Hneg.
  replace (Z.to_nat (Z.of_nat (length (stack c)) - 1)) with (pred (length (stack c)))
    by lia.
  by intros ->.
Qed.

Lemma top_state_snoc (stk : list (Z * V)) (fr : Z * V) la es lv rv inp errs :
  top_state (mkConfig (stk ++ [fr]) la es lv rv inp errs) = yys fr.
Proof. unfold top_state. simpl. by rewrite last_snoc. Qed.

(** A reduction enters a state of lower rank. *)
Lemma step_reduce_rank c c' :
  step V0 act t c = Next KReduce c' →
  (rank (top_state c') < rank (top_state c))%nat.
Proof.
  unfold step.
  destruct (Go.index (stack c) (Go.len (stack c) - 1)) as [top|] eqn:Htop; [|done].
  rewrite (top_state_index c top Htop).
  set (c1 := if lookahead c <? 0 then yylex1 t c else c). clearbody c1.
  destruct (action_cell t (yys top) (lookahead c1)) as [arg|] eqn:Hcell; [|done].
  destruct (arg >? 0); [done|].
  destruct (Z.ltb_spec arg 0) as [Hneg|Hzero].
  - unfold reduce_step.
    destruct (Go.map_get (0, 0) (Reductions t) (- arg)) as [x n] eqn:Hred.
    destruct (goto_state t (stack c1) (Go.len (stack c1) - 1) n x) as [s|] eqn:Hg;
      [|done].
    intros [= <-]. rewrite top_state_snoc. unfold goto_state in Hg.
    destruct (Go.index (stack c1) (Go.len (stack c1) - 1 - n)) as [base|]; [|done].
    simpl in Hg.
    destruct (Go.index (ParseTab t) (yys base)) as [row|] eqn:Hrow; [|done].
    simpl in Hg. destruct (Go.index row x) as [cell|] eqn:Hx; [|done].
    injection Hg as <-.
    apply (descend (yys top) (lookahead c1) arg (yys base) row cell); try done.
    by rewrite Hred.
  - destruct (yys top =? 1); [done|].
    intros Hs. assert (0 ≤ lookahead c1) as Hge by (by apply action_cell_nonneg in Hcell).
    by apply error_step_budget in Hs as [Hk _].
Qed.

(** Every pass lowers the potential. *)
Lemma step_potential c k c' :
  step V0 act t c = Next k c' →
  (potential t rank R c' < potential t rank R c)%nat.
Proof.
  intros Hs. unfold potential.
  pose proof (step_budget c k c' Hs) as [Hle Hlt].
  pose proof (rank_le (top_state c')) as Hr.
  assert (Hk : k = KReduce ∨ k ≠ KReduce) by (destruct k; (by left) || (by right)).
  destruct Hk as [->|Hk].
  - apply step_reduce_rank in Hs.
    assert (budget t c' * (R + 1) ≤ budget t c * (R + 1))%nat
      by (by apply Nat.mul_le_mono_r).
    lia.
  - specialize (Hlt Hk).
    assert (S (budget t c') * (R + 1) ≤ budget t c * (R + 1))%nat
      by (apply Nat.mul_le_mono_r; lia).
    simpl in *. lia.
Qed.

Lemma run_within_potential (fuel : nat) : ∀ c,
  (potential t rank R c < fuel)%nat → run V0 act t fuel c ≠ Running.
Proof.
  induction fuel as [|fuel IH]; intros c Hlt; simpl in *; [lia|].
  destruct (step V0 act t c) as [k c2|code2 c2|errs] eqn:Hs; [|done..].
  apply step_potential in Hs. apply IH. lia.
Qed.

End Termination.

Section RankCheck.

Variable t : Tables.
Variable rank : Z → nat.

Lemma index_lookup {A} (l : list A) (i : Z) (x : A) :
  Go.index l i = Some x → ∃ n : nat, i = Z.of_nat n ∧ l !! n = Some x.
Proof.
  unfold Go.index. destruct (Z.ltb_spec i 0); [done|].
  intros Hl. exists (Z.to_nat i). split; [lia|done].
Qed.

(** Going through the table decides the ranking. *)
Lemma descend_check_sound :
  descend_check t rank = true → reductions_descend t rank.
Proof.
  unfold descend_check. rewrite forallb_forall.
  intros Hall s la arg base row cell Hcell Hneg Hrow Hx.
  unfold action_cell in Hcell.
  destruct (Go.index (ParseTab t) s) as [srow|] eqn:Hs; [|done]. simpl in Hcell.
  destruct (la <? Go.len srow); [|injection Hcell as <-; lia].
  destruct (Go.index srow la) as [scell|] eqn:Hla; [|done]. simpl in Hcell.
  injection Hcell as Harg.
  apply index_lookup in Hs as (i & -> & Hi).
  apply index_lookup in Hla as (j & _ & Hj).
  apply index_lookup in Hrow as (b & _ & Hb).
  specialize (Hall (Z.of_nat i, srow)). simpl in Hall.
  rewrite forallb_forall in Hall.
  assert (Hin : In (Z.of_nat i, srow) (imap (λ i row, (Z.of_nat i, row)) (ParseTab t))).
  { apply list_elem_of_In, list_elem_of_lookup. exists i.
    by rewrite list_lookup_imap, Hi. }
  specialize (Hall Hin scell (proj1 (list_elem_of_In _ _) (list_elem_of_lookup_2 _ _ _ Hj))).
  simpl in Hall. rewrite Harg in Hall.
  destruct (Z.ltb_spec arg 0); [|lia].
  rewrite forallb_forall in Hall.
  specialize (Hall row (proj1 (list_elem_of_In _ _) (list_elem_of_lookup_2 _ _ _ Hb))).
  simpl in Hall. rewrite Hx in Hall. by apply Nat.ltb_lt in Hall.
Qed.

End RankCheck.

Section ErrokLoop.

(** In [Ex4.tables], on the input ['a' 'y'], the parser reduces
    [e: error], whose action resets the error state, finds ['y'] in
    error again, reports it, unwinds to the state after ['a'] and shifts
    [error] again, without end. *)
Lemma errok_loop_steps (errs : list string) :
  step tt Ex4.act Ex4.tables (Ex4.c_shifted errs)
  = Next KReduce (Ex4.c_reduced (errs ++ []))
  ∧ step tt Ex4.act Ex4.tables (Ex4.c_reduced errs)
    = Next KErrShift (Ex4.c_shifted (errs ++ ["syntax error"%string])).
Proof. split; vm_compute; reflexivity. Qed.

Lemma errok_loop_runs (fuel : nat) : ∀ errs,
  run tt Ex4.act Ex4.tables fuel (Ex4.c_shifted errs) = Running
  ∧ run tt Ex4.act Ex4.tables fuel (Ex4.c_reduced errs) = Running.
Proof.
  induction fuel as [|fuel IH]; intros errs; [done|].
  destruct (errok_loop_steps errs) as [Hs Hr].
  cbn [run]. rewrite Hs, Hr. split; apply IH.
Qed.

End ErrokLoop.




(** ** The empty cell *)

Section Extremes.

Implicit Types (acc : gmap SymPtr Z * Z * Z) (act : Action).

Lemma scan_action_attained acc act :
  ((scan_action acc act).1.2 = acc.1.2 ∨ (scan_action acc act).1.2 = cell_arg act)
  ∧ ((scan_action acc act).2 = acc.2 ∨ (scan_action acc act).2 = cell_arg act).
Proof.
  destruct acc as [[m lo] hi]. unfold scan_action, cell_arg. simpl.
  destruct (Kind act) as [k a].
  destruct (k =? rune_a); simpl; [by split; left|].
  destruct (k =? rune_r); simpl; lia.
Qed.

Lemma scan_state_attained state : ∀ acc,
  ((fold_left scan_action state acc).1.2 = acc.1.2
   ∨ ∃ act, act ∈ state ∧ (fold_left scan_action state acc).1.2 = cell_arg act)
  ∧ ((fold_left scan_action state acc).2 = acc.2
     ∨ ∃ act, act ∈ state ∧ (fold_left scan_action state acc).2 = cell_arg act).
Proof.
  induction state as [|a state IH]; intros acc; simpl; [by split; left|].
  destruct (IH (scan_action acc a)) as [Hlo Hhi].
  destruct (scan_action_attained acc a) as [Hlo1 Hhi1].
  split.
  - destruct Hlo as [Hlo|(act & Hin & Hlo)].
    + destruct Hlo1 as [Hlo1|Hlo1]; [left; congruence|].
      right. exists a. split; [apply list_elem_of_here|congruence].
    + right. exists act. split; [by apply list_elem_of_further|done].
  - destruct Hhi as [Hhi|(act & Hin & Hhi)].
    + destruct Hhi1 as [Hhi1|Hhi1]; [left; congruence|].
      right. exists a. split; [apply list_elem_of_here|congruence].
    + right. exists act. split; [by apply list_elem_of_further|done].
Qed.

Lemma scan_states_attained Table : ∀ acc,
  let r := fold_left (λ acc state, fold_left scan_action state acc) Table acc in
  (r.1.2 = acc.1.2
   ∨ ∃ state act, state ∈ Table ∧ act ∈ state ∧ r.1.2 = cell_arg act)
  ∧ (r.2 = acc.2
     ∨ ∃ state act, state ∈ Table ∧ act ∈ state ∧ r.2 = cell_arg act).
Proof.
  induction Table as [|st Table IH]; intros acc; simpl; [by split; left|].
  destruct (IH (fold_left scan_action st acc)) as [Hlo Hhi]. simpl in Hlo, Hhi.
  destruct (scan_state_attained st acc) as [Hlo1 Hhi1].
  split.
  - destruct Hlo as [Hlo|(state & act & Hst & Hin & Hlo)].
    + destruct Hlo1 as [Hlo1|(act & Hin & Hlo1)]; [left; congruence|].
      right. exists st, act. split; [apply list_elem_of_here|]. split; [done|congruence].
    + right. exists state, act. split; [by apply list_elem_of_further|done].
  - destruct Hhi as [Hhi|(state & act & Hst & Hin & Hhi)].
    + destruct Hhi1 as [Hhi1|(act & Hin & Hhi1)]; [left; congruence|].
      right. exists st, act. split; [apply list_elem_of_here|]. split; [done|congruence].
    + right. exists state, act. split; [by apply list_elem_of_further|done].
Qed.

End Extremes.

(** X1.  The number stored for an action is its number, which is the
    state of a shift or goto, the negated rule of a reduce and 0 for
    accept, less the offset written as [TabOfs].  The offset is one less
    than the least of 0 and the numbers of the actions of the table: it is
    at most -1, no action has a number below the offset plus one, and
    either the offset is -1 or some action has exactly that number and is
    stored as 1.  So every action, an accept included, is stored as a
    number from 1 to the largest number less the offset, and 0 is left for
    the cells without action. *)
Theorem stored_cells_positive
  (Syms : gmap string SymPtr) (Table : list (list Action))
  (state : list Action) (act : Action) :
  state ∈ Table → act ∈ state →
  TabOfs_of Syms Table ≤ -1
  ∧ 1 ≤ cell_arg act - TabOfs_of Syms Table
      ≤ maxArg_of Syms Table - TabOfs_of Syms Table
  ∧ (TabOfs_of Syms Table = -1
     ∨ ∃ state' act', state' ∈ Table ∧ act' ∈ state'
                      ∧ cell_arg act' - TabOfs_of Syms Table = 1)
  ∧ (maxArg_of Syms Table = 0
     ∨ ∃ state' act', state' ∈ Table ∧ act' ∈ state'
                      ∧ cell_arg act' = maxArg_of Syms Table).
Proof.
  intros Hst Hact. split; [apply TabOfs_of_neg|].
  split; [by apply (encoded_range Syms Table state)|].
  pose proof (scan_states_attained Table (msu_init Syms, 0, 0)) as [Hlo Hhi].
  simpl in Hlo, Hhi. unfold TabOfs_of, minArg_of, maxArg_of, scan_table. split.
  - destruct Hlo as [->|(state' & act' & Hst' & Hact' & Hlo)]; [by left|].
    right. exists state', act'. split; [done|]. split; [done|]. lia.
  - destruct Hhi as [->|(state' & act' & Hst' & Hact' & Hhi)]; [by left|].
    right. exists state', act'. split; [done|]. split; [done|]. lia.
Qed.

Lemma stored_cells_positive_witness :
  1 ≤ cell_arg (mkAction Ex.p_end (rune_a, -1)) - TabOfs_of Ex.Syms Ex.Table
    ≤ maxArg_of Ex.Syms Ex.Table - TabOfs_of Ex.Syms Ex.Table.
Proof.
  apply (stored_cells_positive Ex.Syms Ex.Table
           [mkAction Ex.p_end (rune_a, -1); mkAction Ex.p_plus (rune_s, 3)]).
  - apply list_elem_of_further, list_elem_of_here.
  - apply list_elem_of_here.
Defined.

(** ** The error column while unwinding *)

(** While the stack is unwound the error column of a row is read with the
    offset added before the test for 0, unlike the lookup of an action.  A
    row that reaches the error column and stores 0 there is taken for an
    error shift: a frame whose state is the offset, a negative number, is
    pushed, and the following pass faults on the index of the table. *)
Theorem unwind_takes_empty_cell
  {V : Type} (V0 : V) (act : Z → list (Z * V) → V → @effect V) (t : Tables)
  (c : @config V) (state : Z) (row : list Z) :
  TabOfs t < 0 →
  Go.index (ParseTab t) state = Some row →
  Go.index row (yyError t) = Some 0 →
  (1 < length (stack c))%nat →
  action_cell t state (yyError t) = Some 0
  ∧ unwind_phase V0 t c state
    = Next KErrShift (mkConfig (stack c ++ [(TabOfs t, lval c)]) (lookahead c) 3 V0
                               (rval c) (input c) (errors c))
  ∧ ∀ c' : @config V,
      stack c' = stack c ++ [(TabOfs t, lval c)] →
      step V0 act t c' = Panic (errors c').
Proof.
  intros Hofs Hrow Hcell Hsp. split; [|split].
  - by rewrite (action_cell_at t state (yyError t) 0 row).
  - unfold unwind_phase.
    destruct (length (stack c) - 1)%nat as [|sp] eqn:Hlen; [lia|].
    simpl. rewrite Hrow. simpl. apply index_Some_lt in Hcell as Hlt.
    destruct (Z.ltb_spec (yyError t) (Go.len row)); [|lia].
    rewrite Hcell. simpl. rewrite Z.add_0_l.
    destruct (Z.eqb_spec (TabOfs t) 0); [lia|]. done.
  - intros c' Hstk. unfold step. rewrite Hstk.
    assert (Htop : Go.index (stack c ++ [(TabOfs t, lval c)])
                            (Go.len (stack c ++ [(TabOfs t, lval c)]) - 1)
                   = Some (TabOfs t, lval c)).
    { unfold Go.index, Go.len. rewrite length_app. simpl.
      destruct (Z.ltb_spec (Z.of_nat (length (stack c) + 1) - 1) 0); [lia|].
      replace (Z.to_nat (Z.of_nat (length (stack c) + 1) - 1)) with (length (stack c))
        by lia.
      apply list_lookup_middle. done. }
    assert (Hnone : Go.index (ParseTab t) (TabOfs t) = None).
    { unfold Go.index. by destruct (Z.ltb_spec (TabOfs t) 0); [|lia]. }
    rewrite Htop. cbv zeta. unfold action_cell, yys. cbn [fst].
    rewrite Hnone. simpl. f_equal. apply lexed_same.
Qed.

Lemma unwind_takes_empty_cell_witness :
  action_cell Ex.tables_err 4 (yyError Ex.tables_err) = Some 0
  ∧ @yyParse unit tt (λ _ _ _, plain tt) Ex.tables_err 20
               [(57350, id); (61, id); (59, id)]
    = Panicked ["syntax error"%string].
Proof.
  split; [|vm_compute; reflexivity].
  apply (unwind_takes_empty_cell tt (λ _ _ _, plain tt) Ex.tables_err
           (mkConfig [(0, tt); (2, tt); (4, tt)] 1 0 tt tt [] []) 4 [0; 0; 0; 0; 0; 9]).
  - vm_compute. reflexivity.
  - vm_compute. reflexivity.
  - vm_compute. reflexivity.
  - simpl. lia.
Defined.

(** ** Usage counts *)

Section UsageCounts.

Lemma scan_states_concat (Table : list (list Action)) : ∀ acc,
  fold_left (λ acc state, fold_left scan_action state acc) Table acc
  = fold_left scan_action (concat Table) acc.
Proof.
  induction Table as [|st Table IH]; intros acc; simpl; [done|].
  by rewrite IH, fold_left_app.
Qed.

Lemma scan_action_lookup (acc : gmap SymPtr Z * Z * Z) (act : Action) (s : SymPtr) :
  (scan_action acc act).1.1 !! s
  = if decide (Sym act = s) then Some (Go.map_get 0 acc.1.1 s + 1) else acc.1.1 !! s.
Proof.
  destruct acc as [[m lo] hi]. unfold scan_action.
  destruct (Kind act) as [k a].
  destruct (k =? rune_a); simpl; destruct (decide (Sym act = s)) as [->|Hne];
    by rewrite ?lookup_insert_eq, ?lookup_insert_ne.
Qed.

Lemma scan_actions_count (acts : list Action) (s : SymPtr) : ∀ acc,
  let n := Z.of_nat (length (filter (λ act, Sym act = s) acts)) in
  Go.map_get 0 (fold_left scan_action acts acc).1.1 s = Go.map_get 0 acc.1.1 s + n
  ∧ ((fold_left scan_action acts acc).1.1 !! s = None ↔ acc.1.1 !! s = None ∧ n = 0).
Proof.
  induction acts as [|a acts IH]; intros acc; simpl.
  - split; [lia|]. split; [by intros ->|by intros [-> _]].
  - specialize (IH (scan_action acc a)). simpl in IH. destruct IH as [IHv IHn].
    rewrite IHv, IHn. unfold Go.map_get. rewrite scan_action_lookup.
    rewrite filter_cons. destruct (decide (Sym a = s)) as [Ha|Ha]; simpl.
    + split; [unfold Go.map_get; lia|]. split; [by intros [? _]|lia].
    + done.
Qed.

Lemma msu_init_zero (Syms : gmap string SymPtr) (s : SymPtr) (u : Z) :
  msu_init Syms !! s = Some u → u = 0.
Proof.
  unfold msu_init. revert u.
  apply (map_fold_weak_ind
           (λ (r : gmap SymPtr Z) (m : gmap string SymPtr),
              ∀ u, r !! s = Some u → u = 0)).
  - intros u. by rewrite lookup_empty.
  - intros nm s' m r _ IH u. destruct (reserved nm); [apply IH|].
    destruct (decide (s' = s)) as [->|Hne].
    + rewrite lookup_insert_eq. congruence.
    + rewrite lookup_insert_ne by done. apply IH.
Qed.

End UsageCounts.

(** X3.  The usage of a symbol is the number of actions of the table on
    it, whatever their kind.  The usage map holds the symbols registered
    under a non reserved name and the symbols the table names, registered
    or not, and no other. *)
Theorem msu_of_counts (Syms : gmap string SymPtr) (Table : list (list Action)) (s : SymPtr) :
  (msu_of Syms Table !! s = None
   ↔ (s ∉ nonreserved_syms Syms) ∧ occurrences s Table = 0%nat)
  ∧ (∀ u, msu_of Syms Table !! s = Some u → u = Z.of_nat (occurrences s Table)).
Proof.
  unfold msu_of, scan_table, occurrences. rewrite scan_states_concat.
  destruct (scan_actions_count (concat Table) s (msu_init Syms, 0, 0)) as [Hv Hn].
  simpl in Hv, Hn. split.
  - rewrite Hn, <- msu_init_dom, not_elem_of_dom.
    split; (intros [? ?]; split; [done|lia]).
  - intros u Hu. unfold Go.map_get in Hv. rewrite Hu in Hv. simpl in Hv.
    destruct (msu_init Syms !! s) as [u0|] eqn:H0; simpl in Hv.
    + apply msu_init_zero in H0. lia.
    + lia.
Qed.

(** ** The order of the symbols *)

Section StringOrder.

Lemma String_compare_refl (s : string) : String.compare s s = Eq.
Proof.
  induction s as [|a s IH]; [done|].
  cbn [String.compare]. unfold Ascii.compare. rewrite N.compare_refl. exact IH.
Qed.

Lemma String_compare_lt_trans (a : string) : ∀ b c,
  String.compare a b = Lt → String.compare b c = Lt → String.compare a c = Lt.
Proof.
  induction a as [|x a IH]; intros [|y b] [|z c]; cbn [String.compare]; try done.
  unfold Ascii.compare.
  destruct (N.compare_spec (N_of_ascii x) (N_of_ascii y)) as [Hxy|Hxy|Hxy];
    destruct (N.compare_spec (N_of_ascii y) (N_of_ascii z)) as [Hyz|Hyz|Hyz];
    try done; intros H1 H2.
  - rewrite Hxy, Hyz, N.compare_refl. by apply (IH b c).
  - rewrite Hxy. by apply N.compare_lt_iff in Hyz as ->.
  - rewrite <- Hyz. by apply N.compare_lt_iff in Hxy as ->.
  - assert (N_of_ascii x < N_of_ascii z)%N as Hxz by lia.
    by apply N.compare_lt_iff in Hxz as ->.
Qed.

Lemma String_ltb_trans (a b c : string) :
  String.ltb a b = true → String.ltb b c = true → String.ltb a c = true.
Proof.
  unfold String.ltb. intros H1 H2.
  destruct (String.compare a b) eqn:Hab; try done.
  destruct (String.compare b c) eqn:Hbc; try done.
  by rewrite (String_compare_lt_trans a b c).
Qed.

Lemma String_ltb_total (a b : string) :
  String.ltb a b = true ∨ a = b ∨ String.ltb b a = true.
Proof.
  unfold String.ltb. rewrite (String.compare_antisym b a).
  destruct (String.compare a b) eqn:Hab; simpl; auto.
  right. left. by apply String.compare_eq_iff.
Qed.

Lemma String_ltb_incomp_trans (a b c : string) :
  String.ltb a b = false → String.ltb b c = false → String.ltb a c = false.
Proof.
  intros H1 H2. destruct (String.ltb a c) eqn:Hac; [|done].
  destruct (String_ltb_total a b) as [H|[->|H]]; [congruence|congruence|].
  destruct (String_ltb_total b c) as [H'|[->|H']]; [congruence|congruence|].
  pose proof (String_ltb_trans _ _ _ H' H) as Hca.
  pose proof (String_ltb_trans _ _ _ Hac Hca) as Haa.
  by rewrite String_ltb_irrefl in Haa.
Qed.

End StringOrder.

Section LessOrder.

Variable heap : SymPtr → Symbol.
Variable ToLower : string → string.

Local Abbreviation less := (Less heap ToLower).
Local Abbreviation lower a := (ToLower (Name (heap (sym a)))).

Lemma Less_spec (a b : symUsed) :
  less a b = true
  ↔ used b < used a ∨ (used a = used b ∧ String.ltb (lower a) (lower b) = true).
Proof.
  unfold Less. destruct (Z.ltb_spec (used b) (used a)); [split; auto|].
  destruct (Z.ltb_spec (used a) (used b)).
  - split; [done|]. intros [?|[? _]]; lia.
  - split; [intros ?; right; split; [lia|done]|]. intros [?|[_ ?]]; [lia|done].
Qed.

Lemma Less_false (a b : symUsed) :
  less a b = false
  ↔ used a < used b ∨ (used a = used b ∧ String.ltb (lower a) (lower b) = false).
Proof.
  unfold Less. destruct (Z.ltb_spec (used b) (used a)).
  - split; [done|]. intros [?|[? _]]; lia.
  - destruct (Z.ltb_spec (used a) (used b)); [split; auto|].
    split; [intros ?; right; split; [lia|done]|]. intros [?|[_ ?]]; [lia|done].
Qed.

Lemma Less_irrefl (a : symUsed) : less a a = false.
Proof. apply Less_false. right. split; [done|apply String_ltb_irrefl]. Qed.

Lemma Less_trans (a b c : symUsed) :
  less a b = true → less b c = true → less a c = true.
Proof.
  rewrite !Less_spec. intros [H1|[H1 L1]] [H2|[H2 L2]]; try (left; lia).
  right. split; [lia|]. by apply (String_ltb_trans _ (lower b)).
Qed.

Lemma Less_incomp_trans (a b c : symUsed) :
  less a b = false → less b c = false → less a c = false.
Proof.
  rewrite !Less_false. intros [H1|[H1 L1]] [H2|[H2 L2]]; try (left; lia).
  right. split; [lia|]. by apply (String_ltb_incomp_trans _ (lower b)).
Qed.

Lemma Less_strict_weak : Go2.strict_weak less.
Proof.
  split; [exact Less_irrefl|]. split; [exact Less_trans|exact Less_incomp_trans].
Qed.

End LessOrder.

(** X4.  [symsUsed.Less] is the strict weak ordering [sort.Sort] asks for,
    whatever [strings.ToLower] does: nothing is less than itself, less is
    transitive, and so is being neither way less.  It orders by descending
    usage and, for equal usage, by ascending lowered name. *)
Theorem Less_is_strict_weak (heap : SymPtr → Symbol) (ToLower : string → string) :
  Go2.strict_weak (Less heap ToLower)
  ∧ ∀ a b,
      Less heap ToLower a b = true
      ↔ used b < used a
        ∨ (used a = used b
           ∧ String.ltb (ToLower (Name (heap (sym a)))) (ToLower (Name (heap (sym b))))
             = true).
Proof. split; [apply Less_strict_weak|apply Less_spec]. Qed.

Section InsertionSort.

Context {A : Type}.
Variable less : A → A → bool.
Hypothesis less_sw : Go2.strict_weak less.

Lemma bubble_sorted (x : A) (rp : list A) :
  StronglySorted (λ a b, less a b = false) rp →
  StronglySorted (λ a b, less a b = false) (Go.bubble less x rp).
Proof.
  destruct less_sw as (Hirr & Htr & Hinc).
  induction rp as [|y rp IH]; intros Hs; simpl.
  - repeat constructor.
  - apply StronglySorted_cons in Hs as [Hy Hs].
    destruct (less x y) eqn:Hxy.
    + apply StronglySorted_cons. split; [|by apply IH].
      rewrite bubble_perm. constructor; [|done].
      destruct (less y x) eqn:Hyx; [|done].
      pose proof (Htr _ _ _ Hxy Hyx) as Hxx. by rewrite Hirr in Hxx.
    + apply StronglySorted_cons. split; [|by apply StronglySorted_cons].
      constructor; [done|]. eapply Forall_impl; [exact Hy|].
      intros z Hyz. by apply (Hinc x y z).
Qed.

Lemma insertion_loop_sorted (data : list A) : ∀ acc,
  StronglySorted (λ a b, less a b = false) acc →
  StronglySorted (λ a b, less a b = false)
                 (fold_left (λ rp x, Go.bubble less x rp) data acc).
Proof.
  induction data as [|x data IH]; intros acc Hs; simpl; [done|].
  by apply IH, bubble_sorted.
Qed.

Lemma StronglySorted_rev (R : relation A) (l : list A) :
  StronglySorted R l → StronglySorted (flip R) (rev l).
Proof.
  induction 1 as [|x l Hs IH Hx]; simpl; [constructor|].
  apply StronglySorted_app_2; [|done|repeat constructor].
  intros x1 x2 H1 H2. apply list_elem_of_singleton in H2 as ->.
  rewrite Forall_forall in Hx. apply Hx. by apply list_elem_of_In, in_rev, list_elem_of_In.
Qed.

(** Insertion sort meets the contract of [sort.Sort]. *)
Lemma insertionSort_sorted (data : list A) :
  StronglySorted (λ a b, less b a = false) (Go.insertionSort less data).
Proof.
  unfold Go.insertionSort.
  apply (StronglySorted_rev (λ a b, less a b = false)).
  apply insertion_loop_sorted. constructor.
Qed.

End InsertionSort.

Lemma insertionSort_sorts {A : Type} : Go2.sorts (@Go.insertionSort A).
Proof.
  intros less Hsw l. split; [apply insertionSort_perm|by apply insertionSort_sorted].
Qed.

Section SortedTranslation.

Variable heap : SymPtr → Symbol.
Variable ToLower : string → string.
Variable Sort : (symUsed → symUsed → bool) → list symUsed → list symUsed.
Hypothesis Sort_sorts : Go2.sorts Sort.

Lemma su_of_sorted (order : list (SymPtr * Z)) :
  StronglySorted (λ a b, Less heap ToLower b a = false)
                 (su_of heap ToLower Sort order).
Proof. unfold su_of. apply Sort_sorts, Less_strict_weak. Qed.

Lemma StronglySorted_lookup_lt {B} (R : relation B) (l : list B) (i j : nat) (x y : B) :
  StronglySorted R l → (i < j)%nat → l !! i = Some x → l !! j = Some y → R x y.
Proof.
  intros Hs. revert i j. induction Hs as [|z l Hs IH Hz]; intros i j Hij Hi Hj.
  - by rewrite lookup_nil in Hi.
  - destruct j as [|j]; [lia|]. simpl in Hj. destruct i as [|i].
    + simpl in Hi. injection Hi as <-. rewrite Forall_forall in Hz.
      apply Hz. by apply list_elem_of_lookup_2 in Hj.
    + simpl in Hi. apply (IH i j); [lia|done..].
Qed.

End SortedTranslation.

(** X5.  With a sort that meets the contract of [sort.Sort], the ids follow
    the usage: of two symbols the one with the smaller id is used at least
    as often, and when they are used equally often its lowered name is not
    the greater one. *)
Theorem su_of_descending_usage
  (heap : SymPtr → Symbol) (ToLower : string → string)
  (Sort : (symUsed → symUsed → bool) → list symUsed → list symUsed)
  (order : list (SymPtr * Z)) (i j : nat) (vi vj : symUsed) :
  Go2.sorts Sort →
  (i < j)%nat →
  su_of heap ToLower Sort order !! i = Some vi →
  su_of heap ToLower Sort order !! j = Some vj →
  used vj ≤ used vi
  ∧ (used vi = used vj →
     String.ltb (ToLower (Name (heap (sym vj)))) (ToLower (Name (heap (sym vi)))) = false).
Proof.
  intros Hsort Hij Hi Hj.
  pose proof (StronglySorted_lookup_lt _ _ i j vi vj
                (su_of_sorted heap ToLower Sort Hsort order) Hij Hi Hj) as Hle.
  simpl in Hle. apply Less_false in Hle as [Hlt|[Heq Hn]].
  - split; [lia|]. intros ?. lia.
  - split; [lia|]. by intros _.
Qed.

Lemma su_of_descending_usage_witness :
  used {| sym := Ex.p_NUM; used := 2 |} ≤ used {| sym := Ex.p_plus; used := 3 |}
  ∧ (used {| sym := Ex.p_plus; used := 3 |} = used {| sym := Ex.p_NUM; used := 2 |} →
     String.ltb (Go.ToLowerASCII (Name (Ex.heap (sym {| sym := Ex.p_NUM; used := 2 |}))))
                (Go.ToLowerASCII (Name (Ex.heap (sym {| sym := Ex.p_plus; used := 3 |}))))
     = false).
Proof.
  apply (su_of_descending_usage Ex.heap Go.ToLowerASCII (@Go.insertionSort symUsed)
           (map_to_list (msu_of Ex.Syms Ex.Table)) 1 2).
  - apply insertionSort_sorts.
  - lia.
  - vm_compute. reflexivity.
  - vm_compute. reflexivity.
Defined.

(** X6.  When no two symbols of the usage map agree in both usage and
    lowered name, the sorted slice, and with it every id, is the same for
    every order in which the map is visited and every sort that meets the
    contract of [sort.Sort]. *)
Theorem su_of_deterministic
  (heap : SymPtr → Symbol) (ToLower : string → string)
  (Sort1 Sort2 : (symUsed → symUsed → bool) → list symUsed → list symUsed)
  (msu : gmap SymPtr Z) (order1 order2 : list (SymPtr * Z)) :
  Go2.sorts Sort1 → Go2.sorts Sort2 →
  order1 ≡ₚ map_to_list msu → order2 ≡ₚ map_to_list msu →
  NoDup ((λ p, (p.2, ToLower (Name (heap p.1)))) <$> map_to_list msu) →
  su_of heap ToLower Sort1 order1 = su_of heap ToLower Sort2 order2.
Proof.
  intros Hs1 Hs2 Ho1 Ho2 Hnd.
  set (mk := λ p : SymPtr * Z, mkSymUsed p.1 p.2).
  assert (Hp1 : su_of heap ToLower Sort1 order1 ≡ₚ mk <$> map_to_list msu).
  { unfold su_of. rewrite (proj1 (Hs1 _ (Less_strict_weak heap ToLower) _)).
    by rewrite Ho1. }
  assert (Hp2 : su_of heap ToLower Sort2 order2 ≡ₚ mk <$> map_to_list msu).
  { unfold su_of. rewrite (proj1 (Hs2 _ (Less_strict_weak heap ToLower) _)).
    by rewrite Ho2. }
  apply (StronglySorted_unique_strong (λ a b, Less heap ToLower b a = false));
    [|by apply su_of_sorted|by apply su_of_sorted|by rewrite Hp1, Hp2].
  intros a b Ha Hb Hba Hab. rewrite Hp1 in Ha. rewrite Hp2 in Hb.
  apply list_elem_of_fmap in Ha as (pa & -> & Hpa).
  apply list_elem_of_fmap in Hb as (pb & -> & Hpb).
  apply Less_false in Hba, Hab. simpl in Hba, Hab.
  assert (Hkey : (pa.2, ToLower (Name (heap pa.1))) = (pb.2, ToLower (Name (heap pb.1)))).
  { destruct Hba as [?|[Hu Hba]], Hab as [?|[Hu' Hab]]; try lia.
    f_equal; [done|].
    destruct (String_ltb_total (ToLower (Name (heap pa.1))) (ToLower (Name (heap pb.1))))
      as [H|[H|H]]; congruence. }
  apply list_elem_of_lookup_1 in Hpa as [ia Hia].
  apply list_elem_of_lookup_1 in Hpb as [ib Hib].
  assert (ia = ib) as ->.
  { apply (NoDup_lookup _ ia ib (pa.2, ToLower (Name (heap pa.1))) Hnd).
    - by rewrite list_lookup_fmap, Hia.
    - by rewrite list_lookup_fmap, Hib, Hkey. }
  congruence.
Qed.

Lemma su_of_deterministic_witness :
  su_of Ex.heap Go.ToLowerASCII (@Go.insertionSort symUsed)
        (map_to_list (msu_of Ex.Syms Ex.Table))
  = su_of Ex.heap Go.ToLowerASCII (@Go.insertionSort symUsed)
          (rev (map_to_list (msu_of Ex.Syms Ex.Table))).
Proof.
  apply (su_of_deterministic Ex.heap Go.ToLowerASCII _ _ (msu_of Ex.Syms Ex.Table)).
  - apply insertionSort_sorts.
  - apply insertionSort_sorts.
  - reflexivity.
  - symmetry. apply Permutation_rev.
  - apply (bool_decide_unpack _). vm_compute. exact I.
Defined.

(** ** Names and sentinels *)

Section Names.

Variable heap : SymPtr → Symbol.

Lemma endSym_snoc (su : list symUsed) (w : symUsed) :
  endSym_of heap (su ++ [w])
  = if (Name (heap (sym w)) =? "$end")%string then Z.of_nat (length su)
    else endSym_of heap su.
Proof.
  unfold endSym_of. rewrite xlat_loop_snoc.
  by destruct (xlat_loop heap su) as [[xl es] er].
Qed.

Lemma errSym_snoc (su : list symUsed) (w : symUsed) :
  errSym_of heap (su ++ [w])
  = if (Name (heap (sym w)) =? "error")%string then Z.of_nat (length su)
    else errSym_of heap su.
Proof.
  unfold errSym_of. rewrite xlat_loop_snoc.
  by destruct (xlat_loop heap su) as [[xl es] er].
Qed.

(** A sentinel recorded by the loop of lines 283-292 is the index of the
    last symbol of that name, and 0 when there is none. *)
Lemma sentinel_last (f : list symUsed → Z) (nm : string) :
  f [] = 0 →
  (∀ su w, f (su ++ [w])
           = if (Name (heap (sym w)) =? nm)%string then Z.of_nat (length su) else f su) →
  ∀ su,
    ((∀ v, v ∈ su → Name (heap (sym v)) ≠ nm) → f su = 0)
    ∧ (∀ (i : nat) v,
         su !! i = Some v → Name (heap (sym v)) = nm →
         (∀ (j : nat) w, (i < j)%nat → su !! j = Some w → Name (heap (sym w)) ≠ nm) →
         f su = Z.of_nat i).
Proof.
  intros Hnil Hsnoc su. induction su as [|w su [IH0 IH1]] using rev_ind.
  - split; [done|]. intros i v Hi. by rewrite lookup_nil in Hi.
  - rewrite Hsnoc. split.
    + intros Hno. destruct (String.eqb_spec (Name (heap (sym w))) nm) as [Hw|Hw].
      * exfalso. apply (Hno w); [|done]. apply elem_of_app. right. apply list_elem_of_here.
      * apply IH0. intros v Hv. apply Hno, elem_of_app. by left.
    + intros i v Hi Hv Hlast.
      destruct (decide (i < length su)%nat) as [Hlt|Hge].
      * rewrite lookup_app_l in Hi by done.
        destruct (String.eqb_spec (Name (heap (sym w))) nm) as [Hw|Hw].
        { exfalso. apply (Hlast (length su) w Hlt); [|done].
          by rewrite list_lookup_middle. }
        apply (IH1 i v Hi Hv). intros j w' Hij Hj.
        apply (Hlast j w' Hij). apply lookup_lt_Some in Hj as Hjlt.
        by rewrite lookup_app_l.
      * apply lookup_lt_Some in Hi as Hlen. rewrite length_app in Hlen. simpl in Hlen.
        assert (i = length su) as -> by lia.
        rewrite list_lookup_middle in Hi by done. injection Hi as ->.
        by rewrite (proj2 (String.eqb_eq _ _) Hv).
Qed.

Lemma SymNames_of_lookup (su : list symUsed) (i : nat) (v : symUsed) :
  su !! i = Some v →
  Go.index (SymNames_of heap su) (Z.of_nat i) = Some (Name (heap (sym v))).
Proof.
  intros Hi. rewrite index_of_nat. unfold SymNames_of.
  by rewrite list_lookup_fmap, Hi.
Qed.

End Names.

(** X7.  The sentinels written into the parser: [yyEOF] is the id of the
    last symbol named [$end] and [yyError] the id of the last symbol named
    [error]; when the translation has no symbol of that name the sentinel
    is 0, the id of the most used symbol. *)
Theorem endSym_errSym_last (heap : SymPtr → Symbol) (su : list symUsed) :
  ((∀ v, v ∈ su → Name (heap (sym v)) ≠ "$end"%string) → endSym_of heap su = 0)
  ∧ ((∀ v, v ∈ su → Name (heap (sym v)) ≠ "error"%string) → errSym_of heap su = 0)
  ∧ (∀ (i : nat) v,
       su !! i = Some v → Name (heap (sym v)) = "$end"%string →
       (∀ (j : nat) w, (i < j)%nat → su !! j = Some w →
                       Name (heap (sym w)) ≠ "$end"%string) →
       endSym_of heap su = Z.of_nat i)
  ∧ (∀ (i : nat) v,
       su !! i = Some v → Name (heap (sym v)) = "error"%string →
       (∀ (j : nat) w, (i < j)%nat → su !! j = Some w →
                       Name (heap (sym w)) ≠ "error"%string) →
       errSym_of heap su = Z.of_nat i).
Proof.
  destruct (sentinel_last heap (endSym_of heap) "$end" eq_refl (endSym_snoc heap) su)
    as [He0 He1].
  destruct (sentinel_last heap (errSym_of heap) "error" eq_refl (errSym_snoc heap) su)
    as [Hr0 Hr1].
  done.
Qed.

(** X8.  The name of a translated symbol is found again by its id: when no
    two symbols of the translation share a value, [yySymName] of the id the
    translation table gives to a symbol's value is the symbol's name.  An
    id below 0 or beyond the names is answered with its quoted number, and
    the lookup never faults. *)
Theorem yySymName_of_xlat
  (heap : SymPtr → Symbol) (quote : Z → string) (su : list symUsed) :
  NoDup ((λ v, Value (heap (sym v))) <$> su) →
  (∀ (i : nat) v,
     su !! i = Some v →
     yySymName quote (SymNames_of heap su)
               (Go.map_get 0 (xlat_of heap su) (Value (heap (sym v))))
     = Some (Name (heap (sym v))))
  ∧ (∀ c, c < 0 ∨ Go.len su ≤ c →
          yySymName quote (SymNames_of heap su) c = Some (quote c))
  ∧ (∀ c, is_Some (yySymName quote (SymNames_of heap su) c)).
Proof.
  intros Hnd.
  assert (Hlen : Go.len (SymNames_of heap su) = Go.len su).
  { unfold Go.len, SymNames_of. by rewrite length_fmap. }
  split; [|split].
  - intros i v Hi. unfold Go.map_get. rewrite (xlat_of_lookup heap su Hnd i v Hi).
    simpl. unfold yySymName. rewrite Hlen.
    apply lookup_lt_Some in Hi as Hlt. unfold Go.len.
    destruct (Z.leb_spec 0 (Z.of_nat i)); [|lia].
    destruct (Z.ltb_spec (Z.of_nat i) (Z.of_nat (length su))); [|lia].
    simpl. by apply SymNames_of_lookup.
  - intros c Hc. unfold yySymName. rewrite Hlen.
    destruct (Z.leb_spec 0 c); destruct (Z.ltb_spec c (Go.len su)); simpl; try done; lia.
  - intros c. unfold yySymName. rewrite Hlen.
    destruct (Z.leb_spec 0 c); destruct (Z.ltb_spec c (Go.len su)); simpl;
      try by eexists.
    unfold Go.index. destruct (Z.ltb_spec c 0); [lia|].
    apply lookup_lt_is_Some_2. unfold SymNames_of, Go.len in *.
    rewrite length_fmap. lia.
Qed.

Lemma yySymName_of_xlat_witness :
  yySymName (λ _, "?"%string) (SymNames_of Ex.heap Ex.su)
            (Go.map_get 0 (xlat_of Ex.heap Ex.su) 57346)
  = Some "NUM"%string.
Proof.
  assert (Hnd : NoDup ((λ v, Value (Ex.heap (sym v))) <$> Ex.su)).
  { apply (bool_decide_unpack _). vm_compute. exact I. }
  apply (proj1 (yySymName_of_xlat Ex.heap (λ _, "?"%string) Ex.su Hnd) 2%nat
           (mkSymUsed Ex.p_NUM 2)).
  vm_compute. reflexivity.
Defined.

(** ** The token constants *)

Section Constants.

Variable heap : SymPtr → Symbol.

Lemma slen_append (a b : string) : Go2.slen (a +:+ b) = Go2.slen a + Go2.slen b.
Proof.
  unfold Go2.slen. induction a as [|c a IH]; simpl; [done|].
  cbn [String.append String.length] in *. lia.
Qed.

Lemma slen_repeat (n : nat) : Go2.slen (Go2.repeat_nat " " n) = Z.of_nat n.
Proof.
  induction n as [|n IH]; [done|].
  cbn [Go2.repeat_nat]. rewrite slen_append, IH. unfold Go2.slen. simpl. lia.
Qed.

Lemma const_scan_snoc (order : list SymPtr) (p : SymPtr) :
  const_scan heap (order ++ [p]) = const_step heap (const_scan heap order) p.
Proof. unfold const_scan. by rewrite fold_left_app. Qed.

(** The symbols that get a constant. *)
Lemma is_token_true (s : Symbol) :
  is_token s = Some true
  ↔ Name s = "$default"%string
    ∨ (IsTerminal s = true ∧ 0 < Value s
       ∧ ∃ c rest, Name s = String c rest ∧ c ≠ "'"%char).
Proof.
  unfold is_token. destruct (String.eqb_spec (Name s) "$default") as [Hd|Hd].
  - split; [by left|done].
  - destruct (IsTerminal s).
    + destruct (Name s) as [|c rest] eqn:Hn.
      * split; [done|]. intros [?|(_ & _ & c & rest & ? & _)]; done.
      * destruct (Ascii.eqb_spec c "'"%char) as [Hc|Hc]; simpl.
        -- split; [done|]. intros [?|(_ & _ & c' & rest' & Heq & Hc')]; [done|].
           injection Heq as -> ->. done.
        -- destruct (Z.gtb_spec (Value s) 0).
           ++ split; [|done]. intros _. right. repeat split; [lia|]. by exists c, rest.
           ++ split; [done|]. intros [?|(_ & ? & _)]; [done|lia].
    + split; [done|]. intros [?|(? & _)]; done.
Qed.

Lemma is_token_None (s : Symbol) :
  is_token s = None ↔ IsTerminal s = true ∧ Name s = ""%string.
Proof.
  unfold is_token. destruct (String.eqb_spec (Name s) "$default") as [Hd|Hd].
  - split; [done|]. intros [_ H]. by rewrite H in Hd.
  - destruct (IsTerminal s); [|split; [done|by intros [? _]]].
    destruct (Name s); [done|]. split; [done|by intros [_ ?]].
Qed.

Lemma const_scan_inv (order : list SymPtr) nsyms a mx :
  const_scan heap order = Some (nsyms, a, mx) →
  0 ≤ mx
  ∧ (∀ nm, nm ∈ a → Go2.slen nm ≤ mx)
  ∧ (∀ nm p, nsyms !! nm = Some p → Name (heap p) = nm ∧ p ∈ order)
  ∧ (∀ p, p ∈ order → is_Some (nsyms !! Name (heap p)))
  ∧ (∀ nm, nm ∈ a ↔ ∃ p, p ∈ order ∧ Name (heap p) = nm ∧ is_token (heap p) = Some true).
Proof.
  revert nsyms a mx. induction order as [|p order IH] using rev_ind; intros nsyms a mx.
  - intros [= <- <- <-]. split; [done|]. split; [by intros nm Hin%elem_of_nil|].
    split; [intros nm p; by rewrite lookup_empty|].
    split; [by intros p Hin%elem_of_nil|].
    intros nm. split; [by intros Hin%elem_of_nil|].
    by intros (p & Hin%elem_of_nil & _).
  - rewrite const_scan_snoc.
    destruct (const_scan heap order) as [[[ns0 a0] mx0]|]; [|done].
    destruct (IH ns0 a0 mx0 eq_refl) as (Hmx & Hlen & Hns & Hreg & Ha). clear IH.
    unfold const_step. simpl.
    destruct (is_token (heap p)) as [tok|] eqn:Htok; [|done]. simpl.
    assert (Hns' : ∀ nm q, <[Name (heap p) := p]> ns0 !! nm = Some q →
                   Name (heap q) = nm ∧ q ∈ order ++ [p]).
    { intros nm q. destruct (decide (Name (heap p) = nm)) as [<-|Hne].
      - rewrite lookup_insert_eq. intros [= <-]. split; [done|].
        apply elem_of_app. right. apply list_elem_of_here.
      - rewrite lookup_insert_ne by done. intros Hq. destruct (Hns nm q Hq).
        split; [done|]. apply elem_of_app. by left. }
    assert (Hreg' : ∀ q, q ∈ order ++ [p] →
                    is_Some (<[Name (heap p) := p]> ns0 !! Name (heap q))).
    { intros q Hq. destruct (decide (Name (heap p) = Name (heap q))) as [<-|Hne].
      - rewrite lookup_insert_eq. by eexists.
      - rewrite lookup_insert_ne by done. apply Hreg.
        apply elem_of_app in Hq as [?|Hq]; [done|].
        apply list_elem_of_singleton in Hq as ->. done. }
    destruct tok; intros [= <- <- <-].
    + split; [lia|]. split; [|split; [exact Hns'|split; [exact Hreg'|]]].
      * intros nm Hin. apply elem_of_app in Hin as [Hin|Hin].
        -- specialize (Hlen nm Hin). lia.
        -- apply list_elem_of_singleton in Hin as ->. lia.
      * intros nm. rewrite elem_of_app, Ha, list_elem_of_singleton. split.
        -- intros [(q & Hq & Hn & Ht) | ->].
           ++ exists q. split; [apply elem_of_app; by left|done].
           ++ exists p. split; [apply elem_of_app; right; apply list_elem_of_here|done].
        -- intros (q & Hq & Hn & Ht). apply elem_of_app in Hq as [Hq|Hq].
           ++ left. by exists q.
           ++ apply list_elem_of_singleton in Hq as ->. by right.
    + split; [done|]. split; [done|]. split; [exact Hns'|split; [exact Hreg'|]].
      intros nm. rewrite Ha. split.
      * intros (q & Hq & Hn & Ht). exists q. split; [apply elem_of_app; by left|done].
      * intros (q & Hq & Hn & Ht). apply elem_of_app in Hq as [Hq|Hq].
        -- by exists q.
        -- apply list_elem_of_singleton in Hq as ->. congruence.
Qed.

Lemma const_scan_None (order : list SymPtr) :
  const_scan heap order = None ↔ ∃ p, p ∈ order ∧ is_token (heap p) = None.
Proof.
  induction order as [|p order IH] using rev_ind.
  - split; [done|]. by intros (p & Hin%elem_of_nil & _).
  - rewrite const_scan_snoc. unfold const_step.
    destruct (const_scan heap order) as [[[ns0 a0] mx0]|] eqn:Hs; simpl.
    + destruct (is_token (heap p)) as [tok|] eqn:Htok; simpl.
      * split; [by destruct tok|]. intros (q & Hq & Hn).
        apply elem_of_app in Hq as [Hq|Hq].
        -- assert (Some (ns0, a0, mx0) = None); [|done]. apply IH. by exists q.
        -- apply list_elem_of_singleton in Hq as ->. congruence.
      * split; [|done]. intros _. exists p.
        split; [apply elem_of_app; right; apply list_elem_of_here|done].
    + split; [|done]. intros _. destruct (proj1 IH eq_refl) as (q & Hq & Hn).
      exists q. split; [apply elem_of_app; by left|done].
Qed.

End Constants.

(** X9.  A constant is collected for a symbol exactly when it is named
    [$default] or is a terminal of positive value whose name does not
    start with a quote; the widest of these names gives the column of the
    equals signs.  Collecting the constants panics exactly when the usage
    map holds a terminal with the empty name, whose first byte is read. *)
Theorem const_scan_tokens (heap : SymPtr → Symbol) (order : list SymPtr) :
  (const_scan heap order = None
   ↔ ∃ p, p ∈ order ∧ IsTerminal (heap p) = true ∧ Name (heap p) = ""%string)
  ∧ ∀ nsyms a mx,
      const_scan heap order = Some (nsyms, a, mx) →
      (∀ nm, nm ∈ a
             ↔ ∃ p, p ∈ order ∧ Name (heap p) = nm
                    ∧ (nm = "$default"%string
                       ∨ (IsTerminal (heap p) = true ∧ 0 < Value (heap p)
                          ∧ ∃ c rest, nm = String c rest ∧ c ≠ "'"%char)))
      ∧ (∀ nm, nm ∈ a → Go2.slen nm ≤ mx).
Proof.
  split.
  - rewrite const_scan_None. split; intros (p & Hp & H); exists p; (split; [done|]).
    + by apply is_token_None.
    + by apply is_token_None.
  - intros nsyms a mx Hs.
    destruct (const_scan_inv heap order nsyms a mx Hs) as (_ & Hlen & _ & _ & Ha).
    split; [|exact Hlen]. intros nm. rewrite Ha.
    split; intros (p & Hp & Hn & Ht); exists p; (split; [done|]); (split; [done|]).
    + apply is_token_true in Ht. by rewrite Hn in Ht.
    + apply is_token_true. by rewrite Hn.
Qed.

(** X10.  The line of a constant: [error] gets none; any other collected
    name but [$default] is padded to the width of the widest name plus one,
    so the equals signs stand in one column, and shows the value of a
    symbol of that name.  [$default] is written as the prefix followed by
    [Default], which the width does not account for: when that is longer
    than the widest name plus one, the padding count is negative and the
    generator panics. *)
Theorem const_line_padding
  (heap : SymPtr → Symbol) (pref : string) (order : list SymPtr)
  (nsyms : gmap string SymPtr) (a : list string) (mx : Z) (v : string) :
  const_scan heap order = Some (nsyms, a, mx) →
  v ∈ a →
  (v = "error"%string → const_line heap pref mx nsyms v = Some None)
  ∧ (v ≠ "error"%string → v ≠ "$default"%string →
     ∃ pad s,
       const_line heap pref mx nsyms v
       = Some (Some (v +:+ pad +:+ "= " +:+ Go.fmt_d (Value (heap s)) +:+ Go.nl))
       ∧ Go2.slen (v +:+ pad) = mx + 1 ∧ Name (heap s) = v ∧ s ∈ order)
  ∧ (v = "$default"%string → mx + 1 < Go2.slen (pref +:+ "Default") →
     const_line heap pref mx nsyms v = None ∧ const_block heap pref order = None)
  ∧ (v = "$default"%string → Go2.slen (pref +:+ "Default") ≤ mx + 1 →
     ∃ pad s,
       const_line heap pref mx nsyms v
       = Some (Some ((pref +:+ "Default") +:+ pad +:+ "= "
                     +:+ Go.fmt_d (Value (heap s)) +:+ Go.nl))
       ∧ Go2.slen ((pref +:+ "Default") +:+ pad) = mx + 1).
Proof.
  intros Hs Hv.
  destruct (const_scan_inv heap order nsyms a mx Hs) as (Hmx & Hlen & Hns & Hreg & Ha).
  assert (Hsym : ∃ s, nsyms !! v = Some s ∧ Name (heap s) = v ∧ s ∈ order).
  { apply Ha in Hv as (p & Hp & Hn & _). destruct (Hreg p Hp) as [s Hs'].
    rewrite Hn in Hs'. exists s. split; [done|]. by apply Hns. }
  destruct Hsym as (s & Hsv & Hsn & Hso).
  split; [|split; [|split]].
  - intros ->. done.
  - intros He Hd. unfold const_line.
    destruct (String.eqb_spec v "error"); [done|].
    destruct (String.eqb_spec v "$default"); [done|].
    specialize (Hlen v Hv). unfold Go2.Repeat.
    destruct (Z.ltb_spec (mx - Go2.slen v + 1) 0); [lia|]. simpl. rewrite Hsv. simpl.
    eexists _, s. split; [reflexivity|]. split; [|done].
    rewrite slen_append, slen_repeat. lia.
  - intros -> Hlong.
    assert (Hline : const_line heap pref mx nsyms "$default" = None).
    { unfold const_line. simpl. unfold Go2.Repeat.
      by destruct (Z.ltb_spec (mx - Go2.slen (pref +:+ "Default") + 1) 0); [|lia]. }
    split; [done|]. unfold const_block. rewrite Hs. simpl.
    apply mapM_None_2, Exists_exists. exists "$default"%string. split; [|done].
    by rewrite insertionSort_perm.
  - intros -> Hfit. unfold const_line. simpl. unfold Go2.Repeat.
    destruct (Z.ltb_spec (mx - Go2.slen (pref +:+ "Default") + 1) 0); [lia|].
    simpl. rewrite Hsv. simpl. eexists _, s. split; [reflexivity|].
    rewrite slen_append, slen_repeat. lia.
Qed.

Lemma const_line_padding_witness :
  const_block Ex2.heap "parser" Ex2.order = None
  ∧ const_block Ex2.heap "yy" Ex2.order
    = Some [Some ("yyDefault= 57352" +:+ Go.nl); Some ("NUM      = 57346" +:+ Go.nl); None].
Proof.
  split; [|vm_compute; reflexivity].
  apply (const_line_padding Ex2.heap "parser" Ex2.order
           (list_to_map [("NUM"%string, Ex.p_NUM); ("error"%string, Ex.p_error);
                         ("$default"%string, Ex2.p_default); ("'+'"%string, Ex.p_plus);
                         ("$end"%string, Ex.p_end); ("expr"%string, Ex.p_expr)])
           ["NUM"; "error"; "$default"]%string 8 "$default").
  - vm_compute. reflexivity.
  - apply list_elem_of_further, list_elem_of_further, list_elem_of_here.
  - reflexivity.
  - vm_compute. reflexivity.
Defined.

(** ** Faults of the action stitcher *)

(** X11.  An untagged positional reference [$N] is stitched only when [N]
    is between 1 and the number of components and the component is a
    registered symbol; otherwise the generator faults on the index or on
    the missing symbol.  The other parts never fault: a tagged [$<tag>N]
    is stitched for any [N], also 0, negative or beyond the components.  A
    rule without action and without parent whose result symbol has a type
    faults when it has no components to copy from. *)
Theorem stitch_faults
  (heap : SymPtr → Symbol) (Syms : gmap string SymPtr) (typ : string) (max : Z)
  (components : list string) (part : ActionPart) :
  (PTok part = DLR_NUM →
   (is_Some (stitch_part heap Syms typ max components part)
    ↔ 1 ≤ Num part ≤ Go.len components
      ∧ ∃ nm, Go.index components (Num part - 1) = Some nm ∧ is_Some (Syms !! nm)))
  ∧ (PTok part ≠ DLR_NUM → is_Some (stitch_part heap Syms typ max components part))
  ∧ (∀ r rule,
       RAction rule = [] → Parent rule = None → Components rule = [] →
       Type_ (heap (RSym rule)) ≠ ""%string →
       stitch_rule heap Syms r rule = None)
  ∧ (∀ r rule,
       RAction rule = [] → Type_ (heap (RSym rule)) = ""%string →
       stitch_rule heap Syms r rule = Some ""%string).
Proof.
  split; [|split; [|split]].
  - intros Htok. unfold stitch_part. rewrite Htok. split.
    + intros [s Hs].
      destruct (Go.index components (Num part - 1)) as [nm|] eqn:Hi; [|done].
      simpl in Hs. destruct (Syms !! nm) as [p|] eqn:Hp; [|done].
      apply index_Some_lt in Hi as Hr. split; [lia|].
      exists nm. split; [done|by eexists].
    + intros (_ & nm & Hi & [p Hp]). rewrite Hi. simpl. rewrite Hp. simpl. by eexists.
  - intros Htok. unfold stitch_part. destruct (PTok part); try done; by eexists.
  - intros r rule Ha Hp Hc Ht. unfold stitch_rule, stitch_components.
    rewrite Ha, Hp, Hc. simpl.
    by destruct (String.eqb_spec (Type_ (heap (RSym rule))) "").
  - intros r rule Ha Ht. unfold stitch_rule. by rewrite Ha, Ht.
Qed.

(** ** The error-example table *)

Section XErrorsExact.

Variable heap : SymPtr → Symbol.

(** An entry of the map is the last entry of the literal with its key. *)
Lemma map_literal_Some `{Countable K} {B} (entries : list (K * B)) :
  ∀ k v,
    map_literal entries !! k = Some v →
    ∃ i : nat, entries !! i = Some (k, v)
               ∧ ∀ (j : nat) kv, (i < j)%nat → entries !! j = Some kv → kv.1 ≠ k.
Proof.
  induction entries as [|[k' v'] entries IH] using rev_ind; intros k v.
  - unfold map_literal. simpl. by rewrite lookup_empty.
  - rewrite map_literal_snoc. destruct (decide (k' = k)) as [->|Hne].
    + rewrite lookup_insert_eq. intros [= ->]. exists (length entries). split.
      * by rewrite lookup_app_r, Nat.sub_diag by lia.
      * intros j kv Hj Hkv. apply lookup_lt_Some in Hkv.
        rewrite length_app in Hkv. simpl in Hkv. lia.
    + rewrite lookup_insert_ne by done. intros Hk.
      destruct (IH k v Hk) as (i & Hi & Hlast). exists i. split.
      * rewrite lookup_app_l; [done|]. by apply lookup_lt_Some in Hi.
      * intros j kv Hj Hkv.
        destruct (decide (j < length entries)%nat) as [Hlt|Hge].
        -- rewrite lookup_app_l in Hkv by done. by apply (Hlast j).
        -- rewrite lookup_app_r in Hkv by lia.
           destruct (j - length entries)%nat; [|done].
           simpl in Hkv. by injection Hkv as <-.
Qed.

Lemma map_literal_is_Some `{Countable K} {B} (entries : list (K * B)) (k : K) :
  k ∈ entries.*1 ↔ is_Some (map_literal entries !! k).
Proof.
  induction entries as [|[k' v'] entries IH] using rev_ind.
  - unfold map_literal. simpl. rewrite lookup_empty. split.
    + by intros Hin%elem_of_nil.
    + by intros [? ?].
  - rewrite map_literal_snoc, fmap_app, elem_of_app, lookup_insert_is_Some, IH.
    simpl. rewrite list_elem_of_singleton. split.
    + intros [Hin | ->]; [|by left].
      destruct (decide (k' = k)); [by left|by right].
    + intros [-> | [_ Hin]]; [by right|by left].
Qed.

Lemma map_literal_size `{Countable K} {B} (entries : list (K * B)) :
  (size (map_literal entries) ≤ length entries)%nat
  ∧ (size (map_literal entries) = length entries ↔ NoDup entries.*1).
Proof.
  induction entries as [|[k v] entries [IHle IHeq]] using rev_ind.
  - unfold map_literal. simpl. rewrite map_size_empty. split; [done|].
    split; [constructor|done].
  - rewrite map_literal_snoc, length_app, fmap_app, NoDup_app. simpl.
    destruct (map_literal entries !! k) as [w|] eqn:Hk.
    + rewrite map_size_insert_Some by done. split; [lia|]. split; [lia|].
      intros (_ & Hdisj & _). exfalso. apply (Hdisj k).
      * apply map_literal_is_Some. by rewrite Hk.
      * apply list_elem_of_here.
    + rewrite map_size_insert_None by done. split; [lia|]. split.
      * intros Hsz. split; [apply IHeq; lia|]. split.
        -- intros k' Hin Hk'. apply list_elem_of_singleton in Hk' as ->.
           apply map_literal_is_Some in Hin. rewrite Hk in Hin. by destruct Hin.
        -- apply NoDup_singleton.
      * intros (Hnd & _ & _). apply IHeq in Hnd. lia.
Qed.

End XErrorsExact.

(** X12.  The error-example table is generated exactly when every example
    has a state on its stack.  The messages are written under struct keys,
    which the Go compiler does not compare, so that of the examples with
    one state and one translated lookahead the last gives the message.
    The table holds nothing else: each entry is the message of the last
    example with its key, the key of every example has an entry, and the
    table has as many entries as there are examples exactly when no two
    examples have the same key, and fewer otherwise. *)
Theorem XErrors_of_exact
  (heap : SymPtr → Symbol) (xlat : gmap Z Z) (xerrs : list XError)
  (m : gmap (Z * Z) string) :
  XErrors_of heap xlat xerrs = Some m →
  Forall (λ xerr, Stack xerr ≠ []) xerrs
  ∧ (∀ xs, Forall (λ xerr, Stack xerr ≠ []) xs → is_Some (XErrors_of heap xlat xs))
  ∧ (∀ state xsym msg,
       m !! (state, xsym) = Some msg →
       ∃ (i : nat) xerr,
         xerrs !! i = Some xerr ∧ Msg xerr = msg
         ∧ last (Stack xerr) = Some state
         ∧ xsym = match Lookahead xerr with
                  | Some la => Go.map_get 0 xlat (Value (heap la))
                  | None => -1
                  end
         ∧ ∀ (j : nat) x' e', (i < j)%nat → xerrs !! j = Some x' →
                              xerror_entry heap xlat x' = Some e' →
                              e'.1 ≠ (state, xsym))
  ∧ (∀ xerr e, xerr ∈ xerrs → xerror_entry heap xlat xerr = Some e →
               is_Some (m !! e.1))
  ∧ (size m ≤ length xerrs)%nat
  ∧ (size m = length xerrs
     ↔ NoDup ((λ xerr, fst <$> xerror_entry heap xlat xerr) <$> xerrs)).
Proof.
  unfold XErrors_of. intros Hm.
  destruct (mapM (xerror_entry heap xlat) xerrs) as [entries|] eqn:He; [|done].
  simpl in Hm. injection Hm as <-. apply mapM_Some_1 in He.
  assert (Hentry : ∀ xerr e, xerror_entry heap xlat xerr = Some e →
            Stack xerr ≠ [] ∧ last (Stack xerr) = Some e.1.1 ∧ Msg xerr = e.2
            ∧ e.1.2 = match Lookahead xerr with
                      | Some la => Go.map_get 0 xlat (Value (heap la))
                      | None => -1
                      end).
  { intros xerr e. unfold xerror_entry.
    destruct (Go.index (Stack xerr) (Go.len (Stack xerr) - 1)) as [st|] eqn:Hi; [|done].
    simpl. intros [= <-]. simpl. split; [by destruct (Stack xerr)|].
    split; [|done]. unfold Go.index, Go.len in Hi.
    destruct (Z.of_nat (length (Stack xerr)) - 1 <? 0); [done|].
    rewrite last_lookup, <- Hi. f_equal. lia. }
  assert (Hlen : length xerrs = length entries) by (by apply Forall2_length in He).
  assert (Hkeys : (λ xerr, fst <$> xerror_entry heap xlat xerr) <$> xerrs
                  = Some <$> entries.*1).
  { clear Hlen. induction He as [|x e xs es Hx _ IH]; [done|].
    rewrite !fmap_cons, IH, Hx. done. }
  split; [|split; [|split; [|split; [|split]]]].
  - apply Forall_forall. intros xerr Hin.
    apply list_elem_of_lookup_1 in Hin as [i Hi].
    destruct (Forall2_lookup_l _ _ _ _ _ He Hi) as (e & _ & Hx).
    by apply Hentry in Hx as [? _].
  - intros xs Hxs.
    destruct (mapM_is_Some_2 (xerror_entry heap xlat) xs) as [es Hes].
    + eapply Forall_impl; [exact Hxs|]. intros xerr Hne.
      unfold compose, xerror_entry.
      assert (Hpos : (0 < length (Stack xerr))%nat).
      { destruct (Stack xerr) eqn:E; [by destruct Hne|simpl; lia]. }
      destruct (lookup_lt_is_Some_2 (Stack xerr) (length (Stack xerr) - 1)) as [st Hst];
        [lia|].
      assert (Hidx : Go.index (Stack xerr) (Go.len (Stack xerr) - 1) = Some st).
      { unfold Go.index, Go.len.
        destruct (Z.ltb_spec (Z.of_nat (length (Stack xerr)) - 1) 0); [lia|].
        rewrite <- Hst. f_equal. lia. }
      rewrite Hidx. by eexists.
    + rewrite Hes. by eexists.
  - intros state xsym msg Hk.
    apply map_literal_Some in Hk as (i & Hi & Hlast).
    destruct (Forall2_lookup_r _ _ _ _ _ He Hi) as (xerr & Hxi & Hx).
    apply Hentry in Hx as (_ & Hl & Hmsg & Hla). simpl in *.
    exists i, xerr. repeat split; try done.
    intros j x' e' Hj Hx' He'.
    destruct (Forall2_lookup_l _ _ _ _ _ He Hx') as (e2 & He2 & Hxe).
    rewrite He' in Hxe. injection Hxe as <-. by apply (Hlast j e').
  - intros xerr e Hin Hx. apply map_literal_is_Some.
    apply list_elem_of_lookup_1 in Hin as [i Hi].
    destruct (Forall2_lookup_l _ _ _ _ _ He Hi) as (e2 & He2 & Hxe).
    rewrite Hx in Hxe. injection Hxe as <-.
    apply list_elem_of_fmap. exists e. split; [done|].
    by apply list_elem_of_lookup_2 in He2.
  - rewrite Hlen. apply map_literal_size.
  - rewrite Hlen, Hkeys. etrans; [apply map_literal_size|].
    symmetry. apply (NoDup_fmap Some).
Qed.

Lemma XErrors_of_exact_witness :
  (size (<[(0, -1)%Z := "expected a number"%string]> (∅ : gmap (Z * Z) string)) ≤ 2)%nat.
Proof.
  apply (XErrors_of_exact Ex.heap Ex.xlat
           [mkXError [0] None "expected NUM"; mkXError [2; 0] None "expected a number"]
           (<[(0, -1) := "expected a number"%string]> ∅)).
  vm_compute. reflexivity.
Defined.

(** ** What one pass of the parser does *)

Section Passes.

Context {V : Type}.
Variable V0 : V.
Variable act : Z → list (Z * V) → V → @effect V.
Variable t : Tables.

Implicit Types c : @config V.

Lemma yylex1_facts c :
  stack (yylex1 t c) = stack c ∧ errState (yylex1 t c) = errState c
  ∧ errors (yylex1 t c) = errors c ∧ input (yylex1 t c) `suffix_of` input c.
Proof.
  unfold yylex1. destruct (input c) as [|[n f] rest]; simpl.
  - done.
  - repeat split. by exists [(n, f)].
Qed.

Lemma unwind_shape (sp : nat) : ∀ (stk stk' : list (Z * V)) state lv,
  length stk = S sp →
  unwind t sp stk state lv = Some (Some stk') →
  ∃ (m : nat) arg, (2 ≤ m ≤ S sp)%nat ∧ stk' = take m stk ++ [(arg, lv)] ∧ arg ≠ 0.
Proof.
  induction sp as [|sp IH]; intros stk stk' state lv Hlen; simpl; [done|].
  destruct (Go.index (ParseTab t) state) as [row|]; [|done]. simpl.
  destruct (if yyError t <? Go.len row
            then Go.index row (yyError t) ≫= λ cell, Some (cell + TabOfs t)
            else Some 0) as [arg|]; [|done].
  simpl. destruct (Z.eqb_spec arg 0) as [Harg|Harg]; simpl.
  - destruct (take (S sp) stk !! sp) as [fr|]; [|done]. simpl.
    intros Hu. apply IH in Hu as (m & arg' & Hm & -> & Hne).
    + exists m, arg'. split; [lia|]. split; [|done].
      rewrite take_take. f_equal. f_equal. lia.
    + rewrite length_take. lia.
  - intros [= <-]. exists (S (S sp)), arg. split; [lia|]. split; [|done].
    by rewrite take_ge by lia.
Qed.

(** One pass that goes on is a shift, a reduction, an error shift or the
    discard of a token, with these effects. *)
Lemma step_next c k c' :
  step V0 act t c = Next k c' →
  input c' `suffix_of` input c
  ∧ ((k = KShift ∧ (∃ fr, stack c' = stack c ++ [fr]) ∧ lookahead c' = -1
      ∧ errState c' = (if errState c >? 0 then errState c - 1 else errState c)
      ∧ errors c' = errors c)
     ∨ (k = KReduce
        ∧ (∃ (m : nat) fr, (1 ≤ m ≤ length (stack c))%nat
                           ∧ stack c' = take m (stack c) ++ [fr])
        ∧ 0 ≤ lookahead c'
        ∧ ∃ r stk rv, errState c' = (if e_errok (act r stk rv) then 0 else errState c)
                      ∧ errors c' = errors c ++ e_msgs (act r stk rv))
     ∨ (k = KErrShift
        ∧ (∃ (m : nat) fr, (2 ≤ m ≤ length (stack c))%nat
                           ∧ stack c' = take m (stack c) ++ [fr] ∧ fr.1 ≠ 0)
        ∧ 0 ≤ lookahead c' ∧ errState c' = 3
        ∧ ((errState c = 0 ∧ ∃ msg, errors c' = errors c ++ [msg])
           ∨ ((errState c = 1 ∨ errState c = 2) ∧ errors c' = errors c)))
     ∨ (k = KDiscard ∧ stack c' = stack c ∧ lookahead c' = -1
        ∧ errState c = 3 ∧ errState c' = 3 ∧ errors c' = errors c)).
Proof.
  unfold step.
  destruct (Go.index (stack c) (Go.len (stack c) - 1)) as [top|] eqn:Htop; [|done].
  apply index_Some_lt in Htop as Hlen. unfold Go.len in Hlen.
  set (c1 := if lookahead c <? 0 then yylex1 t c else c).
  assert (Hc1 : stack c1 = stack c ∧ errState c1 = errState c
                ∧ errors c1 = errors c ∧ input c1 `suffix_of` input c).
  { subst c1. destruct (lookahead c <? 0); [apply yylex1_facts|done]. }
  destruct Hc1 as (Hs1 & He1 & Hr1 & Hi1). clearbody c1.
  destruct (action_cell t (yys top) (lookahead c1)) as [arg|] eqn:Hcell; [|done].
  apply action_cell_nonneg in Hcell as Hla.
  destruct (arg >? 0).
  { intros [= <- <-]. simpl. split; [done|]. left.
    rewrite Hs1, He1, Hr1. repeat split. by eexists. }
  destruct (arg <? 0).
  { unfold reduce_step.
    destruct (Go.map_get (0, 0) (Reductions t) (- arg)) as [x n].
    destruct (goto_state t (stack c1) (Go.len (stack c1) - 1) n x) as [s|] eqn:Hg;
      [|done].
    intros [= <- <-]. simpl. split; [done|]. right. left.
    rewrite He1, Hr1. split; [done|]. split; [|split; [done|]].
    - rewrite Hs1 in *. unfold goto_state in Hg.
      destruct (Go.index (stack c) (Go.len (stack c) - 1 - n)) as [base|] eqn:Hb; [|done].
      apply index_Some_lt in Hb. unfold Go.len in Hb.
      eexists (Z.to_nat (Go.len (stack c) - 1 - n + 1)), _.
      split; [unfold Go.len; lia|done].
    - by eexists _, _, _. }
  destruct (yys top =? 1); [done|].
  assert (Hu : ∀ c2, stack c2 = stack c → lookahead c2 = lookahead c1 →
            input c2 = input c1 →
            unwind_phase V0 t c2 (yys top) = Next k c' →
            k = KErrShift
            ∧ (∃ (m : nat) fr, (2 ≤ m ≤ length (stack c))%nat
                               ∧ stack c' = take m (stack c) ++ [fr] ∧ fr.1 ≠ 0)
            ∧ 0 ≤ lookahead c' ∧ errState c' = 3 ∧ errors c' = errors c2
            ∧ input c' = input c1).
  { intros c2 Hs2 Hl2 Hi2. unfold unwind_phase.
    destruct (unwind t (length (stack c2) - 1) (stack c2) (yys top) (lval c2))
      as [[stk|]|] eqn:Hun; [|done..].
    intros [= <- <-]. simpl. rewrite Hl2, Hi2. repeat split; try done.
    apply unwind_shape in Hun as (m & arg' & Hm & -> & Hne); [|rewrite Hs2; lia].
    rewrite Hs2 in *. exists m, (arg', lval c2). split; [lia|done]. }
  unfold error_step.
  destruct (Z.eqb_spec (errState c1) 0) as [H0|H0].
  { intros Hstep. apply Hu in Hstep as (-> & Hst & Hl & He & Her & Hin); [|done..].
    rewrite Hin. split; [done|]. right. right. left.
    repeat split; try done. left. split; [lia|].
    eexists. rewrite Her. simpl. by rewrite Hr1. }
  destruct (Z.eqb_spec (errState c1) 1) as [H1|H1];
    [|destruct (Z.eqb_spec (errState c1) 2) as [H2|H2]]; simpl.
  1,2: intros Hstep; apply Hu in Hstep as (-> & Hst & Hl & He & Her & Hin); [|done..];
       rewrite Hin; (split; [done|]); right; right; left;
       repeat split; try done; right; (split; [lia|congruence]).
  destruct (Z.eqb_spec (errState c1) 3) as [H3|H3]; [|done].
  destruct (lookahead c1 =? yyEOF t); [done|].
  intros [= <- <-]. simpl. split; [done|]. right. right. right.
  rewrite Hs1, Hr1. repeat split; try done; lia.
Qed.

(** The pass a parse ends with. *)
Lemma step_return c code c' :
  step V0 act t c = Return code c' →
  0 ≤ errState c ≤ 3 →
  0 ≤ errState c' ≤ 3
  ∧ 3 * Z.of_nat (length (errors c')) - errState c'
    ≤ 3 * Z.of_nat (length (errors c)) - errState c.
Proof.
  unfold step.
  destruct (Go.index (stack c) (Go.len (stack c) - 1)) as [top|]; [|done].
  set (c1 := if lookahead c <? 0 then yylex1 t c else c).
  assert (Hc1 : errState c1 = errState c ∧ errors c1 = errors c).
  { subst c1. destruct (lookahead c <? 0); [|done].
    by destruct (yylex1_facts c) as (_ & ? & ? & _). }
  destruct Hc1 as (He1 & Hr1). clearbody c1.
  destruct (action_cell t (yys top) (lookahead c1)) as [arg|]; [|done].
  destruct (arg >? 0); [done|].
  destruct (arg <? 0).
  { unfold reduce_step. destruct (Go.map_get (0, 0) (Reductions t) (- arg)) as [x n].
    by destruct (goto_state t (stack c1) (Go.len (stack c1) - 1) n x). }
  intros Hret Hrange.
  destruct (yys top =? 1).
  { injection Hret as _ <-. rewrite He1, Hr1. lia. }
  assert (Hu : ∀ c2, unwind_phase V0 t c2 (yys top) = Return code c' →
            errState c' = 3 ∧ errors c' = errors c2).
  { intros c2. unfold unwind_phase.
    destruct (unwind t (length (stack c2) - 1) (stack c2) (yys top) (lval c2))
      as [[stk|]|]; [done| |done].
    by intros [= _ <-]. }
  unfold error_step in Hret.
  destruct (Z.eqb_spec (errState c1) 0) as [H0|H0].
  { apply Hu in Hret as [-> ->]. simpl. rewrite length_app, Hr1. simpl. lia. }
  destruct ((errState c1 =? 1) || (errState c1 =? 2)) eqn:H12.
  { apply Hu in Hret as [-> ->]. rewrite Hr1. lia. }
  apply orb_false_iff in H12 as [H1%Z.eqb_neq H2%Z.eqb_neq].
  destruct (Z.eqb_spec (errState c1) 3) as [H3|H3]; [|lia].
  destruct (lookahead c1 =? yyEOF t); [|done].
  injection Hret as _ <-. rewrite He1, Hr1. lia.
Qed.

Lemma step_next_range c k c' :
  step V0 act t c = Next k c' →
  0 ≤ errState c ≤ 3 → 0 ≤ errState c' ≤ 3.
Proof.
  intros Hs Hr. apply step_next in Hs as [_ Hs].
  destruct Hs as [(_ & _ & _ & He & _)
                 |[(_ & _ & _ & r & stk & rv & He & _)
                  |[(_ & _ & _ & He & _)
                   |(_ & _ & _ & _ & He & _)]]].
  - rewrite He. destruct (Z.gtb_spec (errState c) 0); lia.
  - rewrite He. destruct (e_errok (act r stk rv)); lia.
  - lia.
  - lia.
Qed.

Lemma after_invariant (n : nat) : ∀ c c',
  after V0 act t n c = Some c' →
  stack c !! 0%nat = Some (0, V0) → 0 ≤ errState c ≤ 3 →
  (lookahead c = -1 ∨ 0 ≤ lookahead c) →
  stack c' !! 0%nat = Some (0, V0) ∧ 0 ≤ errState c' ≤ 3
  ∧ (lookahead c' = -1 ∨ 0 ≤ lookahead c')
  ∧ input c' `suffix_of` input c ∧ errors c `prefix_of` errors c'.
Proof.
  induction n as [|n IH]; intros c c'; simpl.
  - intros [= <-]. done.
  - destruct (step V0 act t c) as [k c2|code2 c2|errs] eqn:Hs; [|done..].
    intros Haft Hb Hr Hl.
    pose proof (step_next_range c k c2 Hs Hr) as Hr2.
    apply step_next in Hs as [Hin Hs].
    assert (Hb2 : stack c2 !! 0%nat = Some (0, V0)).
    { assert (Htake : ∀ (m : nat) fr, (1 ≤ m)%nat →
                (take m (stack c) ++ [fr]) !! 0%nat = Some (0, V0)).
      { intros m fr Hm. rewrite lookup_app_l; [by rewrite lookup_take_lt by lia|].
        rewrite length_take. apply lookup_lt_Some in Hb. lia. }
      destruct Hs as [(_ & [fr ->] & _)
                     |[(_ & (m & fr & Hm & ->) & _)
                      |[(_ & (m & fr & Hm & -> & _) & _)|(_ & -> & _)]]].
      - rewrite lookup_app_l; [done|]. by apply lookup_lt_Some in Hb.
      - apply Htake. lia.
      - apply Htake. lia.
      - done. }
    assert (Hl2 : lookahead c2 = -1 ∨ 0 ≤ lookahead c2).
    { destruct Hs as [(_ & _ & -> & _)|[(_ & _ & ? & _)|[(_ & _ & ? & _)|(_ & _ & -> & _)]]];
        auto. }
    assert (He2 : errors c `prefix_of` errors c2).
    { destruct Hs as [(_ & _ & _ & _ & ->)
                     |[(_ & _ & _ & r & stk & rv & _ & ->)
                      |[(_ & _ & _ & _ & [(_ & msg & ->)|(_ & ->)])
                       |(_ & _ & _ & _ & _ & ->)]]]; try done.
      - by eexists.
      - by exists [msg]. }
    destruct (IH c2 c' Haft Hb2 Hr2 Hl2) as (? & ? & ? & Hin' & He').
    repeat split; try done; try lia.
    + by etrans.
    + by etrans.
Qed.

(** Actions that neither call [yyerrok] nor report errors of their own. *)
Hypothesis quiet : ∀ r stk rv,
  e_errok (act r stk rv) = false ∧ e_msgs (act r stk rv) = [].

Lemma step_next_potential c k c' :
  step V0 act t c = Next k c' →
  0 ≤ errState c ≤ 3 →
  3 * Z.of_nat (length (errors c')) - errState c'
  ≤ 3 * Z.of_nat (length (errors c)) - errState c
    + (if k is KShift then 1 else 0).
Proof.
  intros Hs Hr. apply step_next in Hs as [_ Hs].
  destruct Hs as [(-> & _ & _ & He & Her)
                 |[(-> & _ & _ & r & stk & rv & He & Her)
                  |[(-> & _ & _ & He & Her)
                   |(-> & _ & _ & H3 & He & Her)]]].
  - rewrite He, Her. destruct (Z.gtb_spec (errState c) 0); lia.
  - destruct (quiet r stk rv) as [Hq Hm]. rewrite Hq in He.
    rewrite He, Her, Hm, app_nil_r. lia.
  - rewrite He. destruct Her as [(H0 & msg & ->)|(H12 & ->)].
    + rewrite length_app. simpl. lia.
    + lia.
  - rewrite He, Her. lia.
Qed.

Lemma run_potential (n : nat) : ∀ c code c',
  0 ≤ errState c ≤ 3 →
  run V0 act t n c = Returned code c' →
  0 ≤ errState c' ≤ 3
  ∧ 3 * Z.of_nat (length (errors c')) - errState c'
    ≤ 3 * Z.of_nat (length (errors c)) - errState c + Z.of_nat (shifts V0 act t n c).
Proof.
  induction n as [|n IH]; intros c code c' Hr; simpl; [done|].
  destruct (step V0 act t c) as [k c2|code2 c2|errs] eqn:Hs; [| |done].
  - pose proof (step_next_range c k c2 Hs Hr) as Hr2.
    apply step_next_potential in Hs as Hp; [|done].
    intros Hrun. apply IH in Hrun as [Hr' Hp']; [|done]. split; [done|].
    destruct k; lia.
  - intros [= <- <-]. apply step_return in Hs as [Hr2 Hp]; [|done]. lia.
Qed.

End Passes.

(** ** Invariants of a parse and the error protocol *)

(** X13.  Every configuration a parse reaches keeps the frame the parse
    began with, of state 0, at the bottom of its stack; its error state is
    0, 1, 2 or 3; its lookahead is -1 (none) or a column number from 0; the
    tokens still to be read are a final segment of the input; and from
    there on the reported errors are only added to. *)
Theorem parse_invariants
  {V : Type} (V0 : V) (act : Z → list (Z * V) → V → @effect V) (t : Tables)
  (inp : list (Z * (V → V))) (n : nat) (c : @config V) :
  after V0 act t n (init V0 inp) = Some c →
  stack c !! 0%nat = Some (0, V0)
  ∧ 0 ≤ errState c ≤ 3
  ∧ (lookahead c = -1 ∨ 0 ≤ lookahead c)
  ∧ input c `suffix_of` inp
  ∧ (∀ m c', after V0 act t m c = Some c' → errors c `prefix_of` errors c').
Proof.
  intros Haft.
  apply after_invariant in Haft as (Hb & Hr & Hl & Hi & _); simpl; [|done|lia|by left].
  repeat split; try done; try lia.
  intros m c' Hm. by apply after_invariant in Hm as (_ & _ & _ & _ & He).
Qed.

Lemma parse_invariants_witness :
  stack Ex3.c_rec !! 0%nat = Some (0, tt)
  ∧ 0 ≤ errState Ex3.c_rec ≤ 3
  ∧ (lookahead Ex3.c_rec = -1 ∨ 0 ≤ lookahead Ex3.c_rec)
  ∧ input Ex3.c_rec `suffix_of` Ex3.inp
  ∧ (∀ m c', after tt Ex3.act Ex3.tables_rec m Ex3.c_rec = Some c' →
             errors Ex3.c_rec `prefix_of` errors c').
Proof.
  apply (parse_invariants tt Ex3.act Ex3.tables_rec Ex3.inp 2 Ex3.c_rec).
  vm_compute. reflexivity.
Defined.

(** X14.  When no action calls [yyerrok] or passes a message of its own
    to [Error], errors are reported at least three shifted tokens apart:
    when the parse returns, with 0 or with 1, three times the number of
    messages [Error] has received is at most the number of shifts plus
    three.  (An action that calls [yyerrok] lets the next error be
    reported at once, see [Ex4].) *)
Theorem errors_three_shifts_apart
  {V : Type} (V0 : V) (act : Z → list (Z * V) → V → @effect V) (t : Tables)
  (inp : list (Z * (V → V))) (fuel : nat) (code : Z) (c : @config V) :
  (∀ r stk rv, e_errok (act r stk rv) = false ∧ e_msgs (act r stk rv) = []) →
  yyParse V0 act t fuel inp = Returned code c →
  (3 * length (errors c) ≤ shifts V0 act t fuel (init V0 inp) + 3)%nat.
Proof.
  unfold yyParse. intros Hquiet Hrun.
  apply (run_potential V0 act t Hquiet) in Hrun as [Hr Hp]; simpl; [|lia].
  simpl in Hp. lia.
Qed.

Lemma errors_three_shifts_apart_witness :
  (3 * 1 ≤ shifts tt Ex3.act Ex3.tables_rec 20 (init tt Ex3.inp) + 3)%nat.
Proof.
  apply (errors_three_shifts_apart tt Ex3.act Ex3.tables_rec Ex3.inp 20 0
           (mkConfig [(0, tt); (1, tt)] 0 2 tt tt [] ["syntax error"%string])).
  - intros r stk rv. split; reflexivity.
  - vm_compute. reflexivity.
Defined.

(** X15.  An error shift is never taken from the bottom frame: the pass
    that makes one keeps at least the two lowest frames of the stack and
    pushes one frame, of a state other than 0, on them; it happens in error
    state 0, 1 or 2 only and leaves error state 3. *)
Theorem error_shift_above_bottom
  {V : Type} (V0 : V) (act : Z → list (Z * V) → V → @effect V) (t : Tables)
  (c c' : @config V) :
  step V0 act t c = Next KErrShift c' →
  ∃ (m : nat) fr, (2 ≤ m ≤ length (stack c))%nat
                  ∧ stack c' = take m (stack c) ++ [fr] ∧ yys fr ≠ 0
                  ∧ errState c ≠ 3 ∧ errState c' = 3.
Proof.
  intros Hs. apply step_next in Hs as [_ Hs].
  destruct Hs as [(? & _)|[(? & _)|[(_ & (m & fr & Hm & Hst & Hne) & _ & He & Hor)|(? & _)]]];
    try done.
  exists m, fr. repeat split; try done; try lia.
Qed.

Lemma error_shift_above_bottom_witness :
  ∃ (m : nat) fr, (2 ≤ m ≤ length (stack Ex3.c_err))%nat
                  ∧ stack Ex3.c_rec = take m (stack Ex3.c_err) ++ [fr] ∧ yys fr ≠ 0
                  ∧ errState Ex3.c_err ≠ 3 ∧ errState Ex3.c_rec = 3.
Proof.
  apply (error_shift_above_bottom tt Ex3.act Ex3.tables_rec Ex3.c_err Ex3.c_rec).
  vm_compute. reflexivity.
Defined.

(** X16.  An error met while the stack holds only its bottom frame ends
    the parse with 1 when no recovery is under way (error state other than
    3): the loop that looks for an error shift runs while [sp != 0], so the
    row of the state in that frame is not looked at, whatever its error
    column holds; in error state 0 the message is reported first. *)
Theorem error_at_bottom_returns
  {V : Type} (V0 : V) (t : Tables) (c : @config V) (state : Z) :
  (length (stack c) ≤ 1)%nat → errState c ≠ 3 →
  ∃ c', error_step V0 t c state = Return 1 c'
        ∧ stack c' = stack c ∧ input c' = input c
        ∧ errors c' = errors c ++ (if errState c =? 0
                                   then [xerror_msg t state (lookahead c)] else []).
Proof.
  intros Hlen Hne. unfold error_step.
  assert (Hu : ∀ c2, stack c2 = stack c →
            unwind_phase V0 t c2 state
            = Return 1 (mkConfig (stack c2) (lookahead c2) 3 (lval c2) (rval c2)
                                 (input c2) (errors c2))).
  { intros c2 Hs. unfold unwind_phase. rewrite Hs.
    by replace (length (stack c) - 1)%nat with 0%nat by lia. }
  destruct (Z.eqb_spec (errState c) 0) as [H0|H0].
  { eexists. split; [by apply Hu|]. done. }
  destruct ((errState c =? 1) || (errState c =? 2)).
  { eexists. split; [by apply Hu|]. simpl. by rewrite app_nil_r. }
  destruct (Z.eqb_spec (errState c) 3) as [H3|H3]; [done|].
  eexists. split; [done|]. by rewrite app_nil_r.
Qed.

Lemma error_at_bottom_returns_witness :
  action_cell Ex.tables_err 0 (yyError Ex.tables_err) = Some 3
  ∧ ∃ c', error_step tt Ex.tables_err
            (mkConfig [(0, tt)] 4 0 tt tt [] []) 0 = Return 1 c'
          ∧ stack c' = [(0, tt)] ∧ input c' = []
          ∧ errors c' = [] ++ ["syntax error"%string].
Proof.
  split; [vm_compute; reflexivity|].
  apply (error_at_bottom_returns tt Ex.tables_err (mkConfig [(0, tt)] 4 0 tt tt [] []) 0).
  - simpl. lia.
  - simpl. lia.
Defined.

(** ** The reported number of cells *)

Section CellCount.

Variable heap : SymPtr → Symbol.
Variable xlat : gmap Z Z.
Variable lo tbits : Z.
Hypothesis xlat_small : ∀ k i, xlat !! k = Some i → 0 ≤ i < 2 ^ 32.

Lemma place_hi (tabRow : list Z) : ∀ col acc hi m hi',
  place tbits (emit_row tabRow col) (col + 1) acc hi = Some (m, hi') →
  hi' = fold_left (λ h xe, Z.max h (xe.1 + 1)) (cells_of tabRow) hi.
Proof.
  induction tabRow as [|v rest IH]; intros col acc hi m hi' Hp; simpl in Hp.
  - by injection Hp as _ <-.
  - set (xsym := Go.uint32 (Z.shiftr v 32)) in *.
    set (arg := Go.uint32 v) in *.
    assert (Hi : default (col + 1) (if col + 1 =? xsym then None else Some xsym) = xsym).
    { destruct (Z.eqb_spec (col + 1) xsym); simpl; lia. }
    rewrite Hi in Hp.
    destruct ((xsym <? 0) || negb ((0 <=? arg) && (arg <? 2 ^ tbits))); [done|].
    destruct (acc !! xsym); [done|].
    by apply IH in Hp.
Qed.

Lemma fold_max_perm {B} (g : B → Z) (l l' : list B) :
  l ≡ₚ l' →
  ∀ h, fold_left (λ h x, Z.max h (g x)) l h = fold_left (λ h x, Z.max h (g x)) l' h.
Proof.
  induction 1 as [|x l l' _ IH|x y l|l l1 l2 _ IH1 _ IH2]; intros h; simpl.
  - done.
  - apply IH.
  - f_equal. lia.
  - by rewrite IH1.
Qed.

Lemma fold_max_succ {B} (g : B → Z) (l : list B) : ∀ h,
  fold_left (λ h x, Z.max h (g x + 1)) l (h + 1)
  = fold_left (λ h x, Z.max h (g x)) l h + 1.
Proof.
  induction l as [|x l IH]; intros h; simpl; [done|].
  replace (Z.max (h + 1) (g x + 1)) with (Z.max h (g x) + 1) by lia. apply IH.
Qed.

Lemma fold_max_fmap {B C} (f : B → C) (g : C → Z) (l : list B) : ∀ h,
  fold_left (λ h x, Z.max h (g x)) (f <$> l) h
  = fold_left (λ h x, Z.max h (g (f x))) l h.
Proof.
  induction l as [|x l IH]; intros h; simpl; [done|]. apply IH.
Qed.

Lemma row_max_fold (state : list Action) : ∀ a,
  Forall (λ act, is_Some (xlat !! Value (heap (Sym act)))) state →
  fold_left (λ acc act,
               max ← acc;
               xsym ← xlat !! Value (heap (Sym act));
               Some (Z.max max xsym)) state (Some a)
  = Some (fold_left (λ h act, Z.max h (Go.map_get 0 xlat (Value (heap (Sym act)))))
                    state a).
Proof.
  induction state as [|act state IH]; intros a Hs; simpl; [done|].
  apply Forall_cons in Hs as [[x Hx] Hs]. unfold Go.map_get at 2.
  rewrite Hx. simpl. by apply IH.
Qed.

(** The statistic adds the greatest column of a row, one less than the
    length of the row when the row is not empty. *)
Lemma row_of_len (state : list Action) (row : list Z) :
  Forall (λ act, 0 ≤ cell_arg act - lo < 2 ^ 32) state →
  row_of heap xlat lo tbits state = Some row →
  row_max heap xlat state
  = Some (Go.len row - (if state is [] then 0 else 1)).
Proof.
  intros Hrange. unfold row_of.
  destruct (mapM (encode_action heap xlat lo) state) as [tabRow|] eqn:Hm; [|done].
  simpl. apply mapM_Some_1 in Hm.
  assert (Hsyms : Forall (λ act, is_Some (xlat !! Value (heap (Sym act)))) state).
  { apply Forall_forall. intros act Hact.
    apply list_elem_of_lookup_1 in Hact as [j Hj].
    destruct (Forall2_lookup_l _ _ _ _ _ Hm Hj) as (v & _ & Henc).
    unfold encode_action in Henc.
    destruct (xlat !! Value (heap (Sym act))); [by eexists|done]. }
  pose proof (encode_cells heap xlat lo xlat_small state tabRow Hrange Hm) as Hcells.
  unfold slice_literal.
  destruct (place tbits (emit_row (Go.insertionSort Z.ltb tabRow) (-1)) 0 ∅ 0)
    as [[m hi]|] eqn:Hp; [|done].
  simpl. intros [= <-].
  pose proof (place_emit_row tbits _ (-1) _ _ _ _ Hp) as (_ & Hhi & _).
  apply (place_hi _ (-1)) in Hp.
  rewrite (fold_max_perm (λ xe : Z * Z, xe.1 + 1) _ (cells_of tabRow)) in Hp.
  2:{ unfold cells_of. by rewrite insertionSort_perm. }
  rewrite Hcells, (fold_max_fmap _ (λ xe : Z * Z, xe.1 + 1)) in Hp. simpl in Hp.
  unfold row_max. rewrite row_max_fold by done. f_equal.
  unfold Go.len. rewrite length_fmap, length_seq, Z2Nat.id by done.
  destruct state as [|act state]; simpl in *; [lia|].
  apply Forall_cons in Hsyms as [[x Hx] _].
  assert (0 ≤ Go.map_get 0 xlat (Value (heap (Sym act)))) as Hx0.
  { unfold Go.map_get. rewrite Hx. simpl. by apply xlat_small in Hx as [? _]. }
  rewrite Z.max_r in Hp by lia. rewrite fold_max_succ in Hp.
  rewrite Z.max_r by lia. lia.
Qed.

Lemma nCells_fold (Table : list (list Action)) : ∀ tab a,
  Forall (Forall (λ act, 0 ≤ cell_arg act - lo < 2 ^ 32)) Table →
  Forall2 (λ state row, row_of heap xlat lo tbits state = Some row) Table tab →
  fold_left (λ acc state,
               nCells ← acc;
               max ← row_max heap xlat state;
               Some (nCells + max)) Table (Some a)
  = Some (a + foldr Z.add 0 (Go.len <$> tab)
          - Z.of_nat (length (filter (λ state, state ≠ []) Table))).
Proof.
  intros tab a Hrange Hrows. revert a.
  induction Hrows as [|state row Table tab Hrow Hrows IH]; intros a; simpl.
  - f_equal. lia.
  - apply Forall_cons in Hrange as [Hr Hrange].
    rewrite (row_of_len state row Hr Hrow). simpl. rewrite IH by done.
    f_equal. rewrite filter_cons.
    change (list_fmap _ _ Go.len tab) with (Go.len <$> tab).
    destruct (decide (state ≠ [])) as [Hne|He]; destruct state; simpl.
    + done.
    + lia.
    + lia.
    + by destruct He.
Qed.

End CellCount.

(** X17.  The number reported as the cells of the parse table is not the
    number of cells of the emitted table: a row's share is its greatest
    column, one less than the length of its literal, so the report falls
    short of the cells emitted by one for every state that has an action.
    Hypotheses as for the generation of the table: columns and stored
    numbers below 2^32. *)
Theorem nCells_of_undercounts
  (heap : SymPtr → Symbol) (xlat : gmap Z Z) (lo tbits : Z)
  (Table : list (list Action)) (tab : list (list Z)) :
  (∀ k i, xlat !! k = Some i → 0 ≤ i < 2 ^ 32) →
  Forall (Forall (λ act, 0 ≤ cell_arg act - lo < 2 ^ 32)) Table →
  ParseTab_of heap xlat lo tbits Table = Some tab →
  ∃ nCells, nCells_of heap xlat Table = Some nCells
            ∧ foldr Z.add 0 (Go.len <$> tab)
              = nCells + Z.of_nat (length (filter (λ state, state ≠ []) Table)).
Proof.
  intros Hsmall Hrange Htab. unfold ParseTab_of in Htab. apply mapM_Some_1 in Htab.
  unfold nCells_of. rewrite (nCells_fold heap xlat lo tbits Hsmall Table tab 0) by done.
  eexists. split; [done|]. lia.
Qed.

Lemma nCells_of_undercounts_witness :
  ∃ nCells, nCells_of Ex.heap Ex.xlat Ex.Table = Some nCells
            ∧ foldr Z.add 0 (Go.len <$> ParseTab Ex.tables)
              = nCells + Z.of_nat (length (filter (λ state, state ≠ []) Ex.Table)).
Proof.
  apply (nCells_of_undercounts Ex.heap Ex.xlat Ex.minArg Ex.tbits Ex.Table
           (ParseTab Ex.tables)).
  - intros k i Hk. apply (xlat_of_range Ex.heap) in Hk.
    assert (Hl : (length Ex.su ≤ 10)%nat) by (vm_compute; lia). lia.
  - repeat constructor; vm_compute; congruence.
  - vm_compute. reflexivity.
Defined.
